(** * pdf_to_excel_bank: the line parser and the record assembler

    A shallow embedding of the statement parser of [pdf_to_excel_bank.py]
    (the regular expressions, [parse_line], [parse_lines_to_rows], the word
    clusterer of [easyocr_lines], the lines of the text mode and the two
    modes in turn) and the properties proved about it.

    Text.  A Python [str] is a [list ascii].  The character classes [\d],
    [\s], [\w], [str.isalpha] and the case mapping [str.upper] are the ones
    of Python restricted to the code points below 128; a code above 127
    stands for a character that is in none of these classes and has no case
    mapping.  Two codes are set apart for the en dash and the em dash that
    [parse_lines_to_rows] strips.

    Amounts.  A [Decimal] with two fraction digits is the integer number of
    its hundredths (a [Z]).  Arithmetic is the one of the default decimal
    context: the exact result rounded half-even to 28 significant digits.
    The exponent limit of the context is not modelled: the [Overflow] that
    it traps needs an amount of more than a million digits.

    Coordinates.  The [float] coordinates of the OCR words are rationals.

    Pages.  A document is given by the text of its pages, as
    [page.get_text] returns it, and by the detections of its page images, as
    [reader.readtext] returns them.  Opening the file, rendering the images,
    the debug files and the workbook are not modelled. *)

From Stdlib Require Import Ascii String List ZArith QArith Qabs Qminmax.
From Stdlib Require Import Bool Arith Lia.
From Stdlib Require Import Sorted Permutation.
From Stdlib Require Import Lqa.
Import ListNotations.

Set Implicit Arguments.
Close Scope Q_scope.

(* ================================================================= *)
(** ** Python strings *)

Module Py.

Definition str := list ascii.

Definition lit (s : string) : str := list_ascii_of_string s.

Definition code (c : ascii) : N := N_of_ascii c.

Definition between (lo hi : N) (c : ascii) : bool :=
  ((lo <=? code c) && (code c <=? hi))%N.

(** [\d] *)
Definition is_digit (c : ascii) : bool := between 48 57 c.

Definition is_upper (c : ascii) : bool := between 65 90 c.
Definition is_lower (c : ascii) : bool := between 97 122 c.

(** [str.isalpha] on one character, and [[A-Za-z]] *)
Definition is_alpha (c : ascii) : bool := is_upper c || is_lower c.

(** [\w] *)
Definition is_word (c : ascii) : bool :=
  is_alpha c || is_digit c || (code c =? 95)%N.

(** [\s] and [str.isspace]: tab, newline, vertical tab, form feed, carriage
    return, the four separators 28..31, and the space. *)
Definition is_space (c : ascii) : bool :=
  between 9 13 c || between 28 32 c.

Definition en_dash : ascii := ascii_of_N 150.
Definition em_dash : ascii := ascii_of_N 151.

(** [str.upper], one character *)
Definition upper_char (c : ascii) : ascii :=
  if is_lower c then ascii_of_N (code c - 32) else c.

Definition upper (s : str) : str := map upper_char s.

(** [s.startswith(w)] *)
Fixpoint starts_with (w s : str) : bool :=
  match w, s with
  | [], _ => true
  | _ :: _, [] => false
  | a :: w', b :: s' => Ascii.eqb a b && starts_with w' s'
  end.

(** [w in s] *)
Fixpoint contains (w s : str) : bool :=
  starts_with w s ||
  match s with
  | [] => false
  | _ :: t => contains w t
  end.

(** The first occurrence of [sep] in [s]: the text before and after it. *)
Fixpoint cut_first (sep s : str) : option (str * str) :=
  if starts_with sep s then Some ([], skipn (length sep) s)
  else match s with
       | [] => None
       | c :: t =>
           match cut_first sep t with
           | Some (a, b) => Some (c :: a, b)
           | None => None
           end
       end.

(** The last occurrence of [sep] in [s]: the text before and after it. *)
Fixpoint cut_last (sep s : str) : option (str * str) :=
  match s with
  | [] => if starts_with sep s then Some ([], []) else None
  | c :: t =>
      match cut_last sep t with
      | Some (a, b) => Some (c :: a, b)
      | None =>
          if starts_with sep s then Some ([], skipn (length sep) s) else None
      end
  end.

(** [s[-n:]] for [n > 0] and [s[:n]] *)
Definition last_chars (n : nat) (s : str) : str := skipn (length s - n) s.
Definition first_chars (n : nat) (s : str) : str := firstn n s.

Fixpoint lstrip_by (p : ascii -> bool) (s : str) : str :=
  match s with
  | c :: t => if p c then lstrip_by p t else s
  | [] => []
  end.

Definition rstrip_by (p : ascii -> bool) (s : str) : str :=
  rev (lstrip_by p (rev s)).

Definition strip_by (p : ascii -> bool) (s : str) : str :=
  rstrip_by p (lstrip_by p s).

(** [s.strip()] *)
Definition strip (s : str) : str := strip_by is_space s.

(** [s.replace(old, new)] for a non-empty [old]: the occurrences of [old]
    are replaced from the left, without overlap.  [skip] counts the
    characters of an occurrence still to be dropped. *)
Fixpoint replace_from (old new s : str) (skip : nat) : str :=
  match s with
  | [] => []
  | c :: t =>
      match skip with
      | S k => replace_from old new t k
      | O =>
          if starts_with old s
          then new ++ replace_from old new t (length old - 1)
          else c :: replace_from old new t 0
      end
  end.

Definition replace (old new s : str) : str := replace_from old new s 0.

(** [sep.join(parts)] *)
Fixpoint join (sep : str) (parts : list str) : str :=
  match parts with
  | [] => []
  | [p] => p
  | p :: rest => p ++ sep ++ join sep rest
  end.

End Py.

Import Py.

(* ================================================================= *)
(** ** Exceptions *)

Inductive exn : Type :=
| InvalidOperation
| IndexError
| ValueError.

Inductive result (A : Type) : Type :=
| Ok (a : A)
| Raise (e : exn).

Arguments Raise {A} e.

Definition bind {A B : Type} (m : result A) (f : A -> result B) : result B :=
  match m with
  | Ok a => f a
  | Raise e => Raise e
  end.

Notation "x <- m ;; k" := (bind m (fun x => k))
  (at level 61, m at next level, right associativity).

(** [l[i]] *)
Definition index {A : Type} (l : list A) (i : nat) : result A :=
  match nth_error l i with
  | Some x => Ok x
  | None => Raise IndexError
  end.

(** [l[-k]], [k >= 1] *)
Definition index_back {A : Type} (l : list A) (k : nat) : result A :=
  index (rev l) (k - 1).

(** [s.split(sep, 1)] *)
Definition split1 (sep s : str) : result (list str) :=
  match sep with
  | [] => Raise ValueError
  | _ =>
      match cut_first sep s with
      | Some (a, b) => Ok [a; b]
      | None => Ok [s]
      end
  end.

(** [s.rsplit(sep, 1)] *)
Definition rsplit1 (sep s : str) : result (list str) :=
  match sep with
  | [] => Raise ValueError
  | _ =>
      match cut_last sep s with
      | Some (a, b) => Ok [a; b]
      | None => Ok [s]
      end
  end.

(* ================================================================= *)
(** ** Regular expressions

    A backtracking matcher with the priorities of Python's [re]: the left
    branch of an alternative first, greedy repetition.  A cursor is the text
    behind it (nearest character first) and the text ahead of it. *)

Module Re.

Inductive regex : Type :=
| Eps
| Chr (p : ascii -> bool)
| Seq (a b : regex)
| Alt (a b : regex)
| Star (a : regex)
| NotBehind (p : ascii -> bool)          (* (?<!c) *)
| NotAhead (p : ascii -> bool)           (* (?!c)  *)
| WordB                                  (* \b     *)
| EndOfText.                             (* $      *)

Record cursor : Type := Cursor { behind : str; ahead : str }.

Definition word_at (s : str) : bool :=
  match s with
  | c :: _ => is_word c
  | [] => false
  end.

Definition holds_at (p : ascii -> bool) (s : str) : bool :=
  match s with
  | c :: _ => p c
  | [] => false
  end.

(** [$] matches at the end and before a newline that ends the text. *)
Definition at_end (s : str) : bool :=
  match s with
  | [] => true
  | [c] => (code c =? 10)%N
  | _ => false
  end.

Section Matcher.
Variable A : Type.

(** Greedy repetition of [body]: one more round that moves the cursor
    if it leads to a match, no more rounds otherwise.  [n] bounds the
    rounds; the text ahead has fewer characters than that. *)
Fixpoint star_loop (body : cursor -> (cursor -> option A) -> option A)
         (k : cursor -> option A) (n : nat) (st : cursor) : option A :=
  match n with
  | O => k st
  | S n' =>
      match body st (fun st1 =>
              if length (ahead st1) <? length (ahead st)
              then star_loop body k n' st1 else None) with
      | Some x => Some x
      | None => k st
      end
  end.

Fixpoint run (r : regex) (st : cursor) (k : cursor -> option A) : option A :=
  match r with
  | Eps => k st
  | Chr p =>
      match ahead st with
      | c :: t => if p c then k (Cursor (c :: behind st) t) else None
      | [] => None
      end
  | Seq a b => run a st (fun st1 => run b st1 k)
  | Alt a b =>
      match run a st k with
      | Some x => Some x
      | None => run b st k
      end
  | Star a => star_loop (run a) k (S (length (ahead st))) st
  | NotBehind p => if holds_at p (behind st) then None else k st
  | NotAhead p => if holds_at p (ahead st) then None else k st
  | WordB =>
      if xorb (word_at (behind st)) (word_at (ahead st)) then k st else None
  | EndOfText => if at_end (ahead st) then k st else None
  end.
End Matcher.

(** [r+], [r?], [r{n}], at most [m] times [r], and [r{lo,hi}] *)
Definition Plus (r : regex) : regex := Seq r (Star r).
Definition Opt (r : regex) : regex := Alt r Eps.

Fixpoint Times (n : nat) (r : regex) : regex :=
  match n with
  | O => Eps
  | S n' => Seq r (Times n' r)
  end.

Fixpoint UpTo (m : nat) (r : regex) : regex :=
  match m with
  | O => Eps
  | S m' => Opt (Seq r (UpTo m' r))
  end.

Definition Rep (lo hi : nat) (r : regex) : regex :=
  Seq (Times lo r) (UpTo (hi - lo) r).

(** A literal, and a literal under [re.IGNORECASE]. *)
Definition Is (c : ascii) : regex := Chr (Ascii.eqb c).
Definition IsNoCase (c : ascii) : regex :=
  Chr (fun x => Ascii.eqb (upper_char x) (upper_char c)).

Definition OneOf (cs : str) : regex :=
  Chr (fun x => existsb (Ascii.eqb x) cs).

(** The match of [r] that starts at the cursor: the cursor after it. *)
Definition match_here (r : regex) (st : cursor) : option cursor :=
  run r st (fun st' => Some st').

(** [rx.search]: the leftmost position at or after the cursor where [r]
    matches; the cursor where the match starts and the one where it ends. *)
Fixpoint search_from (r : regex) (bh ah : str) : option (cursor * cursor) :=
  match match_here r (Cursor bh ah) with
  | Some e => Some (Cursor bh ah, e)
  | None =>
      match ah with
      | [] => None
      | c :: t => search_from r (c :: bh) t
      end
  end.

(** The text between two cursors of one string. *)
Definition between_cursors (s e : cursor) : str :=
  firstn (length (ahead s) - length (ahead e)) (ahead s).

(** The text skipped between the end of one match and the start of the
    next. *)
Definition gap (from s : cursor) : str := between_cursors from s.

(** [rx.finditer], as the list of the gaps and the matches in order, and the
    text after the last match.  The next search starts where the match
    ended.  No expression of this program matches the empty text: the scan
    ends at an empty match. *)
Fixpoint pieces_from (r : regex) (fuel : nat) (st : cursor)
  : list (str * str) * str :=
  match fuel with
  | O => ([], ahead st)
  | S fuel' =>
      match search_from r (behind st) (ahead st) with
      | None => ([], ahead st)
      | Some (s, e) =>
          match between_cursors s e with
          | [] => ([], ahead st)
          | m =>
              let '(ps, rest) := pieces_from r fuel' e in
              ((gap st s, m) :: ps, rest)
          end
      end
  end.

Definition pieces (r : regex) (s : str) : list (str * str) * str :=
  pieces_from r (S (length s)) (Cursor [] s).

(** [[m.group(0) for m in rx.finditer(s)]] *)
Definition findall (r : regex) (s : str) : list str :=
  map snd (fst (pieces r s)).

(** [rx.search(s)], the matched text *)
Definition search (r : regex) (s : str) : option str :=
  match search_from r [] s with
  | Some (b, e) => Some (between_cursors b e)
  | None => None
  end.

(** [re.sub(r, repl, s)] for a constant replacement *)
Definition sub (r : regex) (repl s : str) : str :=
  let '(ps, rest) := pieces r s in
  concat (map (fun gm => fst gm ++ repl) ps) ++ rest.

End Re.

Import Re.

(* ================================================================= *)
(** ** Decimal amounts *)

Module Dec.

Local Open Scope Z_scope.

(** The precision of the default context. *)
Definition prec : Z := 28.

(** How many digits a coefficient has beyond the precision. *)
Fixpoint excess (fuel : nat) (c : Z) : Z :=
  match fuel with
  | O => 0
  | S fuel' => if c <? 10 ^ prec then 0 else 1 + excess fuel' (c / 10)
  end.

(** Drop the last [k] digits of the coefficient [c], rounding half-even;
    the value that is left, in the unit of [c]. *)
Definition round_half_even (c k : Z) : Z :=
  let p := 10 ^ k in
  let q := c / p in
  let r := c mod p in
  if (p <? 2 * r) || ((2 * r =? p) && Z.odd q) then (q + 1) * p else q * p.

(** The rounding every arithmetic operation ends with. *)
Definition fix_ctx (z : Z) : Z :=
  let c := Z.abs z in
  if c <? 10 ^ prec then z
  else Z.sgn z * round_half_even c (excess (Z.to_nat (Z.log2 c)) c).

Definition sub (a b : Z) : Z := fix_ctx (a - b).
Definition add (a b : Z) : Z := fix_ctx (a + b).
Definition abs (a : Z) : Z := fix_ctx (Z.abs a).

Definition digit_val (c : ascii) : Z := Z.of_N (code c) - 48.

Fixpoint digits_val (acc : Z) (s : str) : Z :=
  match s with
  | [] => acc
  | c :: t => digits_val (10 * acc + digit_val c) t
  end.

(** [Decimal(s)] on the fixed-point numerals: blanks around, a sign or
    none, digits or none, a point and two digits.  The constructor accepts
    other forms (exponents, no fraction, infinities); they have no value in
    hundredths and are answered here with [InvalidOperation], the exception
    of a malformed numeral. *)
Definition of_str (s : str) : result Z :=
  let s := strip s in
  let '(sign, body) :=
    match s with
    | "-"%char :: t => (-1, t)
    | "+"%char :: t => (1, t)
    | _ => (1, s)
    end in
  match cut_first (lit ".") body with
  | Some (ip, [d1; d2]) =>
      if forallb is_digit ip && is_digit d1 && is_digit d2
      then Ok (sign * digits_val 0 (ip ++ [d1; d2]))
      else Raise InvalidOperation
  | _ => Raise InvalidOperation
  end.

End Dec.

(* ================================================================= *)
(** ** Parsing configuration *)

Definition digit : regex := Chr is_digit.
Definition letter : regex := Chr is_alpha.
Definition space : regex := Chr is_space.

(** [(?<!\d)(\d{1,3}(?:,\d{3})*|\d+)\.\d{2}(?!\d)] *)
Definition MONEY_RX : regex :=
  Seq (NotBehind is_digit)
 (Seq (Alt (Seq (Rep 1 3 digit) (Star (Seq (Is ",") (Times 3 digit))))
           (Plus digit))
 (Seq (Is ".")
 (Seq (Times 2 digit)
      (NotAhead is_digit)))).

(** [[-/\.]] *)
Definition date_sep : regex := OneOf (lit "-/.").

Definition DATE_RXES : list regex :=
  [ (* \b(\d{1,2}[-/\.]\d{1,2}[-/\.]\d{2,4})\b *)
    Seq WordB (Seq (Rep 1 2 digit) (Seq date_sep (Seq (Rep 1 2 digit)
      (Seq date_sep (Seq (Rep 2 4 digit) WordB)))));
    (* \b(\d{1,2}\s+[A-Za-z]{3,9}\s+\d{2,4})\b *)
    Seq WordB (Seq (Rep 1 2 digit) (Seq (Plus space) (Seq (Rep 3 9 letter)
      (Seq (Plus space) (Seq (Rep 2 4 digit) WordB)))));
    (* \b(\d{1,2}[-/\.][A-Za-z]{3}[-/\.]\d{2,4})\b *)
    Seq WordB (Seq (Rep 1 2 digit) (Seq date_sep (Seq (Times 3 letter)
      (Seq date_sep (Seq (Rep 2 4 digit) WordB))))) ].

Definition CREDIT_HINTS : list str :=
  map lit ["CR"; "CREDIT"; "DEPOSIT"; "UPI/CR"; "REFUND"; "REVERSAL"]%string.

Definition DEBIT_HINTS : list str :=
  map lit ["DR"; "DEBIT"; "WITHDRAWAL"; "W/D"; "ATM"; "POS"; "IRCTC";
           "CHARGES"]%string.

(** [(CR|DR)\s*$] under [re.IGNORECASE] *)
Definition TAG_RX : regex :=
  Seq (Alt (Seq (IsNoCase "C") (IsNoCase "R"))
           (Seq (IsNoCase "D") (IsNoCase "R")))
 (Seq (Star space) EndOfText).

(* ================================================================= *)
(** ** Utilities *)

Definition sp : str := lit " ".

Definition normspaces (s : str) : str :=
  strip (Re.sub (Plus space) sp s).

Fixpoint find_date_in (rxes : list regex) (s : str) : str :=
  match rxes with
  | [] => []
  | rx :: rest =>
      match Re.search rx s with
      | Some m => m
      | None => find_date_in rest s
      end
  end.

Definition find_date (s : str) : str := find_date_in DATE_RXES s.

Definition has_any (s : str) (words : list str) : bool :=
  let up := upper s in
  existsb (fun w => contains w up) words.

Record ParsedRow : Type := mkRow {
  Date : str;
  Particulars : str;
  Debit : Z;
  Credit : Z;
  Balance : Z;
  raw : str
}.

Definition set_Date (r : ParsedRow) (d : str) : ParsedRow :=
  mkRow d (Particulars r) (Debit r) (Credit r) (Balance r) (raw r).

Definition set_Particulars (r : ParsedRow) (p : str) : ParsedRow :=
  mkRow (Date r) p (Debit r) (Credit r) (Balance r) (raw r).

(* ================================================================= *)
(** ** LINE -> ROW parser *)

Section Parser.

(** The [Decimal] constructor. *)
Variable Decimal : str -> result Z.

(** The tolerance of the balance test, in hundredths ([Decimal("1.00")]). *)
Definition tolerance : Z := 100.

Definition clean_money (s : str) : result Z :=
  Decimal (strip (replace (lit ",") [] s)).

Local Open Scope Z_scope.

(** The branch without hints and with a previous balance that explains
    nothing: a minus sign in the three characters before the amount. *)
Definition sign_guess (line m2 : str) (amount : Z) : result (Z * Z) :=
  parts <- rsplit1 m2 line ;;
  p0 <- index parts 0 ;;
  let before := last_chars 3 p0 in
  if contains (lit "-") before then Ok (amount, 0)
  else Ok (0, amount).

(** The twelve characters before the amount and the twelve after it. *)
Definition context_of (line m2 : str) : result str :=
  parts <- rsplit1 m2 line ;;
  p0 <- index parts 0 ;;
  let before := upper (last_chars 12 p0) in
  parts' <- split1 m2 line ;;
  p1 <- index parts' 1 ;;
  let after := upper (first_chars 12 p1) in
  Ok (before ++ sp ++ after).

(** The branch of the first row: the hints around the amount. *)
Definition context_guess (line m2 : str) (amount : Z) : result (Z * Z) :=
  context <- context_of line m2 ;;
  if has_any context DEBIT_HINTS then Ok (amount, 0)
  else Ok (0, amount).

(** The [if]/[elif]/[else] that sets [debit] and [credit]; [m2] is
    [monies[-2]].  The result is the pair [(debit, credit)]. *)
Definition direction (line m2 : str) (amount balance : Z)
           (prev_balance : option Z) : result (Z * Z) :=
  if has_any line CREDIT_HINTS then Ok (0, amount)
  else if has_any line DEBIT_HINTS then Ok (amount, 0)
  else
    match prev_balance with
    | Some prev =>
        let diff := Dec.sub balance prev in
        if Dec.abs (Dec.sub diff amount) <=? tolerance then Ok (0, amount)
        else if Dec.abs (Dec.add diff amount) <=? tolerance
        then Ok (amount, 0)
        else sign_guess line m2 amount
    | None => context_guess line m2 amount
    end.

(** The text left of the two amounts, without a closing [CR]/[DR]. *)
Definition particulars_of (line m1 m2 : str) : result str :=
  let tail := line in
  parts <- rsplit1 m1 tail ;;
  tail <- index parts 0 ;;
  parts <- rsplit1 m2 tail ;;
  tail <- index parts 0 ;;
  let tail := Re.sub TAG_RX [] tail in
  Ok (normspaces tail).

Definition parse_line (line : str) (prev_balance : option Z)
  : result (option ParsedRow) :=
  let raw := line in
  let line := normspaces line in
  let monies := findall MONEY_RX line in
  if (length monies <? 2)%nat then Ok None
  else
    m1 <- index_back monies 1 ;;
    m2 <- index_back monies 2 ;;
    match (balance <- clean_money m1 ;;
           amount <- clean_money m2 ;;
           Ok (balance, amount)) with
    | Raise InvalidOperation => Ok None
    | Raise e => Raise e
    | Ok (balance, amount) =>
        dc <- direction line m2 amount balance prev_balance ;;
        particulars <- particulars_of line m1 m2 ;;
        let date := find_date line in
        Ok (Some (mkRow date particulars (fst dc) (snd dc) balance raw))
    end.

(* =============================================================== *)
(** ** MASTER parse workflow *)

(** The variables of the loop of [parse_lines_to_rows]. *)
Record assembler : Type := mkAsm {
  rows : list ParsedRow;
  prev_balance : option Z;
  pending_desc : list str;
  pending_date : str
}.

Definition start : assembler := mkAsm [] None [] [].

(** The characters of [strip(" -–—")]. *)
Definition is_dash_or_blank (c : ascii) : bool :=
  existsb (Ascii.eqb c) [" "; "-"; en_dash; em_dash]%char.

(** One turn of the loop. *)
Definition step_line (st : assembler) (ln : str) : result assembler :=
  let dt := find_date ln in
  match dt, Re.search MONEY_RX ln with
  | _ :: _, None =>
      let tail := strip_by is_dash_or_blank (normspaces (replace dt [] ln)) in
      Ok (mkAsm (rows st) (prev_balance st)
            (match tail with
             | [] => pending_desc st
             | _ => pending_desc st ++ [tail]
             end)
            dt)
  | _, _ =>
      parsed <- parse_line ln (prev_balance st) ;;
      match parsed with
      | Some parsed =>
          let parsed :=
            match Date parsed, pending_date st with
            | [], _ :: _ => set_Date parsed (pending_date st)
            | _, _ => parsed
            end in
          let '(parsed, desc) :=
            match pending_desc st with
            | [] => (parsed, pending_desc st)
            | _ =>
                (set_Particulars parsed
                   (normspaces (join sp (pending_desc st) ++ sp ++
                                Particulars parsed)),
                 [])
            end in
          Ok (mkAsm (rows st ++ [parsed]) (Some (Balance parsed)) desc
                (pending_date st))
      | None =>
          if existsb is_alpha ln
          then Ok (mkAsm (rows st) (prev_balance st)
                     (pending_desc st ++ [ln]) (pending_date st))
          else Ok st
      end
  end.

Fixpoint run_lines (st : assembler) (lines : list str) : result assembler :=
  match lines with
  | [] => Ok st
  | ln :: rest => st' <- step_line st ln ;; run_lines st' rest
  end.

(** [Series.replace("", pd.NA)] *)
Definition replace_empty_na (col : list str) : list (option str) :=
  map (fun v => match v with [] => None | _ => Some v end) col.

(** [Series.ffill()]; [last] is the last value seen. *)
Fixpoint ffill_from (last : option str) (col : list (option str))
  : list (option str) :=
  match col with
  | [] => []
  | Some v :: rest => Some v :: ffill_from (Some v) rest
  | None :: rest => last :: ffill_from last rest
  end.

Definition ffill (col : list (option str)) : list (option str) :=
  ffill_from None col.

(** [Series.fillna(v)] *)
Definition fillna (v : str) (col : list (option str)) : list str :=
  map (fun x => match x with Some y => y | None => v end) col.

(** The fill pass on the [Date] column. *)
Definition fill_dates (col : list str) : list str :=
  fillna [] (ffill (replace_empty_na col)).

(** [df["Date"] = col] *)
Fixpoint assign_dates (rs : list ParsedRow) (col : list str)
  : list ParsedRow :=
  match rs, col with
  | r :: rs', v :: col' => set_Date r v :: assign_dates rs' col'
  | _, _ => []
  end.

(** The rows of the frame that [parse_lines_to_rows] returns.  The amounts
    stay exact: their conversion to [float] is not part of the model. *)
Definition parse_lines_to_rows (lines : list str) : result (list ParsedRow) :=
  st <- run_lines start lines ;;
  match rows st with
  | [] => Ok []
  | rs => Ok (assign_dates rs (fill_dates (map Date rs)))
  end.

End Parser.

(* ================================================================= *)
(** ** OCR mode: words into lines *)

Module Ocr.

Local Open Scope Q_scope.

(** A point of a box, [[x, y]]. *)
Definition point : Type := (Q * Q)%type.

(** One entry of [reader.readtext]: the four corners and the text (the
    confidence is not used). *)
Record detection : Type := mkDet {
  box : point * point * point * point;
  det_text : str
}.

(** [(y_center, x_left, text)] *)
Definition word : Type := (Q * Q * str)%type.

Definition y_center (w : word) : Q := fst (fst w).
Definition x_left (w : word) : Q := snd (fst w).
Definition text (w : word) : str := snd w.

Definition Qmin4 (a b c e : Q) : Q := Qmin (Qmin a b) (Qmin c e).

Definition word_of (dt : detection) : word :=
  let '(p1, p2, p3, p4) := box dt in
  ((snd p1 + snd p2 + snd p3 + snd p4) / 4,
   Qmin4 (fst p1) (fst p2) (fst p3) (fst p4),
   det_text dt).

(** [list.sort(key=...)]: a stable sort; [le] is the order of the keys. *)
Section Sort.
Variables (A K : Type) (le : K -> K -> bool) (key : A -> K).

Fixpoint insert (a : A) (l : list A) : list A :=
  match l with
  | [] => [a]
  | b :: t => if le (key a) (key b) then a :: l else b :: insert a t
  end.

Definition sort (l : list A) : list A := fold_right insert [] l.
End Sort.

(** The order of the tuples [(y, x)]. *)
Definition pair_le (a b : Q * Q) : bool :=
  if Qeq_bool (fst a) (fst b) then Qle_bool (snd a) (snd b)
  else Qle_bool (fst a) (fst b).

Definition close (thr y current_y : Q) : bool :=
  Qle_bool (Qabs (y - current_y)) thr.

(** A finished line: its words from left to right, joined. *)
Definition flush (current_line : list word) : str :=
  normspaces (join sp (map text (sort Qle_bool x_left current_line))).

Section Cluster.
Variable y_threshold : Q.

(** The [for] loop; the result is [(current_line, lines)]. *)
Fixpoint cluster_loop (words : list word) (current_y : Q)
         (current_line : list word) (lines : list str)
  : list word * list str :=
  match words with
  | [] => (current_line, lines)
  | w :: rest =>
      if close y_threshold (y_center w) current_y
      then cluster_loop rest current_y (current_line ++ [w]) lines
      else cluster_loop rest (y_center w) [w] (lines ++ [flush current_line])
  end.

Definition cluster (words : list word) : list str :=
  let words := sort pair_le fst words in
  match words with
  | [] => []
  | w0 :: _ =>
      let '(current_line, lines) := cluster_loop words (y_center w0) [] [] in
      match current_line with
      | [] => lines
      | _ => lines ++ [flush current_line]
      end
  end.
End Cluster.

Definition easyocr_lines (results : list detection) : list str :=
  cluster 10 (map word_of results).

End Ocr.

(* ================================================================= *)
(** ** TEXT MODE, OCR MODE and the two in turn *)

Module Pdf.

(** The line boundaries of [str.splitlines]: line feed, vertical tab, form
    feed, carriage return and the separators 28..30. *)
Definition is_linebreak (c : ascii) : bool :=
  between 10 13 c || between 28 30 c.

(** [s.splitlines()]; [cur] is the line being read, last character first.
    A carriage return and the line feed after it are one boundary. *)
Fixpoint splitlines_from (cur s : str) : list str :=
  match s with
  | [] => match cur with
          | [] => []
          | _ => [rev cur]
          end
  | c :: t =>
      if is_linebreak c
      then rev cur ::
           match t with
           | d :: t' =>
               if (code c =? 13)%N && (code d =? 10)%N
               then splitlines_from [] t'
               else splitlines_from [] t
           | [] => splitlines_from [] t
           end
      else splitlines_from (c :: cur) t
  end.

Definition splitlines (s : str) : list str := splitlines_from [] s.

(** [extract_text_lines_from_pdf], from the text of each page. *)
Definition extract_text_lines_from_pdf (pages : list str) : list str :=
  flat_map
    (fun t =>
       filter (fun ln => match ln with [] => false | _ => true end)
              (map normspaces (splitlines t)))
    pages.



End Pdf.

(* ================================================================= *)
(** ** The vocabulary of the properties *)

(** The texts an expression can match, assertions apart. *)
Fixpoint lang (r : regex) (w : str) : Prop :=
  match r with
  | Chr p => exists c, w = [c] /\ p c = true
  | Seq a b => exists u v, w = u ++ v /\ lang a u /\ lang b v
  | Alt a b => lang a w \/ lang b w
  | Star a => exists ws, w = concat ws /\ Forall (lang a) ws
  | Eps | NotBehind _ | NotAhead _ | WordB | EndOfText => w = []
  end.

(** [w] occurs in [s]. *)
Definition occurs (w s : str) : Prop :=
  exists a b, s = a ++ w ++ b.

(** [w] occurs in [s], the case of the letters apart. *)
Definition occurs_nocase (w s : str) : Prop :=
  exists a m b, s = a ++ m ++ b /\ upper m = upper w.

(** A hint of the list occurs in the line. *)
Definition hinted (words : list str) (line : str) : Prop :=
  exists w, In w words /\ occurs_nocase w line.

(** The money matches of a normalized line, in order. *)
Definition monies_of (line : str) : list str := findall MONEY_RX line.

(** The text of the movement amount of a line: its last match but one. *)
Definition amount_text (line : str) : option str :=
  match rev (monies_of (normspaces line)) with
  | _ :: m2 :: _ => Some m2
  | _ => None
  end.

(** The text of the balance of a line: its last match. *)
Definition balance_text (line : str) : option str :=
  match rev (monies_of (normspaces line)) with
  | m1 :: _ :: _ => Some m1
  | _ => None
  end.

(** The records of the engine: the results of [parse_line] and the rows of
    the assembled output. *)
Inductive emitted : ParsedRow -> Prop :=
| emitted_by_parse_line (line : str) (prev : option Z) (r : ParsedRow) :
    parse_line Dec.of_str line prev = Ok (Some r) -> emitted r
| emitted_by_assembler (lines : list str) (out : list ParsedRow)
                       (r : ParsedRow) :
    parse_lines_to_rows Dec.of_str lines = Ok out -> In r out -> emitted r.

(** A line that only sets the pending date. *)
Definition date_only (ln : str) : bool :=
  match find_date ln, Re.search MONEY_RX ln with
  | _ :: _, None => true
  | _, _ => false
  end.

(** Debit and credit of a row. *)
Definition movement (r : ParsedRow) : Z * Z := (Debit r, Credit r).

Definition exactly_one_nonzero (r : ParsedRow) : Prop :=
  (Debit r <> 0 /\ Credit r = 0)%Z \/ (Debit r = 0 /\ Credit r <> 0)%Z.

(** The balance test as the specification words it, for a tolerance in
    hundredths and exact arithmetic: credit, debit, or the fallback. *)
Definition balance_delta_rule (tol prev balance amount : Z)
           (fallback : Z * Z) : Z * Z :=
  let diff := (balance - prev)%Z in
  if (Z.abs (diff - amount) <=? tol)%Z then (0, amount)%Z
  else if (Z.abs (diff + amount) <=? tol)%Z then (amount, 0)%Z
  else fallback.

(** The sign fallback: debit when a minus sign stands in the three
    characters before the last occurrence of the amount text. *)
Definition minus_before (line m2 : str) : bool :=
  match cut_last m2 line with
  | Some (a, _) => contains (lit "-") (last_chars 3 a)
  | None => contains (lit "-") (last_chars 3 line)
  end.

(** The amounts the default context computes with exactly. *)
Definition exact_range (z : Z) : Prop := (Z.abs z < 10 ^ 26)%Z.

(** The date a row shows after the fill pass: the last non-empty date
    among the rows up to it. *)
Fixpoint nearest_date (col : list str) (i : nat) : str :=
  match nth i col [] with
  | [] => match i with
          | O => []
          | S j => nearest_date col j
          end
  | v => v
  end.

(** [v] is the date of row [i] after the fill pass as the specification
    words it: the date of the nearest row at or before [i] that has one,
    and the empty date when no row up to [i] has one. *)
Definition nearest_filled (col : list str) (i : nat) (v : str) : Prop :=
  (exists j, j <= i /\ nth j col [] <> [] /\
             (forall k, j < k <= i -> nth k col [] = []) /\
             v = nth j col [])
  \/ ((forall k, k <= i -> nth k col [] = []) /\ v = []).

(** The lines of the clusterer as groups of words: every word of a group is
    within the threshold of the first one, the anchor, and the anchor of the
    next group is not within the threshold of this one. *)
Fixpoint grouped (thr : Q) (groups : list (list Ocr.word)) : Prop :=
  match groups with
  | [] => True
  | g :: rest =>
      match g with
      | [] => False
      | a :: _ =>
          Forall (fun w => Ocr.close thr (Ocr.y_center w) (Ocr.y_center a)
                           = true) g /\
          match rest with
          | (b :: _) :: _ =>
              Ocr.close thr (Ocr.y_center b) (Ocr.y_center a) = false
          | _ => True
          end /\
          grouped thr rest
      end
  end.

(** The amounts of a result of [parse_line]: debit, credit, balance. *)
Definition amounts_of (r : result (option ParsedRow)) : option (Z * Z * Z) :=
  match r with
  | Ok (Some row) => Some (Debit row, Credit row, Balance row)
  | _ => None
  end.

(** ** The vocabulary of the proofs *)

(** The cursor [st'] is [st] moved over the text [w]. *)
Definition moved (st st' : cursor) (w : str) : Prop :=
  ahead st = w ++ ahead st' /\ behind st' = rev w ++ behind st.

(** A regular expression all of whose characters are in the class [q]. *)
Fixpoint chars_within (q : ascii -> Prop) (r : regex) : Prop :=
  match r with
  | Chr p => forall c, p c = true -> q c
  | Seq a b | Alt a b => chars_within q a /\ chars_within q b
  | Star a => chars_within q a
  | Eps | NotBehind _ | NotAhead _ | WordB | EndOfText => True
  end.

(** The shape of a money match: an integer part of digits and commas that
    starts with a digit, a point, two digits. *)
Definition money_text (w : str) : Prop :=
  exists c ip d1 d2,
    w = (c :: ip) ++ "."%char :: [d1; d2] /\
    is_digit c = true /\
    Forall (fun x => is_digit x = true \/ x = ","%char) ip /\
    is_digit d1 = true /\ is_digit d2 = true.

(** A text without blanks that is not empty. *)
Definition solid (w : str) : Prop :=
  w <> [] /\ Forall (fun c => is_space c = false) w.

(** What a row of the output keeps of the result of [parse_line]. *)
Definition parsed_from (D : str -> result Z) (ln : str) (prev : option Z)
           (r : ParsedRow) : Prop :=
  exists r0,
    parse_line D ln prev = Ok (Some r0) /\
    Debit r = Debit r0 /\ Credit r = Credit r0 /\ Balance r = Balance r0 /\
    raw r = raw r0.

(** The date before the rows counts as the last one seen. *)
Fixpoint nearest_from (d : str) (col : list str) (i : nat) : str :=
  match nth i col [] with
  | [] => match i with
          | O => d
          | S j => nearest_from d col j
          end
  | v => v
  end.

(** The order of a sort by key. *)
Definition key_le (A K : Type) (le : K -> K -> bool) (key : A -> K)
           (a b : A) : Prop :=
  le (key a) (key b) = true.

(** The groups of the loop: [cur] is the open group, [anchor] its first
    [y_center]. *)
Fixpoint split_groups (thr anchor : Q) (cur ws : list Ocr.word)
  : list (list Ocr.word) :=
  match ws with
  | [] => [cur]
  | w :: rest =>
      if Ocr.close thr (Ocr.y_center w) anchor
      then split_groups thr anchor (cur ++ [w]) rest
      else cur :: split_groups thr (Ocr.y_center w) [w] rest
  end.

(** ** The vocabulary of the further properties *)

(** The cursor after the characters of the class [p] that come next. *)
Fixpoint skip_class (p : ascii -> bool) (bh ah : str) : cursor :=
  match ah with
  | c :: t => if p c then skip_class p (c :: bh) t else Cursor bh ah
  | [] => Cursor bh ah
  end.

(** Every run of blanks made one space; [in_run] says that the character
    before was a blank. *)
Fixpoint squeeze_from (in_run : bool) (s : str) : str :=
  match s with
  | [] => []
  | c :: t =>
      if is_space c
      then if in_run then squeeze_from true t
           else " "%char :: squeeze_from true t
      else c :: squeeze_from false t
  end.

(** [s.split()]: the words of a text, the runs of characters that are not
    blanks. *)
Fixpoint words (s : str) : list str :=
  match s with
  | [] => []
  | c :: t =>
      if is_space c then words t
      else match t with
           | [] => [[c]]
           | d :: _ =>
               if is_space d then [c] :: words t
               else match words t with
                    | w :: ws => (c :: w) :: ws
                    | [] => [[c]]
                    end
           end
  end.

Definition starts_blank (s : str) : bool :=
  match s with
  | c :: _ => is_space c
  | [] => false
  end.

Fixpoint ends_blank (s : str) : bool :=
  match s with
  | [] => false
  | [c] => is_space c
  | _ :: t => ends_blank t
  end.

(** What [parse_line] returns, the text of the line apart: date,
    particulars, debit, credit and balance. *)
Definition fields_of (r : result (option ParsedRow))
  : result (option (str * str * Z * Z * Z)) :=
  match r with
  | Ok (Some row) =>
      Ok (Some (Date row, Particulars row, Debit row, Credit row,
                Balance row))
  | Ok None => Ok None
  | Raise e => Raise e
  end.

(** No character of the text ends a line. *)
Definition one_line (s : str) : Prop :=
  Forall (fun c => Pdf.is_linebreak c = false) s.



(** A chain of steps of the relation [R] from [st] to [st'] through the
    cursors of [path]. *)
Fixpoint chain (R : cursor -> cursor -> Prop) (st : cursor)
         (path : list cursor) (st' : cursor) : Prop :=
  match path with
  | [] => st' = st
  | m :: rest => R st m /\ chain R m rest st'
  end.

(** The expression [r] takes the cursor [st] to the cursor [st'], its
    assertions holding where they stand. *)
Fixpoint leads (r : regex) (st st' : cursor) : Prop :=
  match r with
  | Eps => st' = st
  | Chr p =>
      exists c t,
        ahead st = c :: t /\ p c = true /\ st' = Cursor (c :: behind st) t
  | Seq a b => exists m, leads a st m /\ leads b m st'
  | Alt a b => leads a st st' \/ leads b st st'
  | Star a => exists path, chain (leads a) st path st'
  | NotBehind p => st' = st /\ holds_at p (behind st) = false
  | NotAhead p => st' = st /\ holds_at p (ahead st) = false
  | WordB =>
      st' = st /\ xorb (word_at (behind st)) (word_at (ahead st)) = true
  | EndOfText => st' = st /\ at_end (ahead st) = true
  end.

(** The cursor stands in the text [s]. *)
Definition stands_in (s : str) (st : cursor) : Prop :=
  rev (behind st) ++ ahead st = s.

(** [m] is a match of [r] in [s]: the text before it and the text after
    it, the assertions of [r] holding there. *)
Definition match_in (r : regex) (s m : str) : Prop :=
  exists a b,
    s = a ++ m ++ b /\
    leads r (Cursor (rev a) (m ++ b)) (Cursor (rev m ++ rev a) b).


(** A fragment of a description: neither a date-only line nor a
    transaction line, and a letter in it. *)
Definition fragment_line (ln : str) : bool :=
  negb (date_only ln) && (length (monies_of (normspaces ln)) <? 2)%nat &&
  existsb is_alpha ln.

(** A line the loop passes over: as a fragment, without a letter. *)
Definition noise_line (ln : str) : bool :=
  negb (date_only ln) && (length (monies_of (normspaces ln)) <? 2)%nat &&
  negb (existsb is_alpha ln).

(** The balance after the rows [rs], [prev] before them. *)
Definition last_balance (prev : option Z) (rs : list ParsedRow)
  : option Z :=
  fold_left (fun _ r => Some (Balance r)) rs prev.

(** Every row is [parse_line] on its own line, read against the balance of
    the row before it; [prev] stands before the first row. *)
Fixpoint chained (D : str -> result Z) (prev : option Z)
         (rs : list ParsedRow) : Prop :=
  match rs with
  | [] => True
  | r :: rest =>
      parsed_from D (raw r) prev r /\ chained D (Some (Balance r)) rest
  end.

(* ================================================================= *)
(** * Properties *)

(** ** Strings *)

Section StringFacts.

Lemma starts_with_app (w t : str) : starts_with w (w ++ t) = true.
Proof.
  induction w as [|a w IH]; simpl; [reflexivity|].
  now rewrite Ascii.eqb_refl.
Qed.

Lemma starts_with_inv (w s : str) :
  starts_with w s = true -> exists t, s = w ++ t.
Proof.
  revert s; induction w as [|a w IH]; intros s H.
  - now exists s.
  - destruct s as [|b s]; simpl in H; [discriminate|].
    apply andb_true_iff in H as [Hab Hw].
    apply Ascii.eqb_eq in Hab; subst b.
    destruct (IH _ Hw) as [t ->]. now exists t.
Qed.

Lemma skipn_length_app (w t : str) : skipn (length w) (w ++ t) = t.
Proof. induction w; simpl; auto. Qed.

Lemma contains_occurs (w s : str) : contains w s = true <-> occurs w s.
Proof.
  split.
  - induction s as [|c s IH]; simpl; intros H.
    + rewrite orb_false_r in H. apply starts_with_inv in H as [t Ht].
      exists [], t. exact Ht.
    + apply orb_true_iff in H as [H|H].
      * apply starts_with_inv in H as [t Ht]. exists [], t. exact Ht.
      * destruct (IH H) as (a & b & ->). now exists (c :: a), b.
  - intros (a & b & ->). induction a as [|c a IH]; simpl.
    + assert (E : forall t, contains w t =
                  starts_with w t || match t with [] => false
                                     | _ :: u => contains w u end)
        by (now intros [|? ?]).
      now rewrite E, starts_with_app.
    + rewrite IH. apply orb_true_r.
Qed.

Lemma cut_first_sound (sep s a b : str) :
  cut_first sep s = Some (a, b) -> s = a ++ sep ++ b.
Proof.
  revert a b; induction s as [|c s IH]; intros a b; simpl.
  - destruct (starts_with sep []) eqn:E; [|discriminate].
    intros [= <- <-]. apply starts_with_inv in E as [t Ht].
    rewrite Ht at 1. simpl. now rewrite Ht, skipn_length_app.
  - destruct (starts_with sep (c :: s)) eqn:E.
    + intros [= <- <-]. apply starts_with_inv in E as [t Ht].
      rewrite Ht. simpl. now rewrite skipn_length_app.
    + destruct (cut_first sep s) as [[a' b']|] eqn:E'; [|discriminate].
      intros [= <- <-]. simpl. f_equal. now apply IH.
Qed.

Lemma cut_first_complete (sep s : str) :
  occurs sep s -> exists a b, cut_first sep s = Some (a, b).
Proof.
  intros (a & b & ->). induction a as [|c a IH].
  - assert (E : forall t, starts_with sep t = true ->
                cut_first sep t = Some ([], skipn (length sep) t))
      by (intros [|? ?] Ht; simpl; now rewrite Ht).
    simpl. rewrite E by apply starts_with_app. eauto.
  - simpl. destruct (starts_with sep (c :: a ++ sep ++ b)); [eauto|].
    destruct IH as (a' & b' & ->). eauto.
Qed.

Lemma cut_last_sound (sep s a b : str) :
  cut_last sep s = Some (a, b) -> s = a ++ sep ++ b.
Proof.
  revert a b; induction s as [|c s IH]; intros a b; simpl.
  - destruct sep; simpl; [|discriminate]. now intros [= <- <-].
  - destruct (cut_last sep s) as [[a' b']|] eqn:E'.
    + intros [= <- <-]. simpl. f_equal. now apply IH.
    + destruct (starts_with sep (c :: s)) eqn:E; [|discriminate].
      intros [= <- <-]. apply starts_with_inv in E as [t Ht].
      rewrite Ht. simpl. now rewrite skipn_length_app.
Qed.

Lemma occurs_trans (a b c : str) : occurs a b -> occurs b c -> occurs a c.
Proof.
  intros (x & y & ->) (u & v & ->).
  exists (u ++ x), (y ++ v). now rewrite <- !app_assoc.
Qed.

Lemma occurs_skipn (n : nat) (s : str) : occurs (skipn n s) s.
Proof.
  exists (firstn n s), []. now rewrite app_nil_r, firstn_skipn.
Qed.

Lemma occurs_firstn (n : nat) (s : str) : occurs (firstn n s) s.
Proof. exists [], (skipn n s). simpl. now rewrite firstn_skipn. Qed.

Lemma occurs_upper (w s : str) : occurs w s -> occurs (upper w) (upper s).
Proof.
  intros (a & b & ->). exists (upper a), (upper b).
  unfold upper. now rewrite !map_app.
Qed.

End StringFacts.

(** ** The matcher finds texts of the expression, inside the line *)

Section MatcherFacts.


Lemma moved_nil (st : cursor) : moved st st [].
Proof. now split. Qed.

Lemma moved_app (st st1 st2 : cursor) (u v : str) :
  moved st st1 u -> moved st1 st2 v -> moved st st2 (u ++ v).
Proof.
  intros [H1 H2] [H3 H4]. split.
  - now rewrite H1, H3, app_assoc.
  - now rewrite H4, H2, rev_app_distr, app_assoc.
Qed.

(** An assertion, or a branch that reads nothing: the cursor stays. *)
Ltac stay st :=
  exists st, (@nil ascii);
  split; [apply moved_nil | split; [simpl; eauto | assumption]].

Lemma run_sound (A : Type) (r : regex) :
  forall (st : cursor) (k : cursor -> option A) (x : A),
    run r st k = Some x ->
    exists st' w, moved st st' w /\ lang r w /\ k st' = Some x.
Proof.
  induction r as [|p|a IHa b IHb|a IHa b IHb|a IHa|p|p| |]; intros st k x H.
  - stay st.
  - simpl in H. destruct st as [bh [|c t]]; simpl in H; [discriminate|].
    destruct (p c) eqn:Hp; [|discriminate].
    exists (Cursor (c :: bh) t), [c]. split; [now split|].
    split; [simpl; eauto|assumption].
  - simpl in H. apply IHa in H as (st1 & u & Hm1 & Hu & H).
    apply IHb in H as (st2 & v & Hm2 & Hv & H).
    exists st2, (u ++ v). split; [eapply moved_app; eauto|].
    split; [simpl; eauto|assumption].
  - simpl in H. destruct (run a st k) eqn:E.
    + injection H as ->. apply IHa in E as (st' & w & ? & ? & ?).
      exists st', w. simpl; auto.
    + apply IHb in H as (st' & w & ? & ? & ?). exists st', w. simpl; auto.
  - cbn [run] in H. remember (S (length (ahead st))) as n eqn:En. clear En.
    revert st H. induction n as [|n IHn]; intros st H.
    + exists st, []. split; [apply moved_nil|].
      split; [now exists []|assumption].
    + cbn [star_loop] in H.
      match type of H with
      | match ?m with _ => _ end = _ => destruct m as [y|] eqn:E
      end.
      * injection H as ->. apply IHa in E as (st1 & u & Hm1 & Hu & E).
        destruct (length (ahead st1) <? length (ahead st)); [|discriminate].
        apply IHn in E as (st2 & v & Hm2 & (ws & -> & Hws) & E).
        exists st2, (u ++ concat ws). split; [eapply moved_app; eauto|].
        split; [|assumption]. exists (u :: ws). split; [reflexivity|].
        now constructor.
      * exists st, []. split; [apply moved_nil|].
        split; [now exists []|assumption].
  - simpl in H. destruct (holds_at p (behind st)); [discriminate|]. stay st.
  - simpl in H. destruct (holds_at p (ahead st)); [discriminate|]. stay st.
  - simpl in H. destruct (xorb _ _); [|discriminate]. stay st.
  - simpl in H. destruct (at_end _); [|discriminate]. stay st.
Qed.

Lemma match_here_sound (r : regex) (st e : cursor) :
  match_here r st = Some e -> exists w, moved st e w /\ lang r w.
Proof.
  intros H. apply run_sound in H as (st' & w & Hm & Hw & [= ->]). eauto.
Qed.

Lemma between_cursors_app (s e : cursor) (w : str) :
  ahead s = w ++ ahead e -> between_cursors s e = w.
Proof.
  intros H. unfold between_cursors. rewrite H, length_app.
  replace (length w + length (ahead e) - length (ahead e)) with (length w)
    by lia.
  rewrite firstn_app, Nat.sub_diag, firstn_all. simpl. apply app_nil_r.
Qed.

Lemma search_from_sound (r : regex) (ah : str) :
  forall (bh : str) (s e : cursor),
    search_from r bh ah = Some (s, e) ->
    exists g w, ah = g ++ ahead s /\ ahead s = w ++ ahead e /\ lang r w.
Proof.
  induction ah as [|c t IH]; intros bh s e H; simpl in H.
  - destruct (match_here r (Cursor bh [])) as [e'|] eqn:E; [|discriminate].
    injection H as <- <-. apply match_here_sound in E as (w & [Hm _] & Hw).
    exists [], w. auto.
  - destruct (match_here r (Cursor bh (c :: t))) as [e'|] eqn:E.
    + injection H as <- <-. apply match_here_sound in E as (w & [Hm _] & Hw).
      exists [], w. auto.
    + apply IH in H as (g & w & Ht & Hs & Hl).
      exists (c :: g), w. repeat split; auto. simpl. now f_equal.
Qed.

(** The text is the gaps and the matches in order, then the rest; every
    match is a non-empty text of the expression. *)
Lemma pieces_from_sound (r : regex) (fuel : nat) :
  forall (st : cursor) (ps : list (str * str)) (rest : str),
    pieces_from r fuel st = (ps, rest) ->
    ahead st = concat (map (fun gm => fst gm ++ snd gm) ps) ++ rest /\
    Forall (fun gm => lang r (snd gm) /\ snd gm <> []) ps.
Proof.
  induction fuel as [|fuel IH]; intros st ps rest H; simpl in H.
  - injection H as <- <-. auto.
  - destruct (search_from r (behind st) (ahead st)) as [[s e]|] eqn:E.
    2:{ injection H as <- <-. auto. }
    apply search_from_sound in E as (g & w & Hg & Hw & Hl).
    rewrite (@between_cursors_app _ _ _ Hw) in H.
    destruct w as [|c w]; [injection H as <- <-; auto|].
    destruct (pieces_from r fuel e) as [ps' rest'] eqn:E'.
    injection H as <- <-. apply IH in E' as [He Hf]. split.
    + unfold gap. rewrite (@between_cursors_app st s g Hg).
      simpl fst; simpl snd.
      cbn [map concat]. rewrite Hg, Hw, He. now rewrite <- !app_assoc.
    + constructor; [|assumption]. simpl. split; [assumption|discriminate].
Qed.

Lemma in_pieces_occurs (ps : list (str * str)) (rest g m : str) :
  In (g, m) ps ->
  occurs m (concat (map (fun gm => fst gm ++ snd gm) ps) ++ rest).
Proof.
  induction ps as [|[g' m'] ps IH]; intros Hin; [contradiction|].
  destruct Hin as [[= -> ->]|Hin].
  - exists g, (concat (map (fun gm => fst gm ++ snd gm) ps) ++ rest).
    simpl. now rewrite <- !app_assoc.
  - destruct (IH Hin) as (a & b & Hab).
    exists (g' ++ m' ++ a), b. cbn [map concat fst snd].
    rewrite <- !app_assoc. now rewrite Hab.
Qed.

Lemma findall_sound (r : regex) (s m : str) :
  In m (findall r s) -> lang r m /\ m <> [] /\ occurs m s.
Proof.
  unfold findall, pieces. intros Hin.
  destruct (pieces_from r (S (length s)) (Cursor [] s)) as [ps rest] eqn:E.
  apply pieces_from_sound in E as [Hs Hf]. simpl in Hs, Hin.
  apply in_map_iff in Hin as ([g m'] & <- & Hin). simpl.
  rewrite Forall_forall in Hf. destruct (Hf _ Hin) as [Hl Hn].
  repeat split; auto. rewrite Hs. eapply in_pieces_occurs; eauto.
Qed.

End MatcherFacts.

(** ** The money grammar and the [Decimal] constructor *)

Section MoneyFacts.

Local Open Scope Z_scope.

Ltac by_cases c :=
  destruct c as [[] [] [] [] [] [] [] []]; try discriminate; try reflexivity.

Lemma digit_not_space (c : ascii) : is_digit c = true -> is_space c = false.
Proof. by_cases c. Qed.

Lemma digit_not_comma (c : ascii) :
  is_digit c = true -> Ascii.eqb ","%char c = false.
Proof. by_cases c. Qed.

Lemma digit_not_point (c : ascii) :
  is_digit c = true -> Ascii.eqb "."%char c = false.
Proof. by_cases c. Qed.

Lemma digit_val_nonneg (c : ascii) : is_digit c = true -> 0 <= Dec.digit_val c.
Proof. by_cases c; intros _; vm_compute; discriminate. Qed.


Lemma lang_chars_within (q : ascii -> Prop) (r : regex) :
  chars_within q r -> forall w, lang r w -> Forall q w.
Proof.
  induction r as [|p|a IHa b IHb|a IHa b IHb|a IHa|p|p| |]; simpl;
    intros Hq w Hw; subst; auto.
  - destruct Hw as (c & -> & Hc). auto.
  - destruct Hw as (u & v & -> & Hu & Hv), Hq. apply Forall_app. auto.
  - destruct Hq, Hw; auto.
  - destruct Hw as (ws & -> & Hws). induction Hws; simpl; [constructor|].
    apply Forall_app. auto.
Qed.


Lemma lang_money_text (w : str) : lang MONEY_RX w -> money_text w.
Proof.
  intros (u0 & w1 & -> & -> & ip & w2 & -> & Hip & pt & w3 & -> & Hpt
          & dd & w4 & -> & Hdd & ->).
  destruct Hpt as (p & -> & Hp). apply Ascii.eqb_eq in Hp. subst p.
  destruct Hdd as (x1 & r1 & -> & (d1 & -> & Hd1) & x2 & r2 & ->
                   & (d2 & -> & Hd2) & ->).
  assert (Hall : Forall (fun x => is_digit x = true \/ x = ","%char) ip).
  { destruct Hip as [Hip|Hip];
      (eapply lang_chars_within; [|exact Hip]);
      cbn [chars_within Rep Times UpTo Opt Plus Is digit Nat.sub];
      repeat split; try exact I; intros x Hx;
        first [ left; exact Hx
              | right; apply Ascii.eqb_eq in Hx; now subst ]. }
  assert (Hhd : exists c t, ip = c :: t /\ is_digit c = true).
  { destruct Hip as [Hip|Hip].
    - destruct Hip as (a & b & -> & (a1 & a2 & -> & Ha1 & _) & _).
      destruct Ha1 as (y & z & -> & (c & -> & Hc) & ->).
      simpl. eauto.
    - destruct Hip as (a & b & -> & (c & -> & Hc) & _). simpl. eauto. }
  destruct Hhd as (c & t & -> & Hc).
  exists c, t, d1, d2. simpl. rewrite ?app_nil_r.
  inversion Hall; subst. auto.
Qed.

Lemma replace_char_filter (c : ascii) (s : str) :
  replace [c] [] s = filter (fun x => negb (Ascii.eqb c x)) s.
Proof.
  unfold replace. induction s as [|x s IH]; [reflexivity|].
  cbn [replace_from starts_with filter length].
  destruct (Ascii.eqb c x); simpl; rewrite ?andb_true_r; simpl;
    now rewrite IH.
Qed.

Lemma strip_by_keep (p : ascii -> bool) (c z : ascii) (s : str) :
  p c = false -> p z = false -> strip_by p (c :: s ++ [z]) = c :: s ++ [z].
Proof.
  intros Hc Hz. unfold strip_by, rstrip_by.
  assert (L1 : lstrip_by p (c :: s ++ [z]) = c :: s ++ [z])
    by (simpl; now rewrite Hc).
  assert (R : rev (c :: s ++ [z]) = z :: rev (c :: s))
    by (change (c :: s ++ [z]) with ((c :: s) ++ [z]);
        now rewrite rev_app_distr).
  assert (L2 : lstrip_by p (z :: rev (c :: s)) = z :: rev (c :: s))
    by (cbn [lstrip_by]; now rewrite Hz).
  rewrite L1, R, L2.
  change (rev (z :: rev (c :: s))) with (rev (rev (c :: s)) ++ [z]).
  now rewrite rev_involutive.
Qed.

Lemma cut_first_char (c : ascii) (a b : str) :
  Forall (fun x => Ascii.eqb c x = false) a ->
  cut_first [c] (a ++ c :: b) = Some (a, b).
Proof.
  induction 1 as [|x a Hx Ha IH]; simpl.
  - now rewrite Ascii.eqb_refl.
  - rewrite Hx. simpl. now rewrite IH.
Qed.

Lemma digits_val_nonneg (s : str) :
  Forall (fun x => is_digit x = true) s ->
  forall acc, 0 <= acc -> 0 <= Dec.digits_val acc s.
Proof.
  induction 1 as [|x s Hx Hs IH]; intros acc Hacc; cbn [Dec.digits_val];
    [assumption|].
  apply IH. pose proof (@digit_val_nonneg x Hx). lia.
Qed.

(** The constructor on a numeral of digits, a point and two digits. *)
Lemma of_str_fixed_point (c d1 d2 : ascii) (ip : str) :
  is_digit c = true -> Forall (fun x => is_digit x = true) ip ->
  is_digit d1 = true -> is_digit d2 = true ->
  Dec.of_str ((c :: ip) ++ "."%char :: [d1; d2]) =
  Ok (Dec.digits_val 0 ((c :: ip) ++ [d1; d2])).
Proof.
  intros Hc Hip Hd1 Hd2. unfold Dec.of_str, strip.
  replace ((c :: ip) ++ ["."%char; d1; d2])
    with (c :: (ip ++ ["."%char; d1]) ++ [d2])
    by (simpl; now rewrite <- app_assoc).
  rewrite strip_by_keep by auto using digit_not_space.
  replace (c :: (ip ++ ["."%char; d1]) ++ [d2])
    with ((c :: ip) ++ "."%char :: [d1; d2])
    by (simpl; now rewrite <- app_assoc).
  match goal with
  | |- (let '(sign, body) := ?m in _) = _ =>
      replace m with (1, (c :: ip) ++ ["."%char; d1; d2])
        by (clear - Hc; revert Hc; by_cases c)
  end.
  unfold lit. simpl list_ascii_of_string.
  rewrite cut_first_char.
  2:{ constructor; [now apply digit_not_point|].
      eapply Forall_impl; [|exact Hip]. apply digit_not_point. }
  assert (Hall : forallb is_digit (c :: ip) = true).
  { apply forallb_forall. intros x [<-|Hx]; [assumption|].
    rewrite Forall_forall in Hip. auto. }
  rewrite Hall, Hd1, Hd2. simpl andb. cbv iota. f_equal.
  destruct (Dec.digits_val 0 ((c :: ip) ++ [d1; d2])); reflexivity.
Qed.

Lemma clean_money_match (w : str) :
  lang MONEY_RX w -> exists v, clean_money Dec.of_str w = Ok v /\ 0 <= v.
Proof.
  intros Hw. apply lang_money_text in Hw as (c & ip & d1 & d2 & -> & Hc & Hip
                                            & Hd1 & Hd2).
  unfold clean_money, lit. simpl list_ascii_of_string.
  rewrite replace_char_filter.
  set (f := fun x => negb (Ascii.eqb ","%char x)).
  assert (Hk : forall x l, f x = true -> filter f (x :: l) = x :: filter f l).
  { intros x l Hx. cbn [filter]. now rewrite Hx. }
  assert (Hdig : forall x, is_digit x = true -> f x = true).
  { intros x Hx. unfold f. now rewrite digit_not_comma. }
  rewrite filter_app, (Hk c), (Hk "."%char), (Hk d1), (Hk d2) by auto.
  change (filter f []) with (@nil ascii).
  set (ip' := filter f ip).
  assert (Hip' : Forall (fun x => is_digit x = true) ip').
  { apply Forall_forall. intros x Hx. apply filter_In in Hx as [Hx Hn].
    rewrite Forall_forall in Hip.
    destruct (Hip x Hx) as [H | ->]; [assumption|].
    discriminate Hn. }
  change (c :: ip' ++ ["."%char; d1; d2])
    with ((c :: ip') ++ ["."%char; d1; d2]).
  replace (strip ((c :: ip') ++ ["."%char; d1; d2]))
    with ((c :: ip') ++ ["."%char; d1; d2]).
  2:{ unfold strip. symmetry.
      replace ((c :: ip') ++ ["."%char; d1; d2])
        with (c :: (ip' ++ ["."%char; d1]) ++ [d2])
        by (simpl; now rewrite <- app_assoc).
      apply strip_by_keep; auto using digit_not_space. }
  rewrite of_str_fixed_point by assumption.
  eexists. split; [reflexivity|].
  apply digits_val_nonneg; [|lia].
  constructor; [assumption|]. apply Forall_app. split; [assumption|].
  repeat constructor; assumption.
Qed.

End MoneyFacts.

(** ** Hints *)

Section HintFacts.

Lemma upper_char_idem (c : ascii) : upper_char (upper_char c) = upper_char c.
Proof. destruct c as [[] [] [] [] [] [] [] []]; reflexivity. Qed.

Lemma upper_idem (s : str) : upper (upper s) = upper s.
Proof.
  unfold upper. rewrite map_map. apply map_ext. apply upper_char_idem.
Qed.

Lemma upper_app (a b : str) : upper (a ++ b) = upper a ++ upper b.
Proof. apply map_app. Qed.

Lemma occurs_upper_inv (w s : str) :
  occurs w (upper s) -> exists a m b, s = a ++ m ++ b /\ upper m = w.
Proof.
  intros (a & b & H). unfold upper in H.
  apply map_eq_app in H as (a' & r & -> & <- & H).
  apply map_eq_app in H as (m & b' & -> & <- & <-).
  now exists a', m, b'.
Qed.

(** [has_any] is the presence of a hint, the case of the letters apart, for
    hints that are written in upper case. *)
Lemma has_any_hinted (words : list str) (s : str) :
  Forall (fun w => upper w = w) words ->
  (has_any s words = true <-> hinted words s).
Proof.
  intros Hup. rewrite Forall_forall in Hup. unfold has_any, hinted.
  rewrite existsb_exists. split.
  - intros (w & Hin & Hc). exists w. split; [assumption|].
    apply contains_occurs, occurs_upper_inv in Hc as (a & m & b & -> & Hm).
    exists a, m, b. split; [reflexivity|]. now rewrite (Hup w Hin).
  - intros (w & Hin & a & m & b & -> & Hm). exists w. split; [assumption|].
    apply contains_occurs. rewrite <- (Hup w Hin), <- Hm.
    apply occurs_upper. now exists a, b.
Qed.

Lemma CREDIT_HINTS_upper : Forall (fun w => upper w = w) CREDIT_HINTS.
Proof. repeat constructor. Qed.

Lemma DEBIT_HINTS_upper : Forall (fun w => upper w = w) DEBIT_HINTS.
Proof. repeat constructor. Qed.

Lemma DEBIT_HINTS_no_blank : Forall (fun w => ~ In " "%char w) DEBIT_HINTS.
Proof.
  repeat constructor; intros H; simpl in H;
    repeat (destruct H as [H|H]; [discriminate H|]); exact H.
Qed.

(** A word without a blank that occurs in [x ++ " " ++ y] occurs in [x] or
    in [y]. *)
Lemma occurs_around_char (c : ascii) (w x y : str) :
  ~ In c w -> occurs w (x ++ c :: y) -> occurs w x \/ occurs w y.
Proof.
  intros Hw (a & b & H).
  symmetry in H. apply app_eq_app in H as (l & [[-> H]|[-> H]]).
  - destruct l as [|c' l]; simpl in H.
    + destruct w as [|c' w]; [left; exists x, []; now rewrite app_nil_r|].
      injection H as <- _. exfalso. apply Hw. now left.
    + injection H as _ ->. right. now exists l, b.
  - apply app_eq_app in H as (l2 & [[-> H]|[-> H]]).
    + destruct l2 as [|c' l2]; simpl in H.
      * left. exists a, []. now rewrite !app_nil_r.
      * injection H as <- _. exfalso. apply Hw, in_or_app. right. now left.
    + left. exists a, l2. reflexivity.
Qed.

Lemma occurs_around_blank (w x y : str) :
  ~ In " "%char w -> occurs w (x ++ sp ++ y) -> occurs w x \/ occurs w y.
Proof. apply occurs_around_char. Qed.

(** No hint in the line, no hint in the twelve characters around a word of
    the line. *)
Lemma no_hint_in_context (words : list str) (line before after : str) :
  Forall (fun w => ~ In " "%char w) words ->
  has_any line words = false ->
  occurs before line -> occurs after line ->
  has_any (upper before ++ sp ++ upper after) words = false.
Proof.
  intros Hnb Hline Hb Ha. apply not_true_is_false. intros Hctx.
  apply not_true_iff_false in Hline. apply Hline. clear Hline.
  unfold has_any in *. apply existsb_exists in Hctx as (w & Hin & Hc).
  apply existsb_exists. exists w. split; [assumption|].
  rewrite !upper_app, !upper_idem in Hc. change (upper sp) with sp in Hc.
  rewrite Forall_forall in Hnb.
  apply contains_occurs in Hc.
  apply occurs_around_blank in Hc; [|exact (Hnb w Hin)].
  apply contains_occurs.
  destruct Hc as [Hc|Hc]; (eapply occurs_trans; [exact Hc|]);
    now apply occurs_upper.
Qed.

(** *** Hints and [normspaces]

    A text without blanks occurs in the normalized line when it occurs in
    the line, and only then. *)

Lemma solid_not_in (w : str) (c : ascii) :
  solid w -> is_space c = true -> ~ In c w.
Proof.
  intros [_ Hw] Hc Hin. rewrite Forall_forall in Hw.
  apply Hw in Hin. congruence.
Qed.

Lemma solid_not_nil (w : str) : solid w -> ~ occurs w [].
Proof.
  intros [Hn _] (a & b & H). symmetry in H.
  apply app_eq_nil in H as [_ H]. apply app_eq_nil in H as [H _]. auto.
Qed.

Lemma occurs_around_spaces (w y : str) (m : str) :
  solid w -> Forall (fun c => is_space c = true) m -> m <> [] ->
  forall x, occurs w (x ++ m ++ y) -> occurs w x \/ occurs w y.
Proof.
  intros Hw Hm. induction Hm as [|c m Hc Hm IH]; intros Hne x H;
    [contradiction|].
  apply occurs_around_char in H; [|now apply solid_not_in].
  destruct H as [H|H]; [now left|].
  destruct m as [|c' m]; [now right|].
  destruct (IH ltac:(discriminate) [] H) as [H'|H']; [|now right].
  now apply solid_not_nil in H'.
Qed.

(** The text cut by separators of blanks: [w] is in a gap or in the rest,
    whatever the separators are. *)
Lemma occurs_pieces (w rest : str) (f : str * str -> str)
      (ps : list (str * str)) :
  solid w ->
  Forall (fun gm => Forall (fun c => is_space c = true) (f gm) /\
                    f gm <> []) ps ->
  (occurs w (concat (map (fun gm => fst gm ++ f gm) ps) ++ rest) <->
   (exists gm, In gm ps /\ occurs w (fst gm)) \/ occurs w rest).
Proof.
  intros Hw Hps. induction Hps as [|gm ps [Hsp Hne] Hps IH]; simpl.
  - split; [now right|]. intros [(gm & [] & _)|H]; assumption.
  - rewrite <- !app_assoc. split.
    + intros H. apply occurs_around_spaces in H; try assumption.
      destruct H as [H|H]; [left; eauto|].
      apply IH in H as [(gm' & ? & ?)|H]; [left; eauto|now right].
    + intros H.
      assert (H' : occurs w (fst gm) \/
                   occurs w (concat (map (fun gm => fst gm ++ f gm) ps)
                             ++ rest)).
      { destruct H as [(gm' & [E|Hin] & Ho)|H]; [left; now subst| |].
        - right. apply IH. left. eauto.
        - right. apply IH. now right. }
      set (tl := concat (map (fun gm => fst gm ++ f gm) ps) ++ rest) in *.
      destruct H' as [(a & b & E)|(a & b & E)].
      * exists a, (b ++ f gm ++ tl).
        transitivity ((a ++ w ++ b) ++ f gm ++ tl);
          [f_equal; exact E|now rewrite <- !app_assoc].
      * exists (fst gm ++ f gm ++ a), b.
        transitivity (fst gm ++ f gm ++ a ++ w ++ b);
          [do 2 f_equal; exact E|now rewrite <- !app_assoc].
Qed.

Lemma sub_spaces_occurs (w s : str) :
  solid w -> (occurs w (Re.sub (Plus space) sp s) <-> occurs w s).
Proof.
  intros Hw. unfold Re.sub, pieces.
  destruct (pieces_from (Plus space) (S (length s)) (Cursor [] s))
    as [ps rest] eqn:E.
  apply pieces_from_sound in E as [Hs Hf]. simpl in Hs. rewrite Hs.
  rewrite (occurs_pieces rest (fun _ => sp) (ps := ps) Hw).
  2:{ apply Forall_forall. intros gm _. split; [|discriminate].
      repeat constructor. }
  rewrite (occurs_pieces rest snd (ps := ps) Hw); [reflexivity|].
  eapply Forall_impl; [|exact Hf]. intros gm [Hl Hn]. split; [|assumption].
  eapply lang_chars_within; [|exact Hl]. simpl. auto.
Qed.

Lemma lstrip_occurs (w s : str) :
  solid w -> (occurs w (lstrip_by is_space s) <-> occurs w s).
Proof.
  intros Hw. induction s as [|c s IH]; simpl; [reflexivity|].
  destruct (is_space c) eqn:Hc; [|reflexivity].
  rewrite IH. split.
  - intros (a & b & ->). now exists (c :: a), b.
  - intros H. change (c :: s) with ([] ++ c :: s) in H.
    apply occurs_around_char in H; [|now apply solid_not_in].
    destruct H as [H|H]; [now apply solid_not_nil in H|assumption].
Qed.

Lemma occurs_rev (w s : str) : occurs w s -> occurs (rev w) (rev s).
Proof.
  intros (a & b & ->). exists (rev b), (rev a).
  now rewrite !rev_app_distr, <- app_assoc.
Qed.

Lemma solid_rev (w : str) : solid w -> solid (rev w).
Proof.
  intros [Hn Hw]. split.
  - intros H. apply Hn. now rewrite <- (rev_involutive w), H.
  - now apply Forall_rev.
Qed.

Lemma strip_occurs (w s : str) :
  solid w -> (occurs w (strip s) <-> occurs w s).
Proof.
  intros Hw. unfold strip, strip_by, rstrip_by.
  rewrite <- (lstrip_occurs s Hw).
  set (t := lstrip_by is_space s). split; intros H.
  - apply occurs_rev in H. rewrite rev_involutive in H.
    apply (proj1 (lstrip_occurs (rev t) (solid_rev Hw))) in H.
    apply occurs_rev in H. now rewrite !rev_involutive in H.
  - apply occurs_rev in H.
    apply (proj2 (lstrip_occurs (rev t) (solid_rev Hw))) in H.
    apply occurs_rev in H. now rewrite rev_involutive in H.
Qed.

Lemma normspaces_occurs (w s : str) :
  solid w -> (occurs w (normspaces s) <-> occurs w s).
Proof.
  intros Hw. unfold normspaces.
  now rewrite (strip_occurs _ Hw), (sub_spaces_occurs _ Hw).
Qed.

Lemma upper_char_space (c : ascii) : is_space (upper_char c) = is_space c.
Proof. destruct c as [[] [] [] [] [] [] [] []]; reflexivity. Qed.

Lemma solid_upper (m w : str) : upper m = upper w -> solid w -> solid m.
Proof.
  intros H [Hn Hw]. split.
  - intros ->. destruct w; [auto|discriminate].
  - assert (Hu : Forall (fun c => is_space c = false) (upper w)).
    { unfold upper. apply Forall_map. eapply Forall_impl; [|exact Hw].
      intros c Hc. now rewrite upper_char_space. }
    rewrite <- H in Hu. unfold upper in Hu. apply Forall_map in Hu.
    eapply Forall_impl; [|exact Hu]. intros c Hc. cbv beta in Hc.
    now rewrite upper_char_space in Hc.
Qed.

(** The hints are looked for in the normalized line; for hints without
    blanks that is the same as in the line. *)
Lemma hinted_normspaces (words : list str) (s : str) :
  Forall solid words -> (hinted words (normspaces s) <-> hinted words s).
Proof.
  intros Hsolid. rewrite Forall_forall in Hsolid. unfold hinted.
  split; intros (w & Hin & a & m & b & Hs & Hm); exists w;
    (split; [assumption|]).
  - assert (Ho : occurs m (normspaces s)) by (now exists a, b).
    apply (proj1 (normspaces_occurs s
                    (@solid_upper m w Hm (Hsolid w Hin)))) in Ho.
    destruct Ho as (a' & b' & ->). now exists a', m, b'.
  - assert (Ho : occurs m s) by (now exists a, b).
    apply (proj2 (normspaces_occurs s
                    (@solid_upper m w Hm (Hsolid w Hin)))) in Ho.
    destruct Ho as (a' & b' & E). exists a', m, b'. auto.
Qed.

Lemma CREDIT_HINTS_solid : Forall solid CREDIT_HINTS.
Proof. repeat constructor; discriminate. Qed.

Lemma DEBIT_HINTS_solid : Forall solid DEBIT_HINTS.
Proof. repeat constructor; discriminate. Qed.

End HintFacts.

(** ** [parse_line] returns a row for every line with two amounts *)

Section ParserFacts.

Local Open Scope Z_scope.

Lemma index_back_two (A : Type) (l : list A) :
  (2 <= length l)%nat ->
  exists pre m2 m1,
    l = pre ++ [m2; m1] /\ index_back l 1 = Ok m1 /\ index_back l 2 = Ok m2.
Proof.
  intros Hlen. unfold index_back, index.
  assert (Hl : l = rev (rev l)) by (now rewrite rev_involutive).
  rewrite <- length_rev in Hlen.
  destruct (rev l) as [|m1 [|m2 r]]; simpl in Hlen; try lia.
  exists (rev r), m2, m1. rewrite Hl. simpl. now rewrite <- app_assoc.
Qed.

Lemma sign_guess_ok (line m2 : str) (amount : Z) :
  m2 <> [] ->
  sign_guess line m2 amount =
  Ok (if minus_before line m2 then (amount, 0) else (0, amount)).
Proof.
  intros Hm. unfold sign_guess, rsplit1, minus_before.
  destruct m2 as [|c t]; [contradiction|].
  destruct (cut_last (c :: t) line) as [[a b]|]; cbn [bind index nth_error];
    destruct (contains _ _); reflexivity.
Qed.

Lemma context_of_ok (line m2 : str) :
  m2 <> [] -> occurs m2 line ->
  exists before after,
    occurs before line /\ occurs after line /\
    context_of line m2 = Ok (upper before ++ sp ++ upper after).
Proof.
  intros Hm Hocc. unfold context_of, rsplit1, split1.
  destruct m2 as [|c t]; [contradiction|].
  destruct (cut_first_complete Hocc) as (a' & b' & E').
  rewrite E'. apply cut_first_sound in E'.
  assert (Hb' : occurs b' line).
  { exists (a' ++ c :: t), []. now rewrite app_nil_r, <- app_assoc. }
  destruct (cut_last (c :: t) line) as [[a b]|] eqn:E;
    cbn [bind index nth_error].
  - exists (last_chars 12 a), (first_chars 12 b'). repeat split.
    + apply cut_last_sound in E. eapply occurs_trans; [apply occurs_skipn|].
      exists [], ((c :: t) ++ b). exact E.
    + eapply occurs_trans; [apply occurs_firstn|assumption].
  - exists (last_chars 12 line), (first_chars 12 b'). repeat split.
    + apply occurs_skipn.
    + eapply occurs_trans; [apply occurs_firstn|assumption].
Qed.

Lemma index_back_snoc2 (A : Type) (pre : list A) (m2 m1 : A) :
  index_back (pre ++ [m2; m1]) 1 = Ok m1 /\
  index_back (pre ++ [m2; m1]) 2 = Ok m2.
Proof. unfold index_back, index. now rewrite rev_app_distr. Qed.

Lemma direction_ok (line m2 : str) (amount balance : Z) (prev : option Z) :
  m2 <> [] -> occurs m2 line ->
  exists dc,
    direction line m2 amount balance prev = Ok dc /\
    (dc = (0, amount) \/ dc = (amount, 0)).
Proof.
  intros Hm Hocc. unfold direction.
  destruct (has_any line CREDIT_HINTS); [eauto|].
  destruct (has_any line DEBIT_HINTS); [eauto|].
  destruct prev as [prev|].
  - cbv zeta. destruct (_ <=? _); [eauto|]. destruct (_ <=? _); [eauto|].
    rewrite sign_guess_ok by assumption.
    destruct (minus_before line m2); eauto.
  - unfold context_guess.
    destruct (context_of_ok Hm Hocc) as (bf & af & _ & _ & ->). cbn [bind].
    destruct (has_any _ DEBIT_HINTS); eauto.
Qed.

Lemma particulars_ok (line m1 m2 : str) :
  m1 <> [] -> m2 <> [] -> exists p, particulars_of line m1 m2 = Ok p.
Proof.
  intros H1 H2. unfold particulars_of, rsplit1.
  destruct m1 as [|c1 t1]; [contradiction|].
  destruct m2 as [|c2 t2]; [contradiction|].
  destruct (cut_last (c1 :: t1) line) as [[a b]|];
    cbn [bind index nth_error];
    match goal with
    | |- context [cut_last (c2 :: t2) ?x] =>
        destruct (cut_last (c2 :: t2) x) as [[a' b']|]
    end; cbn [bind index nth_error]; eauto.
Qed.

(** The row of a line whose two last amounts convert. *)
Lemma parse_line_row (D : str -> result Z) (line : str) (prev : option Z)
      (pre : list str) (m2 m1 : str) (balance amount : Z) :
  monies_of (normspaces line) = pre ++ [m2; m1] ->
  clean_money D m1 = Ok balance ->
  clean_money D m2 = Ok amount ->
  exists dc p,
    direction (normspaces line) m2 amount balance prev = Ok dc /\
    (dc = (0, amount) \/ dc = (amount, 0)) /\
    parse_line D line prev =
    Ok (Some (mkRow (find_date (normspaces line)) p (fst dc) (snd dc)
                balance line)).
Proof.
  intros Hmon Hb Ha.
  assert (Hin : forall m, In m [m2; m1] ->
                          m <> [] /\ occurs m (normspaces line)).
  { intros m Hm.
    refine (proj2 (@findall_sound MONEY_RX (normspaces line) m _)).
    fold (monies_of (normspaces line)). rewrite Hmon. apply in_or_app.
    now right. }
  destruct (Hin m1) as [Hn1 _]; [simpl; auto|].
  destruct (Hin m2) as [Hn2 Ho2]; [simpl; auto|].
  destruct (direction_ok amount balance prev Hn2 Ho2) as (dc & Hdc & Hcases).
  destruct (particulars_ok (normspaces line) Hn1 Hn2) as (p & Hp).
  exists dc, p. repeat split; auto.
  unfold parse_line. fold (monies_of (normspaces line)). rewrite Hmon.
  destruct (index_back_snoc2 pre m2 m1) as [-> ->].
  rewrite length_app. simpl length.
  replace (length pre + 2 <? 2)%nat with false
    by (symmetry; apply Nat.ltb_ge; lia).
  cbn [bind]. rewrite Hb. cbn [bind]. rewrite Ha. cbn [bind].
  rewrite Hdc. cbn [bind]. rewrite Hp. reflexivity.
Qed.

(** With the constructor of the library, every line with two amounts. *)
Lemma parse_line_some (line : str) (prev : option Z) :
  (2 <= length (monies_of (normspaces line)))%nat ->
  exists pre m2 m1 balance amount dc p,
    monies_of (normspaces line) = pre ++ [m2; m1] /\
    clean_money Dec.of_str m1 = Ok balance /\ 0 <= balance /\
    clean_money Dec.of_str m2 = Ok amount /\ 0 <= amount /\
    direction (normspaces line) m2 amount balance prev = Ok dc /\
    (dc = (0, amount) \/ dc = (amount, 0)) /\
    parse_line Dec.of_str line prev =
    Ok (Some (mkRow (find_date (normspaces line)) p (fst dc) (snd dc)
                balance line)).
Proof.
  intros Hlen.
  destruct (index_back_two _ Hlen) as (pre & m2 & m1 & Hmon & _).
  assert (Hin : forall m, In m [m2; m1] -> lang MONEY_RX m).
  { intros m Hm.
    refine (proj1 (@findall_sound MONEY_RX (normspaces line) m _)).
    fold (monies_of (normspaces line)). rewrite Hmon. apply in_or_app.
    now right. }
  destruct (@clean_money_match m1) as (balance & Hb & Hb0);
    [apply Hin; simpl; auto|].
  destruct (@clean_money_match m2) as (amount & Ha & Ha0);
    [apply Hin; simpl; auto|].
  destruct (@parse_line_row Dec.of_str line prev _ _ _ _ _ Hmon Hb Ha)
    as (dc & p & Hd & Hc & Hp).
  exists pre, m2, m1, balance, amount, dc, p. repeat split; auto.
Qed.

Lemma parse_line_few (D : str -> result Z) (line : str) (prev : option Z) :
  (length (monies_of (normspaces line)) < 2)%nat ->
  parse_line D line prev = Ok None.
Proof.
  intros Hlen. unfold parse_line. fold (monies_of (normspaces line)).
  now apply Nat.ltb_lt in Hlen as ->.
Qed.

(** The two last matches are non-empty texts of the line. *)
Lemma monies_sound (line : str) (pre : list str) (m2 m1 : str) :
  monies_of line = pre ++ [m2; m1] ->
  (m1 <> [] /\ occurs m1 line) /\ (m2 <> [] /\ occurs m2 line).
Proof.
  intros Hmon.
  assert (Hin : forall m, In m [m2; m1] -> m <> [] /\ occurs m line).
  { intros m Hm. refine (proj2 (@findall_sound MONEY_RX line m _)).
    fold (monies_of line). rewrite Hmon. apply in_or_app. now right. }
  split; apply Hin; simpl; auto.
Qed.

Lemma amount_text_snoc (line : str) (pre : list str) (m2 m1 : str) :
  monies_of (normspaces line) = pre ++ [m2; m1] ->
  amount_text line = Some m2 /\ balance_text line = Some m1.
Proof.
  intros Hmon. unfold amount_text, balance_text.
  now rewrite Hmon, rev_app_distr.
Qed.

(** The previous balance counts through [direction] alone. *)
Lemma parse_line_prev (D : str -> result Z) (line : str)
      (prev prev' : option Z) :
  (forall m2 a b, direction (normspaces line) m2 a b prev =
                  direction (normspaces line) m2 a b prev') ->
  parse_line D line prev = parse_line D line prev'.
Proof.
  intros H. unfold parse_line.
  destruct (_ <? _)%nat; [reflexivity|].
  destruct (index_back _ 1) as [m1|]; [|reflexivity]. cbn [bind].
  destruct (index_back _ 2) as [m2|]; [|reflexivity]. cbn [bind].
  destruct (clean_money D m1) as [b|e1]; cbn [bind]; [|reflexivity].
  destruct (clean_money D m2) as [a|e2]; cbn [bind]; [|reflexivity].
  now rewrite H.
Qed.

Lemma direction_credit_hint (line m2 : str) (a b : Z) (prev : option Z) :
  has_any line CREDIT_HINTS = true -> direction line m2 a b prev = Ok (0, a).
Proof. intros H. unfold direction. now rewrite H. Qed.

Lemma direction_debit_hint (line m2 : str) (a b : Z) (prev : option Z) :
  has_any line CREDIT_HINTS = false -> has_any line DEBIT_HINTS = true ->
  direction line m2 a b prev = Ok (a, 0).
Proof. intros H1 H2. unfold direction. now rewrite H1, H2. Qed.

Lemma not_hinted (words : list str) (s : str) :
  Forall (fun w => upper w = w) words ->
  (has_any s words = false <-> ~ hinted words s).
Proof.
  intros Hup. rewrite <- (has_any_hinted s Hup).
  destruct (has_any s words); split; intros H; auto; try discriminate.
  now contradiction H.
Qed.

(** Amounts below ten to the 28 go through the context unrounded. *)
Lemma fix_ctx_exact (z : Z) :
  Z.abs z < 10000000000000000000000000000 -> Dec.fix_ctx z = z.
Proof.
  intros H. unfold Dec.fix_ctx.
  change (10 ^ Dec.prec) with 10000000000000000000000000000.
  now apply Z.ltb_lt in H as ->.
Qed.




(** A row comes from a line with two amounts. *)
Lemma parse_line_inv (line : str) (prev : option Z) (row : ParsedRow) :
  parse_line Dec.of_str line prev = Ok (Some row) ->
  exists pre m2 m1 balance amount dc p,
    monies_of (normspaces line) = pre ++ [m2; m1] /\
    clean_money Dec.of_str m1 = Ok balance /\ 0 <= balance /\
    clean_money Dec.of_str m2 = Ok amount /\ 0 <= amount /\
    direction (normspaces line) m2 amount balance prev = Ok dc /\
    (dc = (0, amount) \/ dc = (amount, 0)) /\
    row = mkRow (find_date (normspaces line)) p (fst dc) (snd dc)
            balance line.
Proof.
  intros H.
  destruct (Nat.lt_ge_cases (length (monies_of (normspaces line))) 2)
    as [Hlt|Hge].
  - rewrite parse_line_few in H by assumption. discriminate.
  - destruct (parse_line_some line prev Hge)
      as (pre & m2 & m1 & b & a & dc & p & ? & ? & ? & ? & ? & ? & ? & Hp).
    rewrite Hp in H. injection H as <-.
    exists pre, m2, m1, b, a, dc, p. repeat split; auto.
Qed.

End ParserFacts.

(** ** The assembler *)

Section AssemblerFacts.

Variable D : str -> result Z.


Lemma parse_line_date_raw (line : str) (prev : option Z) (row : ParsedRow) :
  parse_line D line prev = Ok (Some row) ->
  Date row = find_date (normspaces line) /\ raw row = line.
Proof.
  unfold parse_line. intros H.
  destruct (_ <? _)%nat; [discriminate|].
  destruct (index_back _ 1) as [m1|]; [|discriminate]. cbn [bind] in H.
  destruct (index_back _ 2) as [m2|]; [|discriminate]. cbn [bind] in H.
  destruct (clean_money D m1) as [b|e1]; cbn [bind] in H;
    [|destruct e1; discriminate].
  destruct (clean_money D m2) as [a|e2]; cbn [bind] in H;
    [|destruct e2; discriminate].
  destruct (direction _ _ _ _ _) as [dc|]; [|discriminate]. cbn [bind] in H.
  destruct (particulars_of _ _ _) as [p|]; [|discriminate]. cbn [bind] in H.
  injection H as <-. auto.
Qed.

Lemma step_line_date_only (st : assembler) (ln : str) :
  date_only ln = true ->
  exists desc,
    step_line D st ln =
    Ok (mkAsm (rows st) (prev_balance st) desc (find_date ln)).
Proof.
  unfold date_only, step_line. destruct (find_date ln); [discriminate|].
  destruct (Re.search MONEY_RX ln); [discriminate|]. eauto.
Qed.

Lemma step_line_other (st : assembler) (ln : str) :
  date_only ln = false ->
  step_line D st ln =
  (parsed <- parse_line D ln (prev_balance st) ;;
   match parsed with
   | Some parsed =>
       let parsed :=
         match Date parsed, pending_date st with
         | [], _ :: _ => set_Date parsed (pending_date st)
         | _, _ => parsed
         end in
       let '(parsed, desc) :=
         match pending_desc st with
         | [] => (parsed, pending_desc st)
         | _ =>
             (set_Particulars parsed
                (normspaces (join sp (pending_desc st) ++ sp ++
                             Particulars parsed)),
              [])
         end in
       Ok (mkAsm (rows st ++ [parsed]) (Some (Balance parsed)) desc
             (pending_date st))
   | None =>
       if existsb is_alpha ln
       then Ok (mkAsm (rows st) (prev_balance st)
                  (pending_desc st ++ [ln]) (pending_date st))
       else Ok st
   end).
Proof.
  unfold date_only, step_line. destruct (find_date ln); [reflexivity|].
  destruct (Re.search MONEY_RX ln); [reflexivity|discriminate].
Qed.

(** A transaction line: the row it appends and the state it leaves. *)
Lemma step_line_transaction (st : assembler) (ln : str) (r0 : ParsedRow) :
  date_only ln = false ->
  parse_line D ln (prev_balance st) = Ok (Some r0) ->
  exists r,
    step_line D st ln =
    Ok (mkAsm (rows st ++ [r]) (Some (Balance r0)) [] (pending_date st)) /\
    Debit r = Debit r0 /\ Credit r = Credit r0 /\ Balance r = Balance r0 /\
    raw r = raw r0 /\
    Date r = match Date r0 with [] => pending_date st | d => d end.
Proof.
  intros Hd Hp. rewrite step_line_other, Hp by assumption. cbn [bind].
  destruct (pending_desc st) as [|f fs] eqn:Ef;
    destruct (Date r0) as [|c d] eqn:Ed;
    destruct (pending_date st) as [|c' d'] eqn:Ep;
    cbv zeta; eexists; (split; [reflexivity|]); simpl; rewrite ?Ed; auto.
Qed.

(** Any line: the rows stay, or one row of [parse_line] is appended; the
    pending date changes on a date-only line alone. *)
Lemma step_line_cases (st st' : assembler) (ln : str) :
  step_line D st ln = Ok st' ->
  (rows st' = rows st /\
   pending_date st' = if date_only ln then find_date ln else pending_date st)
  \/
  (date_only ln = false /\ pending_date st' = pending_date st /\
   exists r, rows st' = rows st ++ [r] /\
             parsed_from D ln (prev_balance st) r /\
             Date r = match find_date (normspaces (raw r)) with
                      | [] => pending_date st
                      | d => d
                      end).
Proof.
  intros H. destruct (date_only ln) eqn:Hd.
  - destruct (step_line_date_only st ln Hd) as (desc & E).
    rewrite E in H. injection H as <-. left. auto.
  - destruct (parse_line D ln (prev_balance st)) as [[r0|]|e] eqn:Hp.
    + destruct (step_line_transaction st ln Hd Hp)
        as (r & E & H1 & H2 & H3 & H4 & H5).
      rewrite E in H. injection H as <-. right. simpl.
      repeat split; auto. exists r. repeat split; auto.
      * exists r0. auto.
      * destruct (parse_line_date_raw _ _ Hp) as [Hdate Hraw].
        now rewrite H5, H4, Hraw, <- Hdate.
    + rewrite step_line_other, Hp in H by assumption. cbn [bind] in H.
      destruct (existsb is_alpha ln); injection H as <-; left; auto.
    + rewrite step_line_other, Hp in H by assumption. discriminate.
Qed.

(** The rows that a run of the loop appends. *)
Lemma run_lines_rows (lines : list str) :
  forall st st',
    run_lines D st lines = Ok st' ->
    exists new,
      rows st' = rows st ++ new /\
      Forall (fun r => exists ln prev, parsed_from D ln prev r) new.
Proof.
  induction lines as [|ln lines IH]; intros st st' H; simpl in H.
  - injection H as <-. exists []. now rewrite app_nil_r.
  - destruct (step_line D st ln) as [st1|] eqn:E; [|discriminate].
    cbn [bind] in H. apply IH in H as (new & Hr & Hf).
    apply step_line_cases in E as [[E _]|(_ & _ & r & E & Hp & _)].
    + exists new. now rewrite Hr, E.
    + exists (r :: new). rewrite Hr, E, <- app_assoc. split; [reflexivity|].
      constructor; eauto.
Qed.

Lemma assign_dates_in (rs : list ParsedRow) :
  forall (col : list str) (r' : ParsedRow),
    In r' (assign_dates rs col) -> exists r v, In r rs /\ r' = set_Date r v.
Proof.
  induction rs as [|r rs IH]; intros [|v col] r' H; simpl in H;
    try contradiction.
  destruct H as [<-|H]; [exists r, v; simpl; auto|].
  destruct (IH _ _ H) as (r1 & v1 & ? & ?). exists r1, v1. simpl; auto.
Qed.

(** Every row of the output carries the amounts of a result of
    [parse_line] on its raw line. *)
Lemma output_rows_parsed (lines : list str) (out : list ParsedRow) :
  parse_lines_to_rows D lines = Ok out ->
  Forall (fun r => exists ln prev, parsed_from D ln prev r) out.
Proof.
  unfold parse_lines_to_rows. intros H.
  destruct (run_lines D start lines) as [st|] eqn:E; [|discriminate].
  cbn [bind] in H. apply run_lines_rows in E as (new & Hr & Hf).
  simpl in Hr. subst new.
  assert (Hout : out = assign_dates (rows st)
                         (fill_dates (map Date (rows st)))).
  { destruct (rows st); now injection H as <-. }
  rewrite Forall_forall in *. intros r' Hin. rewrite Hout in Hin.
  apply assign_dates_in in Hin as (r & v & Hin & ->).
  destruct (Hf r Hin) as (ln & prev & r0 & ? & ? & ? & ? & ?).
  exists ln, prev, r0. simpl. auto.
Qed.

(** Lines that are not date-only lines: the pending date stays and dates
    the rows that have no date of their own. *)
Lemma run_lines_keep_date (lines : list str) :
  forall st st',
    Forall (fun l => date_only l = false) lines ->
    run_lines D st lines = Ok st' ->
    pending_date st' = pending_date st /\
    exists new,
      rows st' = rows st ++ new /\
      Forall (fun r => Date r = match find_date (normspaces (raw r)) with
                                | [] => pending_date st
                                | d => d
                                end) new.
Proof.
  induction lines as [|ln lines IH]; intros st st' Hall H; simpl in H.
  - injection H as <-. split; [reflexivity|]. exists [].
    now rewrite app_nil_r.
  - inversion Hall as [|? ? Hln Hrest]; subst.
    destruct (step_line D st ln) as [st1|] eqn:E; [|discriminate].
    cbn [bind] in H. apply (IH _ _ Hrest) in H as (Hpd & new & Hr & Hf).
    apply step_line_cases in E. rewrite Hln in E.
    destruct E as [[E Hp]|(_ & Hp & r & E & _ & Hdate)].
    + rewrite Hp in *. split; [assumption|]. exists new. now rewrite Hr, E.
    + rewrite Hp in *. split; [assumption|]. exists (r :: new).
      rewrite Hr, E, <- app_assoc. split; [reflexivity|]. now constructor.
Qed.



End AssemblerFacts.

(** ** The fill pass *)

Section FillFacts.


Lemma nearest_from_nil (col : list str) (i : nat) :
  nearest_from [] col i = nearest_date col i.
Proof.
  induction i as [|i IH]; simpl; destruct (nth _ col []); auto.
Qed.

Lemma nearest_from_cons (d c : str) (col : list str) (i : nat) :
  nearest_from d (c :: col) (S i) =
  nearest_from (match c with [] => d | _ => c end) col i.
Proof.
  induction i as [|i IH].
  - simpl. destruct (nth 0 col []); [|reflexivity]. now destruct c.
  - change (nearest_from d (c :: col) (S (S i)))
      with (match nth (S i) col [] with
            | [] => nearest_from d (c :: col) (S i)
            | v => v
            end).
    rewrite IH. simpl. now destruct (nth (S i) col []).
Qed.

Lemma ffill_nth (col : list str) :
  forall (last : option str) (i : nat),
    i < length col ->
    nth i (fillna [] (ffill_from last (replace_empty_na col))) [] =
    nearest_from (match last with Some v => v | None => [] end) col i.
Proof.
  induction col as [|c col IH]; intros last i Hi; simpl in Hi; [lia|].
  destruct i as [|i].
  - destruct c; reflexivity.
  - rewrite nearest_from_cons. destruct c as [|x c]; simpl.
    + rewrite IH by lia. reflexivity.
    + rewrite IH by lia. reflexivity.
Qed.

Lemma fill_dates_nth (col : list str) (i : nat) :
  i < length col -> nth i (fill_dates col) [] = nearest_date col i.
Proof.
  intros Hi. unfold fill_dates, ffill. rewrite ffill_nth by assumption.
  apply nearest_from_nil.
Qed.

Lemma fill_dates_length (col : list str) :
  length (fill_dates col) = length col.
Proof.
  unfold fill_dates, ffill, fillna, replace_empty_na. rewrite length_map.
  generalize (@None str). induction col as [|c col IH]; intros last;
    [reflexivity|].
  destruct c; simpl; now rewrite IH.
Qed.

Lemma nearest_date_filled (col : list str) (i : nat) :
  nearest_filled col i (nearest_date col i).
Proof.
  induction i as [|i IH]; simpl; destruct (nth _ col []) as [|x v] eqn:E.
  - right. split; [|reflexivity]. intros k Hk. now replace k with 0 by lia.
  - left. exists 0. rewrite E. repeat split; auto; [discriminate|]. lia.
  - destruct IH as [(j & Hj & Hn & Hk & Hv)|[Hk Hv]].
    + left. exists j. repeat split; auto. intros k Hjk.
      destruct (Nat.eq_dec k (S i)) as [->|]; [assumption|]. apply Hk. lia.
    + right. split; [|assumption]. intros k Hjk.
      destruct (Nat.eq_dec k (S i)) as [->|]; [assumption|]. apply Hk. lia.
  - left. exists (S i). rewrite E. repeat split; auto; [discriminate|]. lia.
Qed.

Lemma assign_dates_length (rs : list ParsedRow) :
  forall col,
    length col = length rs -> length (assign_dates rs col) = length rs.
Proof.
  induction rs as [|r rs IH]; intros [|v col] H; simpl in *; try lia.
  now rewrite IH by lia.
Qed.

Lemma assign_dates_nth (rs : list ParsedRow) :
  forall col i r,
    length col = length rs -> nth_error rs i = Some r ->
    nth_error (assign_dates rs col) i = Some (set_Date r (nth i col [])).
Proof.
  induction rs as [|r0 rs IH]; intros [|v col] [|i] r Hl H; simpl in *;
    try discriminate.
  - now injection H as ->.
  - apply IH; [lia|assumption].
Qed.

End FillFacts.

(** ** The clusterer *)

Section ClusterFacts.

Import Ocr.

Section SortFacts.

Variables (A K : Type) (le : K -> K -> bool) (key : A -> K).

Hypothesis le_total : forall a b, le a b = true \/ le b a = true.


Lemma insert_perm (a : A) (l : list A) :
  Permutation (insert le key a l) (a :: l).
Proof.
  induction l as [|b l IH]; simpl; [reflexivity|].
  destruct (le (key a) (key b)); [reflexivity|].
  rewrite IH. apply perm_swap.
Qed.

Lemma sort_perm (l : list A) : Permutation (sort le key l) l.
Proof.
  induction l as [|a l IH]; simpl; [reflexivity|].
  rewrite insert_perm. now constructor.
Qed.

Lemma insert_sorted (a : A) (l : list A) :
  Sorted (key_le le key) l -> Sorted (key_le le key) (insert le key a l).
Proof.
  induction 1 as [|b l Hs IH Hhd]; simpl; [repeat constructor|].
  destruct (le (key a) (key b)) eqn:E.
  - repeat constructor; assumption.
  - constructor; [assumption|].
    assert (Hba : key_le le key b a) by (destruct (le_total (key a) (key b));
                                  [congruence|assumption]).
    destruct l as [|c l]; simpl; [now constructor|].
    destruct (le (key a) (key c)); constructor; auto.
    now inversion Hhd.
Qed.

Lemma sort_sorted (l : list A) : Sorted (key_le le key) (sort le key l).
Proof.
  induction l as [|a l IH]; simpl; [constructor|now apply insert_sorted].
Qed.

End SortFacts.

Lemma pair_le_total (a b : Q * Q) : pair_le a b = true \/ pair_le b a = true.
Proof.
  unfold pair_le. destruct (Qeq_bool (fst a) (fst b)) eqn:E.
  - assert (E' : Qeq_bool (fst b) (fst a) = true).
    { apply Qeq_bool_iff. symmetry. now apply Qeq_bool_iff. }
    rewrite E'. rewrite !Qle_bool_iff.
    destruct (Qlt_le_dec (snd b) (snd a)); [right|left]; auto.
    now apply Qlt_le_weak.
  - assert (E' : Qeq_bool (fst b) (fst a) = false).
    { apply not_true_is_false. intros H. apply Qeq_bool_iff in H.
      symmetry in H. apply Qeq_bool_iff in H. congruence. }
    rewrite E'. rewrite !Qle_bool_iff.
    destruct (Qlt_le_dec (fst b) (fst a)); [right|left]; auto.
    now apply Qlt_le_weak.
Qed.


Lemma close_refl (thr y : Q) : (0 <= thr)%Q -> close thr y y = true.
Proof.
  intros H. unfold close. apply Qle_bool_iff.
  assert (E : (y - y == 0)%Q) by ring. now rewrite E.
Qed.


Lemma cluster_loop_groups (thr : Q) (ws : list word) :
  forall cy cl lines cl' lines',
    cluster_loop thr ws cy cl lines = (cl', lines') ->
    lines' ++ [flush cl'] = lines ++ map flush (split_groups thr cy cl ws) /\
    (cl <> [] -> cl' <> []).
Proof.
  induction ws as [|w ws IH]; intros cy cl lines cl' lines' H; simpl in *.
  - injection H as <- <-. auto.
  - destruct (close thr (y_center w) cy).
    + apply IH in H as [H1 H2]. split; [assumption|].
      intros _. apply H2. now destruct cl.
    + apply IH in H as [H1 H2]. rewrite <- app_assoc in H1.
      split; [assumption|]. intros _. now apply H2.
Qed.

Lemma split_groups_concat (thr : Q) (ws : list word) :
  forall anchor cur, concat (split_groups thr anchor cur ws) = cur ++ ws.
Proof.
  induction ws as [|w ws IH]; intros anchor cur; simpl.
  - reflexivity.
  - destruct (close thr (y_center w) anchor); simpl; rewrite IH;
      [now rewrite <- app_assoc|reflexivity].
Qed.

Lemma split_groups_head (thr : Q) (ws : list word) :
  forall anchor a cur,
    exists g gs, split_groups thr anchor (a :: cur) ws = (a :: g) :: gs.
Proof.
  induction ws as [|w ws IH]; intros anchor a cur; simpl; [eauto|].
  destruct (close thr (y_center w) anchor); [apply IH|eauto].
Qed.

Lemma split_groups_grouped (thr : Q) (ws : list word) :
  (0 <= thr)%Q ->
  forall a cur,
    Forall (fun w => close thr (y_center w) (y_center a) = true) (a :: cur) ->
    grouped thr (split_groups thr (y_center a) (a :: cur) ws).
Proof.
  intros Hthr. induction ws as [|w ws IH]; intros a cur Hall; simpl.
  - auto.
  - destruct (close thr (y_center w) (y_center a)) eqn:E.
    + apply (IH a (cur ++ [w])). change (a :: cur ++ [w])
        with ((a :: cur) ++ [w]). apply Forall_app. auto.
    + assert (Hw : grouped thr (split_groups thr (y_center w) [w] ws)).
      { apply IH. constructor; [now apply close_refl|constructor]. }
      destruct (split_groups_head thr ws (y_center w) w []) as (g & gs & Eg).
      rewrite Eg in *. simpl. auto.
Qed.

End ClusterFacts.

(** ** The scenarios of the specification *)

Section Scenarios.

Local Open Scope Z_scope.

Example scenario_atm :
  amounts_of (parse_line Dec.of_str (lit "01-01-23 ATM WDL 500.00 4500.00")
                None)
  = Some (50000, 0, 450000).
Proof. vm_compute. reflexivity. Qed.

Example scenario_upi_cr :
  amounts_of (parse_line Dec.of_str (lit "UPI CR From John 2000.00 9500.00")
                (Some 750000))
  = Some (0, 200000, 950000).
Proof. vm_compute. reflexivity. Qed.

Example scenario_delta :
  amounts_of (parse_line Dec.of_str (lit "Transfer in 300.00 1300.00")
                (Some 100000))
  = Some (0, 30000, 130000).
Proof. vm_compute. reflexivity. Qed.

Example scenario_header :
  parse_line Dec.of_str (lit "Date Description Debit Credit Balance") None
  = Ok None.
Proof. vm_compute. reflexivity. Qed.

Example scenario_money_text :
  clean_money Dec.of_str (lit "1,234.56") = Ok 123456.
Proof. vm_compute. reflexivity. Qed.

(** Beyond 28 digits the context rounds the difference of the balances:
    here the exact difference is within 1.00 of the amount, the rounded one
    is not, and the minus sign makes the row a debit. *)
Example scenario_rounded_difference :
  let line := lit ("X -1000000000000000000000000001.30 " ++
                   "1000000000000000000000000000.40")%string in
  amounts_of (parse_line Dec.of_str line (Some 0))
  = Some (100000000000000000000000000130, 0, 100000000000000000000000000040)
  /\ Z.abs (100000000000000000000000000040 - 0
            - 100000000000000000000000000130) <= 100.
Proof. split; [vm_compute; reflexivity|vm_compute; discriminate]. Qed.

End Scenarios.

(* ================================================================= *)
(** * The properties of the specification *)

Section Claims.

Local Open Scope Z_scope.




(** C2, as stated, fails: a movement of 0.00 leaves Debit and Credit both
    zero. *)
Lemma C2_zero_amount_counterexample :
  exists row,
    parse_line Dec.of_str (lit "A 0.00 5.00") None = Ok (Some row) /\
    emitted row /\
    ~ exactly_one_nonzero row.
Proof.
  eexists. split; [vm_compute; reflexivity|]. split.
  - eapply emitted_by_parse_line
      with (line := lit "A 0.00 5.00") (prev := None).
    vm_compute. reflexivity.
  - intros [[H _]|[_ H]]; apply H; reflexivity.
Qed.

(** C2, amended.  In every record of the engine at most one of Debit and
    Credit is non-zero; exactly one is, unless the movement amount of its
    line is 0.00, and then both are zero. *)
Theorem C2_at_most_one_nonzero (r : ParsedRow) :
  emitted r ->
  (Debit r = 0 \/ Credit r = 0) /\
  exists m2 amount,
    amount_text (raw r) = Some m2 /\
    clean_money Dec.of_str m2 = Ok amount /\
    (amount <> 0 -> exactly_one_nonzero r) /\
    (amount = 0 -> Debit r = 0 /\ Credit r = 0).
Proof.
  intros He.
  assert (H : exists ln prev, parsed_from Dec.of_str ln prev r).
  { destruct He as [line prev r Hp | lines out r Hp Hin].
    - exists line, prev, r. auto.
    - apply output_rows_parsed in Hp. rewrite Forall_forall in Hp. auto. }
  destruct H as (ln & prev & r0 & Hp & Hd & Hc & _ & Hraw).
  apply parse_line_inv in Hp
    as (pre & m2 & m1 & b & a & dc & p & Hmon & _ & _ & Ha & _ & _ & Hdc & ->).
  simpl in Hd, Hc, Hraw. unfold exactly_one_nonzero. rewrite Hd, Hc.
  split; [destruct Hdc as [-> | ->]; simpl; auto|].
  exists m2, a. unfold amount_text. rewrite Hraw, Hmon, rev_app_distr.
  repeat split; auto; destruct Hdc as [-> | ->]; simpl; auto; try lia.
Qed.

Lemma C2_at_most_one_nonzero_witness :
  exists r,
    emitted r /\
    (Debit r = 0 \/ Credit r = 0) /\
    exists m2 amount,
      amount_text (raw r) = Some m2 /\
      clean_money Dec.of_str m2 = Ok amount /\
      (amount <> 0 -> exactly_one_nonzero r) /\
      (amount = 0 -> Debit r = 0 /\ Credit r = 0).
Proof.
  assert (He : emitted (mkRow [] (lit "X") 0 100 200 (lit "X 1.00 2.00"))).
  { apply emitted_by_parse_line with (line := lit "X 1.00 2.00") (prev := None).
    vm_compute. reflexivity. }
  eexists. split; [exact He|]. exact (@C2_at_most_one_nonzero _ He).
Defined.

(** C10.  In every row that [parse_line] returns, Debit, Credit and Balance
    are not negative and at least one of Debit and Credit is exactly 0. *)
Theorem C10_amounts_nonnegative (line : str) (prev : option Z)
        (row : ParsedRow) :
  parse_line Dec.of_str line prev = Ok (Some row) ->
  0 <= Debit row /\ 0 <= Credit row /\ 0 <= Balance row /\
  (Debit row = 0 \/ Credit row = 0).
Proof.
  intros Hp. apply parse_line_inv in Hp
    as (pre & m2 & m1 & b & a & dc & p & _ & _ & Hb & _ & Ha & _ & Hdc & ->).
  destruct Hdc as [-> | ->]; simpl; repeat split; auto; lia.
Qed.

Lemma C10_amounts_nonnegative_witness :
  let line := lit "12-01-24 POS STORE 45.10 1,954.90" in
  let row := mkRow (lit "12-01-24") (lit "12-01-24 POS STORE") 4510 0 195490
                   line in
  parse_line Dec.of_str line (Some 200000) = Ok (Some row) /\
  0 <= Debit row /\ 0 <= Credit row /\ 0 <= Balance row /\
  (Debit row = 0 \/ Credit row = 0).
Proof.
  assert (Hp : parse_line Dec.of_str (lit "12-01-24 POS STORE 45.10 1,954.90")
                 (Some 200000)
               = Ok (Some (mkRow (lit "12-01-24") (lit "12-01-24 POS STORE")
                             4510 0 195490
                             (lit "12-01-24 POS STORE 45.10 1,954.90"))))
    by (vm_compute; reflexivity).
  split; [exact Hp|]. exact (@C10_amounts_nonnegative _ _ _ Hp).
Defined.




(** The hints as [parse_line] tests them, in the normalized line. *)
Lemma keyword_hint_normalized (line : str) (prev : option Z) :
  (2 <= length (monies_of (normspaces line)))%nat ->
  hinted CREDIT_HINTS (normspaces line) \/
  hinted DEBIT_HINTS (normspaces line) ->
  exists m2 amount row,
    amount_text line = Some m2 /\
    clean_money Dec.of_str m2 = Ok amount /\
    parse_line Dec.of_str line prev = Ok (Some row) /\
    (hinted CREDIT_HINTS (normspaces line) -> movement row = (0, amount)) /\
    (~ hinted CREDIT_HINTS (normspaces line) -> movement row = (amount, 0)) /\
    (forall prev', parse_line Dec.of_str line prev' = Ok (Some row)).
Proof.
  intros Hlen Hhint.
  destruct (parse_line_some line prev Hlen)
    as (pre & m2 & m1 & b & a & dc & p & Hmon & _ & _ & Ha & _ & Hdir & _ & Hp).
  exists m2, a. eexists.
  split; [exact (proj1 (@amount_text_snoc _ _ _ _ Hmon))|].
  split; [exact Ha|]. split; [exact Hp|].
  unfold movement; simpl Debit; simpl Credit.
  destruct (has_any (normspaces line) CREDIT_HINTS) eqn:Ec.
  - rewrite direction_credit_hint in Hdir by assumption.
    injection Hdir as <-. repeat split; auto.
    + intros Hn. apply (not_hinted _ CREDIT_HINTS_upper) in Hn. congruence.
    + intros prev'. rewrite <- Hp. apply parse_line_prev. intros.
      now rewrite !direction_credit_hint.
  - assert (Ed : has_any (normspaces line) DEBIT_HINTS = true).
    { destruct Hhint as [H|H].
      - apply (has_any_hinted _ CREDIT_HINTS_upper) in H. congruence.
      - now apply (has_any_hinted _ DEBIT_HINTS_upper). }
    rewrite direction_debit_hint in Hdir by assumption.
    injection Hdir as <-. repeat split; auto.
    + intros H. apply (has_any_hinted _ CREDIT_HINTS_upper) in H. congruence.
    + intros prev'. rewrite <- Hp. apply parse_line_prev. intros.
      now rewrite !direction_debit_hint.
Qed.

(** C4.  On a line with at least two money matches, a credit hint in the
    line, the case of the letters apart, makes Credit the Amount and Debit
    zero, also when a debit hint is present; without a credit hint, a debit
    hint makes Debit the Amount and Credit zero.  With a hint of either list
    the row is the same for every previous balance: the balance test is not
    consulted. *)
Theorem C4_keyword_hint_decides (line : str) (prev : option Z) :
  (2 <= length (monies_of (normspaces line)))%nat ->
  hinted CREDIT_HINTS line \/ hinted DEBIT_HINTS line ->
  exists m2 amount row,
    amount_text line = Some m2 /\
    clean_money Dec.of_str m2 = Ok amount /\
    parse_line Dec.of_str line prev = Ok (Some row) /\
    (hinted CREDIT_HINTS line -> movement row = (0, amount)) /\
    (~ hinted CREDIT_HINTS line -> movement row = (amount, 0)) /\
    (forall prev', parse_line Dec.of_str line prev' = Ok (Some row)).
Proof.
  intros Hlen Hhint.
  pose proof (hinted_normspaces line CREDIT_HINTS_solid) as Hc.
  pose proof (hinted_normspaces line DEBIT_HINTS_solid) as Hd.
  destruct (keyword_hint_normalized line prev Hlen)
    as (m2 & amount & row & Ht & Ha & Hp & H1 & H2 & H3); [tauto|].
  exists m2, amount, row. repeat split; auto.
  - intros H. apply H1. tauto.
  - intros H. apply H2. tauto.
Qed.

Lemma C4_keyword_hint_decides_witness :
  let line := lit "  UPI cr from John   ATM 2000.00 9500.00" in
  (2 <= length (monies_of (normspaces line)))%nat /\
  (hinted CREDIT_HINTS line \/ hinted DEBIT_HINTS line) /\
  exists m2 amount row,
    amount_text line = Some m2 /\
    clean_money Dec.of_str m2 = Ok amount /\
    parse_line Dec.of_str line (Some 1150000) = Ok (Some row) /\
    (hinted CREDIT_HINTS line -> movement row = (0, amount)) /\
    (~ hinted CREDIT_HINTS line -> movement row = (amount, 0)) /\
    (forall prev', parse_line Dec.of_str line prev' = Ok (Some row)).
Proof.
  assert (Hl : (2 <= length (monies_of (normspaces
                  (lit "  UPI cr from John   ATM 2000.00 9500.00"))))%nat)
    by (vm_compute; lia).
  assert (Hh : hinted CREDIT_HINTS
                 (lit "  UPI cr from John   ATM 2000.00 9500.00") \/
               hinted DEBIT_HINTS
                 (lit "  UPI cr from John   ATM 2000.00 9500.00")).
  { left. now apply (has_any_hinted _ CREDIT_HINTS_upper). }
  split; [exact Hl|]. split; [exact Hh|].
  exact (@C4_keyword_hint_decides _ (Some 1150000) Hl Hh).
Defined.

(** The first row without a hint in the normalized line. *)
Lemma first_row_normalized (line : str) :
  (2 <= length (monies_of (normspaces line)))%nat ->
  ~ hinted CREDIT_HINTS (normspaces line) ->
  ~ hinted DEBIT_HINTS (normspaces line) ->
  exists m2 amount context row,
    amount_text line = Some m2 /\
    clean_money Dec.of_str m2 = Ok amount /\
    context_of (normspaces line) m2 = Ok context /\
    ~ hinted DEBIT_HINTS context /\
    parse_line Dec.of_str line None = Ok (Some row) /\
    movement row = (0, amount).
Proof.
  intros Hlen Hc Hd.
  destruct (parse_line_some line None Hlen)
    as (pre & m2 & m1 & b & a & dc & p & Hmon & _ & _ & Ha & _ & Hdir & _ & Hp).
  apply (not_hinted _ CREDIT_HINTS_upper) in Hc.
  apply (not_hinted _ DEBIT_HINTS_upper) in Hd.
  destruct (monies_sound _ _ _ _ Hmon) as [_ [Hn2 Ho2]].
  destruct (context_of_ok Hn2 Ho2) as (bf & af & Hbf & Haf & Hctx).
  pose proof (no_hint_in_context DEBIT_HINTS_no_blank Hd Hbf Haf) as Hno.
  unfold direction, context_guess in Hdir.
  rewrite Hc, Hd, Hctx in Hdir. cbn [bind] in Hdir. rewrite Hno in Hdir.
  injection Hdir as <-.
  exists m2, a. do 2 eexists.
  split; [exact (proj1 (@amount_text_snoc _ _ _ _ Hmon))|].
  split; [exact Ha|]. split; [exact Hctx|].
  split; [now apply (not_hinted _ DEBIT_HINTS_upper)|].
  split; [exact Hp|reflexivity].
Qed.

(** C9.  On a line with at least two money matches and no credit or debit
    hint, without a previous balance, Credit is the Amount and Debit is
    zero: the context of twelve characters on each side of the amount holds
    no debit hint either. *)
Theorem C9_first_row_is_credit (line : str) :
  (2 <= length (monies_of (normspaces line)))%nat ->
  ~ hinted CREDIT_HINTS line ->
  ~ hinted DEBIT_HINTS line ->
  exists m2 amount context row,
    amount_text line = Some m2 /\
    clean_money Dec.of_str m2 = Ok amount /\
    context_of (normspaces line) m2 = Ok context /\
    ~ hinted DEBIT_HINTS context /\
    parse_line Dec.of_str line None = Ok (Some row) /\
    movement row = (0, amount).
Proof.
  intros Hlen Hc Hd. apply first_row_normalized; [assumption| |].
  - now rewrite (hinted_normspaces line CREDIT_HINTS_solid).
  - now rewrite (hinted_normspaces line DEBIT_HINTS_solid).
Qed.

Lemma C9_first_row_is_credit_witness :
  let line := lit "Opening  transfer 250.00 1,250.00 " in
  (2 <= length (monies_of (normspaces line)))%nat /\
  ~ hinted CREDIT_HINTS line /\
  ~ hinted DEBIT_HINTS line /\
  exists m2 amount context row,
    amount_text line = Some m2 /\
    clean_money Dec.of_str m2 = Ok amount /\
    context_of (normspaces line) m2 = Ok context /\
    ~ hinted DEBIT_HINTS context /\
    parse_line Dec.of_str line None = Ok (Some row) /\
    movement row = (0, amount).
Proof.
  assert (Hl : (2 <= length (monies_of (normspaces
                  (lit "Opening  transfer 250.00 1,250.00 "))))%nat)
    by (vm_compute; lia).
  assert (Hc : ~ hinted CREDIT_HINTS
                 (lit "Opening  transfer 250.00 1,250.00 "))
    by (now apply (not_hinted _ CREDIT_HINTS_upper)).
  assert (Hd : ~ hinted DEBIT_HINTS
                 (lit "Opening  transfer 250.00 1,250.00 "))
    by (now apply (not_hinted _ DEBIT_HINTS_upper)).
  split; [exact Hl|]. split; [exact Hc|]. split; [exact Hd|].
  exact (@C9_first_row_is_credit _ Hl Hc Hd).
Defined.

(** C5.  When the lines are consumed, the rows of the output are the rows
    the loop emitted, in order, each with its fields and, for its date, the
    date of the nearest emitted row at or before it that has one; a row with
    no dated row at or before it keeps the empty date.  The column
    01-01-23, empty, empty, 02-01-23, empty fills to 01-01-23, 01-01-23,
    01-01-23, 02-01-23, 02-01-23. *)
Theorem C5_forward_fill (lines : list str) (out : list ParsedRow) :
  parse_lines_to_rows Dec.of_str lines = Ok out ->
  (exists st,
     run_lines Dec.of_str start lines = Ok st /\
     length out = length (rows st) /\
     forall i r,
       nth_error (rows st) i = Some r ->
       exists r',
         nth_error out i = Some r' /\
         nearest_filled (map Date (rows st)) i (Date r') /\
         Particulars r' = Particulars r /\ movement r' = movement r /\
         Balance r' = Balance r /\ raw r' = raw r) /\
  fill_dates (map lit ["01-01-23"; ""; ""; "02-01-23"; ""]%string) =
  map lit ["01-01-23"; "01-01-23"; "01-01-23"; "02-01-23"; "02-01-23"]%string.
Proof.
  intros H. split; [|reflexivity]. unfold parse_lines_to_rows in H.
  destruct (run_lines Dec.of_str start lines) as [st|]; [|discriminate].
  cbn [bind] in H. exists st. split; [reflexivity|].
  assert (Hout : out = assign_dates (rows st)
                         (fill_dates (map Date (rows st)))).
  { destruct (rows st); now injection H as <-. }
  assert (Hlen : length (fill_dates (map Date (rows st))) = length (rows st))
    by (now rewrite fill_dates_length, length_map).
  subst out. split; [now apply assign_dates_length|].
  intros i r Hr. eexists.
  split; [apply assign_dates_nth; [exact Hlen|exact Hr]|].
  simpl. rewrite fill_dates_nth.
  2:{ rewrite length_map. apply nth_error_Some. congruence. }
  split; [apply nearest_date_filled|auto].
Qed.

Lemma C5_forward_fill_witness :
  let lines := map lit ["01-01-23 A 1.00 2.00"; "B 1.00 3.00"; "C 1.00 4.00";
                        "02-01-23 E 1.00 5.00"; "F 1.00 6.00"]%string in
  exists out,
    parse_lines_to_rows Dec.of_str lines = Ok out /\
    map Date out =
    map lit ["01-01-23"; "01-01-23"; "01-01-23"; "02-01-23"; "02-01-23"]%string
    /\
    (exists st,
       run_lines Dec.of_str start lines = Ok st /\
       length out = length (rows st) /\
       forall i r,
         nth_error (rows st) i = Some r ->
         exists r',
           nth_error out i = Some r' /\
           nearest_filled (map Date (rows st)) i (Date r') /\
           Particulars r' = Particulars r /\ movement r' = movement r /\
           Balance r' = Balance r /\ raw r' = raw r) /\
    fill_dates (map lit ["01-01-23"; ""; ""; "02-01-23"; ""]%string) =
    map lit ["01-01-23"; "01-01-23"; "01-01-23"; "02-01-23"; "02-01-23"]%string.
Proof.
  eexists. split; [vm_compute; reflexivity|]. split; [reflexivity|].
  refine (@C5_forward_fill
            (map lit ["01-01-23 A 1.00 2.00"; "B 1.00 3.00"; "C 1.00 4.00";
                      "02-01-23 E 1.00 5.00"; "F 1.00 6.00"]%string) _ _).
  vm_compute. reflexivity.
Defined.



(** C7.  A transaction line appends its row, clears the pending
    description, records the balance and leaves the pending date as it was;
    a row without a date of its own takes the pending date.  So, after a
    date-only line and until the next one, every row without a date of its
    own has the date of that line. *)
Theorem C7_pending_date_is_kept (st : assembler) (ln : str) (row : ParsedRow) :
  date_only ln = false ->
  parse_line Dec.of_str ln (prev_balance st) = Ok (Some row) ->
  (exists r,
     step_line Dec.of_str st ln =
     Ok (mkAsm (rows st ++ [r]) (Some (Balance row)) [] (pending_date st)) /\
     Date r = match Date row with [] => pending_date st | d => d end) /\
  (forall d_line lines st0 st',
     date_only d_line = true ->
     Forall (fun l => date_only l = false) lines ->
     run_lines Dec.of_str st0 (d_line :: lines) = Ok st' ->
     pending_date st' = find_date d_line /\
     exists new,
       rows st' = rows st0 ++ new /\
       Forall (fun r => Date r = match find_date (normspaces (raw r)) with
                                 | [] => find_date d_line
                                 | d => d
                                 end) new).
Proof.
  intros Hd Hp. split.
  - destruct (@step_line_transaction Dec.of_str st ln row Hd Hp)
      as (r & E & _ & _ & _ & _ & Hdate). eauto.
  - intros d_line lines st0 st' Hdl Hall H. simpl in H.
    destruct (@step_line_date_only Dec.of_str st0 d_line Hdl) as (desc & E).
    rewrite E in H. cbn [bind] in H.
    apply (@run_lines_keep_date Dec.of_str lines _ _ Hall) in H. exact H.
Qed.

Lemma C7_pending_date_is_kept_witness :
  let st := mkAsm [] (Some 100) [lit "shop"] (lit "05/01/24") in
  let ln := lit "X 1.00 2.00" in
  let row := mkRow [] (lit "X") 0 100 200 ln in
  date_only ln = false /\
  parse_line Dec.of_str ln (prev_balance st) = Ok (Some row) /\
  (exists r,
     step_line Dec.of_str st ln =
     Ok (mkAsm (rows st ++ [r]) (Some (Balance row)) [] (pending_date st)) /\
     Date r = match Date row with [] => pending_date st | d => d end) /\
  (forall d_line lines st0 st',
     date_only d_line = true ->
     Forall (fun l => date_only l = false) lines ->
     run_lines Dec.of_str st0 (d_line :: lines) = Ok st' ->
     pending_date st' = find_date d_line /\
     exists new,
       rows st' = rows st0 ++ new /\
       Forall (fun r => Date r = match find_date (normspaces (raw r)) with
                                 | [] => find_date d_line
                                 | d => d
                                 end) new).
Proof.
  assert (Hd : date_only (lit "X 1.00 2.00") = false) by reflexivity.
  assert (Hp : parse_line Dec.of_str (lit "X 1.00 2.00")
                 (prev_balance (mkAsm [] (Some 100) [lit "shop"]
                                  (lit "05/01/24")))
               = Ok (Some (mkRow [] (lit "X") 0 100 200 (lit "X 1.00 2.00"))))
    by (vm_compute; reflexivity).
  split; [exact Hd|]. split; [exact Hp|].
  exact (@C7_pending_date_is_kept _ _ _ Hd Hp).
Defined.



End Claims.

(* ================================================================= *)
(** * Further lemmas *)

(** ** [normspaces], read off the matcher *)

Section NormFacts.

Lemma star_class_eval (p : ascii -> bool) (n : nat) :
  forall bh ah,
    length ah < n ->
    star_loop (run (Chr p)) (fun st' => Some st') n (Cursor bh ah)
    = Some (skip_class p bh ah).
Proof.
  induction n as [|n IH]; intros bh ah Hn; [lia|].
  cbn [star_loop]. destruct ah as [|c t]; cbn [run ahead behind skip_class];
    [reflexivity|].
  destruct (p c); [|reflexivity].
  replace (length t <? length (c :: t)) with true
    by (symmetry; apply Nat.ltb_lt; simpl; lia).
  rewrite IH by (simpl in Hn; lia). reflexivity.
Qed.

Lemma match_here_plus_class (p : ascii -> bool) (bh ah : str) :
  match_here (Plus (Chr p)) (Cursor bh ah) =
  match ah with
  | c :: t => if p c then Some (skip_class p (c :: bh) t) else None
  | [] => None
  end.
Proof.
  unfold match_here, Plus. cbn [run ahead behind].
  destruct ah as [|c t]; [reflexivity|]. destruct (p c); [|reflexivity].
  cbn [ahead]. apply star_class_eval. lia.
Qed.

Lemma ahead_skip_class (p : ascii -> bool) (ah : str) :
  forall bh, ahead (skip_class p bh ah) = lstrip_by p ah.
Proof.
  induction ah as [|c t IH]; intros bh; simpl; [reflexivity|].
  destruct (p c); [apply IH|reflexivity].
Qed.

Lemma lstrip_suffix (p : ascii -> bool) (s : str) :
  exists w, s = w ++ lstrip_by p s /\ Forall (fun c => p c = true) w.
Proof.
  induction s as [|c t (w & IH & Hw)]; simpl; [now exists []|].
  destruct (p c) eqn:E; [|now exists []].
  exists (c :: w). split; [simpl; now f_equal|now constructor].
Qed.

Lemma search_plus_none (p : ascii -> bool) (ah : str) :
  forall bh,
    Forall (fun c => p c = false) ah ->
    search_from (Plus (Chr p)) bh ah = None.
Proof.
  induction ah as [|c t IH]; intros bh H; cbn [search_from];
    rewrite match_here_plus_class; [reflexivity|].
  inversion H as [|? ? Hc Ht]; subst. rewrite Hc. now apply IH.
Qed.

Lemma search_plus_some (p : ascii -> bool) (g : str) (c : ascii) (t : str) :
  Forall (fun x => p x = false) g -> p c = true ->
  forall bh,
    search_from (Plus (Chr p)) bh (g ++ c :: t) =
    Some (Cursor (rev g ++ bh) (c :: t),
          skip_class p (c :: rev g ++ bh) t).
Proof.
  intros Hg Hc. induction Hg as [|x g Hx Hg IH]; intros bh.
  - simpl app. destruct t; cbn [search_from];
      rewrite match_here_plus_class, Hc; reflexivity.
  - simpl app. cbn [search_from]. rewrite match_here_plus_class, Hx.
    rewrite IH. simpl rev. now rewrite <- !app_assoc.
Qed.

(** A text has no character of the class, or a first one. *)
Lemma first_of_class (p : ascii -> bool) (s : str) :
  Forall (fun c => p c = false) s \/
  exists g c t, s = g ++ c :: t /\ Forall (fun x => p x = false) g /\
                p c = true.
Proof.
  induction s as [|x s IH]; [now left|].
  destruct (p x) eqn:E.
  - right. exists [], x, s. auto.
  - destruct IH as [IH|(g & c & t & -> & Hg & Hc)].
    + left. now constructor.
    + right. exists (x :: g), c, t. repeat split; auto.
Qed.

Lemma squeeze_solid (g : str) :
  Forall (fun c => is_space c = false) g ->
  forall r, squeeze_from false (g ++ r) = g ++ squeeze_from false r.
Proof.
  induction 1 as [|x g Hx Hg IH]; intros r; simpl; [reflexivity|].
  now rewrite Hx, IH.
Qed.

Lemma squeeze_in_run (t : str) :
  squeeze_from true t = squeeze_from false (lstrip_by is_space t).
Proof.
  induction t as [|c t IH]; simpl; [reflexivity|].
  destruct (is_space c) eqn:E; [assumption|]. simpl. now rewrite E.
Qed.

(** What [re.sub(r'\s+', ' ', s)] leaves of the text ahead. *)
Lemma sub_spaces_from (fuel : nat) :
  forall st,
    length (ahead st) < fuel ->
    (let '(ps, rest) := pieces_from (Plus space) fuel st in
     concat (map (fun gm => fst gm ++ sp) ps) ++ rest)
    = squeeze_from false (ahead st).
Proof.
  induction fuel as [|fuel IH]; intros [bh ah] Hf; [simpl in Hf; lia|].
  cbn [pieces_from ahead behind]. cbn [ahead] in Hf.
  destruct (first_of_class is_space ah) as [Hno|(g & c & t & -> & Hg & Hc)].
  - unfold space. rewrite search_plus_none by assumption. simpl.
    rewrite <- (app_nil_r ah) at 2. rewrite squeeze_solid by assumption.
    simpl. now rewrite app_nil_r.
  - unfold space. rewrite search_plus_some by assumption.
    destruct (lstrip_suffix is_space t) as (w & Ht & Hw).
    set (e := skip_class is_space (c :: rev g ++ bh) t).
    assert (He : ahead e = lstrip_by is_space t) by apply ahead_skip_class.
    assert (Hm : between_cursors (Cursor (rev g ++ bh) (c :: t)) e = c :: w).
    { apply between_cursors_app. cbn [ahead]. rewrite He.
      simpl. now f_equal. }
    rewrite Hm.
    assert (Hgap : gap (Cursor bh (g ++ c :: t))
                       (Cursor (rev g ++ bh) (c :: t)) = g).
    { unfold gap. now apply between_cursors_app. }
    rewrite Hgap.
    assert (Hlen : length (ahead e) < fuel).
    { rewrite He. rewrite length_app in Hf. simpl in Hf.
      rewrite Ht in Hf. rewrite length_app in Hf. lia. }
    specialize (IH e Hlen). fold space in IH.
    unfold space in IH.
    destruct (pieces_from (Plus (Chr is_space)) fuel e) as [ps rest].
    cbv beta iota in IH. cbn [map concat fst snd].
    rewrite <- !app_assoc.
    transitivity (g ++ sp ++ squeeze_from false (ahead e));
      [do 2 f_equal; exact IH|]. rewrite He.
    rewrite squeeze_solid by assumption. simpl. rewrite Hc.
    now rewrite squeeze_in_run.
Qed.

Lemma sub_spaces_squeeze (s : str) :
  Re.sub (Plus space) sp s = squeeze_from false s.
Proof.
  unfold Re.sub, pieces.
  apply (sub_spaces_from (fuel := S (length s)) (Cursor [] s)). simpl. lia.
Qed.

Lemma lstrip_app (p : ascii -> bool) (a b : str) :
  lstrip_by p (a ++ b) =
  if forallb p a then lstrip_by p b else lstrip_by p a ++ b.
Proof.
  induction a as [|c a IH]; simpl; [reflexivity|].
  destruct (p c); [exact IH|reflexivity].
Qed.

Lemma forallb_rev (p : ascii -> bool) (s : str) :
  forallb p (rev s) = forallb p s.
Proof.
  induction s as [|c s IH]; simpl; [reflexivity|].
  rewrite forallb_app, IH. simpl. rewrite andb_true_r. apply andb_comm.
Qed.

Lemma rstrip_app (p : ascii -> bool) (x y : str) :
  rstrip_by p (x ++ y) =
  if forallb p y then rstrip_by p x else x ++ rstrip_by p y.
Proof.
  unfold rstrip_by. rewrite rev_app_distr, lstrip_app, forallb_rev.
  destruct (forallb p y); [reflexivity|].
  now rewrite rev_app_distr, rev_involutive.
Qed.

Lemma lstrip_all (p : ascii -> bool) (s : str) :
  forallb p s = true -> lstrip_by p s = [].
Proof.
  induction s as [|c s IH]; simpl; [reflexivity|].
  destruct (p c); [exact IH|discriminate].
Qed.

(** A text between blanks is what [strip] keeps of it, when it is empty or
    begins and ends with characters that are not blanks. *)
Lemma strip_between (p : ascii -> bool) (pre j post : str) :
  forallb p pre = true -> forallb p post = true ->
  j = [] \/
  (exists c j', j = c :: j' /\ p c = false) /\
  (exists x z, j = x ++ [z] /\ p z = false) ->
  strip_by p (pre ++ j ++ post) = j.
Proof.
  intros Hpre Hpost Hj. unfold strip_by. rewrite lstrip_app, Hpre.
  destruct Hj as [-> | [(c & j' & -> & Hc) (x & z & Hx & Hz)]].
  - simpl. rewrite lstrip_all by assumption. reflexivity.
  - assert (Hl : lstrip_by p ((c :: j') ++ post) = (c :: j') ++ post)
      by (simpl; now rewrite Hc).
    rewrite Hl, rstrip_app, Hpost, Hx, rstrip_app. simpl. rewrite Hz.
    unfold rstrip_by. simpl. now rewrite Hz.
Qed.

Lemma words_nil (s : str) : words s = [] <-> forallb is_space s = true.
Proof.
  induction s as [|c t IH]; simpl; [tauto|].
  destruct (is_space c) eqn:E; [exact IH|].
  split; [|discriminate].
  destruct t as [|d t']; [discriminate|].
  destruct (is_space d); [discriminate|].
  destruct (words (d :: t')); discriminate.
Qed.

Lemma words_eq (c : ascii) (t : str) :
  words (c :: t) =
  if is_space c then words t
  else match t with
       | [] => [[c]]
       | d :: _ =>
           if is_space d then [c] :: words t
           else match words t with
                | w :: ws => (c :: w) :: ws
                | [] => [[c]]
                end
       end.
Proof. reflexivity. Qed.

Lemma words_cons_solid (c d : ascii) (t : str) :
  is_space c = false -> is_space d = false ->
  exists w ws, words (d :: t) = w :: ws /\
               words (c :: d :: t) = (c :: w) :: ws.
Proof.
  intros Hc Hd.
  assert (Hne : words (d :: t) <> []).
  { intros H. apply words_nil in H. simpl in H. now rewrite Hd in H. }
  destruct (words (d :: t)) as [|w ws] eqn:E; [contradiction|].
  exists w, ws. split; [reflexivity|].
  rewrite (words_eq c (d :: t)), Hc, Hd. now rewrite E.
Qed.

Lemma words_solid (s : str) : Forall solid (words s).
Proof.
  induction s as [|c t IH]; [constructor|].
  destruct (is_space c) eqn:Hc; [simpl; now rewrite Hc|].
  destruct t as [|d t'].
  - simpl. rewrite Hc. repeat constructor; [discriminate|assumption].
  - destruct (is_space d) eqn:Hd.
    + rewrite (words_eq c (d :: t')), Hc, Hd.
      constructor; [|assumption].
      repeat constructor; [discriminate|assumption].
    + destruct (@words_cons_solid c d t' Hc Hd) as (w & ws & E & ->).
      rewrite E in IH. inversion IH as [|? ? [Hn Hw] Hws]; subst.
      constructor; [|assumption]. split; [discriminate|now constructor].
Qed.

Lemma ends_blank_all (s : str) :
  s <> [] -> forallb is_space s = true -> ends_blank s = true.
Proof.
  induction s as [|c t IH]; intros Hn H; [contradiction|].
  simpl in H. apply andb_true_iff in H as [Hc Ht].
  destruct t as [|d t']; [exact Hc|].
  change (ends_blank (c :: d :: t')) with (ends_blank (d :: t')).
  apply IH; [discriminate|assumption].
Qed.

Lemma join_cons_char (c : ascii) (w : str) (ws : list str) :
  join sp ((c :: w) :: ws) = c :: join sp (w :: ws).
Proof. destruct ws; reflexivity. Qed.

Lemma squeeze_eq (b : bool) (c : ascii) (t : str) :
  squeeze_from b (c :: t) =
  if is_space c
  then if b then squeeze_from true t else " "%char :: squeeze_from true t
  else c :: squeeze_from false t.
Proof. reflexivity. Qed.

(** The squeezed text is the words with one space between them, and one
    space before or after where the text began or ended with a blank. *)
Lemma squeeze_words (s : str) :
  forall b,
    squeeze_from b s =
    (if starts_blank s && negb b then sp else []) ++
    join sp (words s) ++
    (if ends_blank s && match words s with [] => false | _ => true end
     then sp else []).
Proof.
  induction s as [|c t IH]; intros b; [reflexivity|].
  rewrite squeeze_eq, words_eq.
  change (starts_blank (c :: t)) with (is_space c).
  destruct (is_space c) eqn:Hc.
  - rewrite (IH true), andb_false_r. cbn [app].
    assert (He : ends_blank (c :: t) &&
                 match words t with [] => false | _ => true end =
                 ends_blank t &&
                 match words t with [] => false | _ => true end).
    { destruct t as [|d t']; [simpl; now rewrite andb_false_r|reflexivity]. }
    rewrite He. destruct b; reflexivity.
  - cbn [andb app]. destruct t as [|d t']; [simpl; now rewrite Hc|].
    rewrite (IH false), andb_true_r.
    change (ends_blank (c :: d :: t')) with (ends_blank (d :: t')).
    change (starts_blank (d :: t')) with (is_space d).
    destruct (is_space d) eqn:Hd.
    + remember (words (d :: t')) as W eqn:EW. destruct W as [|w ws].
      * symmetry in EW. apply words_nil in EW.
        rewrite (@ends_blank_all (d :: t')) by (discriminate || assumption).
        reflexivity.
      * cbn [andb]. rewrite andb_true_r.
        change (join sp ([c] :: w :: ws)) with ([c] ++ sp ++ join sp (w :: ws)).
        reflexivity.
    + destruct (@words_cons_solid c d t' Hc Hd) as (w & ws & E & _).
      rewrite E, join_cons_char. cbn [app]. rewrite !andb_true_r.
      reflexivity.
Qed.

Lemma join_solid_trimmed (ws : list str) :
  Forall solid ws -> ws <> [] ->
  (exists c j', join sp ws = c :: j' /\ is_space c = false) /\
  (exists x z, join sp ws = x ++ [z] /\ is_space z = false).
Proof.
  intros Hs Hn. split.
  - destruct ws as [|[|c w] ws]; [contradiction| |].
    + inversion Hs as [|? ? [H _] _]; now contradiction H.
    + inversion Hs as [|? ? [_ Hw] _]; subst. inversion Hw; subst.
      exists c. rewrite join_cons_char. eauto.
  - induction Hs as [|w ws [Hne Hw] Hs IH]; [contradiction|].
    destruct ws as [|w2 ws'].
    + simpl. destruct (exists_last Hne) as (x & z & ->).
      exists x, z. split; [reflexivity|].
      apply Forall_app in Hw as [_ Hz]. now inversion Hz.
    + destruct IH as (x & z & E & Hz); [discriminate|].
      exists (w ++ sp ++ x), z. split; [|assumption].
      change (join sp (w :: w2 :: ws')) with (w ++ sp ++ join sp (w2 :: ws')).
      rewrite E. now rewrite <- !app_assoc.
Qed.

(** [normspaces(s)] is [" ".join(s.split())]. *)
Lemma normspaces_words (s : str) : normspaces s = join sp (words s).
Proof.
  unfold normspaces, strip. rewrite sub_spaces_squeeze, squeeze_words.
  apply strip_between.
  - destruct (_ && _); reflexivity.
  - destruct (_ && _); reflexivity.
  - destruct (words s) as [|w ws] eqn:E; [now left|]. right.
    rewrite <- E. apply join_solid_trimmed; [apply words_solid|].
    rewrite E. discriminate.
Qed.

End NormFacts.

Section NormFacts2.

Lemma words_word_then_blank (w r : str) (b : ascii) :
  solid w -> is_space b = true -> words (w ++ b :: r) = w :: words r.
Proof.
  intros [Hn Hw] Hb. induction Hw as [|c w Hc Hw IH]; [contradiction|].
  destruct w as [|d w'].
  - simpl app. rewrite words_eq, Hc, Hb. now rewrite (words_eq b r), Hb.
  - inversion Hw as [|? ? Hd _]; subst.
    change ((c :: d :: w') ++ b :: r) with (c :: d :: (w' ++ b :: r)).
    rewrite words_eq, Hc, Hd.
    change (d :: w' ++ b :: r) with ((d :: w') ++ b :: r).
    now rewrite IH by discriminate.
Qed.

Lemma words_one (w : str) : solid w -> words w = [w].
Proof.
  intros [Hn Hw]. induction Hw as [|c w Hc Hw IH]; [contradiction|].
  destruct w as [|d w']; [simpl; now rewrite Hc|].
  inversion Hw as [|? ? Hd _]; subst.
  rewrite words_eq, Hc, Hd. now rewrite IH by discriminate.
Qed.

Lemma words_join (ws : list str) :
  Forall solid ws -> words (join sp ws) = ws.
Proof.
  induction 1 as [|w ws Hw Hws IH]; [reflexivity|].
  destruct ws as [|w2 ws']; [now apply words_one|].
  change (join sp (w :: w2 :: ws'))
    with (w ++ " "%char :: join sp (w2 :: ws')).
  rewrite words_word_then_blank by (assumption || reflexivity).
  now rewrite IH.
Qed.

Lemma words_concat (s : str) :
  concat (words s) = filter (fun c => negb (is_space c)) s.
Proof.
  induction s as [|c t IH]; [reflexivity|].
  rewrite words_eq. cbn [filter]. destruct (is_space c) eqn:Hc; [exact IH|].
  cbn [negb]. destruct t as [|d t']; [reflexivity|].
  destruct (is_space d) eqn:Hd.
  - cbn [concat app]. now rewrite IH.
  - destruct (@words_cons_solid c d t' Hc Hd) as (w & ws & E & _).
    rewrite E in *. cbn [concat app] in *. now rewrite IH.
Qed.

Lemma normspaces_idem (s : str) : normspaces (normspaces s) = normspaces s.
Proof.
  rewrite (normspaces_words s), normspaces_words.
  now rewrite words_join by apply words_solid.
Qed.

End NormFacts2.


Unset Implicit Arguments.

(** ** What normalization means downstream *)

Section LineFacts.

Ltac by_cases c :=
  destruct c as [[] [] [] [] [] [] [] []]; try discriminate; try reflexivity.

Lemma parse_line_norm (D : str -> result Z) (l1 l2 : str) (prev : option Z) :
  normspaces l1 = normspaces l2 ->
  fields_of (parse_line D l1 prev) = fields_of (parse_line D l2 prev).
Proof.
  intros E. unfold parse_line. rewrite E.
  destruct (_ <? _)%nat; [reflexivity|].
  destruct (index_back _ 1) as [m1|]; [|reflexivity]. cbn [bind].
  destruct (index_back _ 2) as [m2|]; [|reflexivity]. cbn [bind].
  destruct (clean_money D m1) as [b|[]]; cbn [bind]; try reflexivity.
  destruct (clean_money D m2) as [a|[]]; cbn [bind]; try reflexivity.
  destruct (direction _ _ _ _ _) as [dc|]; [|reflexivity]. cbn [bind].
  destruct (particulars_of _ _ _) as [p|]; reflexivity.
Qed.

Lemma linebreak_space (c : ascii) :
  Pdf.is_linebreak c = true -> is_space c = true.
Proof. by_cases c. Qed.

Lemma linebreak_not_sp (c : ascii) :
  Pdf.is_linebreak c = true -> c <> " "%char.
Proof. by_cases c. Qed.

Lemma in_join (c : ascii) (ws : list str) :
  In c (join sp ws) -> c = " "%char \/ exists w, In w ws /\ In c w.
Proof.
  induction ws as [|w [|w2 ws'] IH]; [intros []| |].
  - cbn [join]. intros H. right. exists w. split; [now left|assumption].
  - change (join sp (w :: w2 :: ws')) with (w ++ sp ++ join sp (w2 :: ws')).
    intros H. apply in_app_or in H as [H|H].
    + right. exists w. split; [now left|assumption].
    + apply in_app_or in H as [[H|[]]|H]; [now left|].
      destruct (IH H) as [?|(w' & ? & ?)]; [now left|].
      right. exists w'. split; [now right|assumption].
Qed.

Lemma normspaces_one_line (s : str) : one_line (normspaces s).
Proof.
  rewrite normspaces_words. apply Forall_forall. intros c Hc.
  destruct (Pdf.is_linebreak c) eqn:E; [exfalso|reflexivity].
  apply in_join in Hc as [->|(w & Hw & Hc)]; [discriminate|].
  pose proof (words_solid s) as Hs.
  rewrite Forall_forall in Hs. destruct (Hs w Hw) as [_ Hall].
  rewrite Forall_forall in Hall. apply linebreak_space in E.
  rewrite (Hall c Hc) in E. discriminate.
Qed.

Lemma filter_join_solid (ws : list str) :
  Forall solid ws ->
  filter (fun c => negb (is_space c)) (join sp ws) = concat ws.
Proof.
  intros H. rewrite <- words_concat. now rewrite words_join.
Qed.

Lemma normspaces_content (s : str) :
  filter (fun c => negb (is_space c)) (normspaces s) =
  filter (fun c => negb (is_space c)) s.
Proof.
  rewrite normspaces_words, filter_join_solid by apply words_solid.
  apply words_concat.
Qed.

Lemma filter_filter_linebreak (s : str) :
  filter (fun c => negb (is_space c))
         (filter (fun c => negb (Pdf.is_linebreak c)) s) =
  filter (fun c => negb (is_space c)) s.
Proof.
  induction s as [|c t IH]; [reflexivity|]. cbn [filter].
  destruct (Pdf.is_linebreak c) eqn:E; cbn [negb filter].
  - now rewrite (linebreak_space c E).
  - now rewrite IH.
Qed.

Lemma splitlines_from_spec (n : nat) :
  forall s cur,
    length s <= n ->
    Forall (fun c => Pdf.is_linebreak c = false) cur ->
    concat (Pdf.splitlines_from cur s) =
    rev cur ++ filter (fun c => negb (Pdf.is_linebreak c)) s /\
    Forall (fun p => one_line p /\ occurs p (rev cur ++ s))
           (Pdf.splitlines_from cur s).
Proof.
  induction n as [|n IH]; intros s cur Hlen Hcur.
  - destruct s; [|simpl in Hlen; lia]. cbn [Pdf.splitlines_from filter].
    rewrite app_nil_r. destruct cur as [|c cur'].
    + split; [reflexivity|constructor].
    + split; [cbn [concat]; now rewrite app_nil_r|].
      constructor; [|constructor]. split.
      * unfold one_line. now apply Forall_rev.
      * exists [], []. now rewrite app_nil_r.
  - destruct s as [|c t].
    + apply IH; [simpl; lia|assumption].
    + cbn [Pdf.splitlines_from filter]. simpl in Hlen.
      destruct (Pdf.is_linebreak c) eqn:Ec; cbn [negb].
      * assert (Hhd : one_line (rev cur) /\
                      occurs (rev cur) (rev cur ++ c :: t)).
        { split; [now apply Forall_rev|]. exists [], (c :: t). reflexivity. }
        assert (Hshift : forall p x, occurs p (rev [] ++ x) ->
                  forall pre, rev cur ++ c :: t = pre ++ x ->
                  occurs p (rev cur ++ c :: t)).
        { intros p x (a & b & E) pre Ex. exists (pre ++ a), b.
          rewrite Ex. simpl in E. rewrite E. now rewrite <- app_assoc. }
        assert (Hplain :
          concat (rev cur :: Pdf.splitlines_from [] t) =
          rev cur ++ filter (fun c => negb (Pdf.is_linebreak c)) t /\
          Forall (fun p => one_line p /\ occurs p (rev cur ++ c :: t))
                 (rev cur :: Pdf.splitlines_from [] t)).
        { destruct (IH t [] ltac:(lia) ltac:(constructor)) as [E1 E2].
          split; [cbn [concat]; now rewrite E1|].
          constructor; [exact Hhd|].
          eapply Forall_impl; [|exact E2]. intros p [Hp Ho].
          split; [exact Hp|].
          apply (Hshift p t Ho (rev cur ++ [c])).
          now rewrite <- app_assoc. }
        destruct t as [|d t']; [exact Hplain|].
        destruct ((code c =? 13)%N && (code d =? 10)%N) eqn:Ecr;
          [|exact Hplain].
        assert (Ed : Pdf.is_linebreak d = true).
        { apply andb_prop in Ecr as [_ Ed]. apply N.eqb_eq in Ed.
          unfold Pdf.is_linebreak, between. rewrite Ed. reflexivity. }
        destruct (IH t' [] ltac:(simpl in *; lia) ltac:(constructor))
          as [E1 E2].
        split.
        -- cbn [concat filter]. rewrite Ed. cbn [negb]. now rewrite E1.
        -- constructor; [exact Hhd|].
           eapply Forall_impl; [|exact E2]. intros p [Hp Ho].
           split; [exact Hp|].
           apply (Hshift p t' Ho (rev cur ++ [c; d])).
           now rewrite <- app_assoc.
      * destruct (IH t (c :: cur) ltac:(lia)) as [E1 E2];
          [now constructor|].
        cbn [rev] in *. rewrite <- app_assoc in *. split; assumption.
Qed.

Lemma splitlines_spec (s : str) :
  concat (Pdf.splitlines s) =
  filter (fun c => negb (Pdf.is_linebreak c)) s /\
  Forall (fun p => one_line p /\ occurs p s) (Pdf.splitlines s).
Proof.
  exact (splitlines_from_spec (length s) s [] (le_n _) (Forall_nil _)).
Qed.

Lemma content_map_normspaces (ps : list str) :
  filter (fun c => negb (is_space c))
         (concat (filter (fun ln => match ln with [] => false | _ => true end)
                         (map normspaces ps))) =
  filter (fun c => negb (is_space c)) (concat ps).
Proof.
  induction ps as [|p ps IH]; [reflexivity|]. cbn [map filter concat].
  rewrite filter_app, <- IH, <- (normspaces_content p).
  destruct (normspaces p); [reflexivity|].
  cbn [concat]. now rewrite filter_app.
Qed.

Lemma extract_content (pages : list str) :
  filter (fun c => negb (is_space c))
         (concat (Pdf.extract_text_lines_from_pdf pages)) =
  filter (fun c => negb (is_space c)) (concat pages).
Proof.
  unfold Pdf.extract_text_lines_from_pdf.
  induction pages as [|t pages IH]; [reflexivity|].
  cbn [flat_map concat]. rewrite concat_app, !filter_app, IH. f_equal.
  rewrite content_map_normspaces, (proj1 (splitlines_spec t)).
  apply filter_filter_linebreak.
Qed.

Lemma extract_lines (pages : list str) (ln : str) :
  In ln (Pdf.extract_text_lines_from_pdf pages) ->
  ln <> [] /\
  exists page piece,
    In page pages /\ occurs piece page /\ one_line piece /\
    ln = normspaces piece.
Proof.
  unfold Pdf.extract_text_lines_from_pdf. intros H.
  apply in_flat_map in H as (page & Hpage & H).
  apply filter_In in H as [H Hne]. apply in_map_iff in H as (piece & <- & H).
  split; [now destruct (normspaces piece)|].
  exists page, piece. split; [assumption|].
  pose proof (proj2 (splitlines_spec page)) as Hall.
  rewrite Forall_forall in Hall. destruct (Hall piece H). auto.
Qed.

End LineFacts.

(** ** The lines of the clusterer *)

Section OcrFacts.

Import Ocr.

Lemma cluster_split (thr : Q) (ws : list word) :
  (0 <= thr)%Q ->
  exists groups,
    concat groups = sort pair_le fst ws /\
    grouped thr groups /\
    cluster thr ws = map flush groups /\
    (forall w0 rest,
       sort pair_le fst ws = w0 :: rest ->
       groups = split_groups thr (y_center w0) [w0] rest).
Proof.
  intros Hthr. unfold cluster.
  destruct (sort pair_le fst ws) as [|w0 rest].
  - exists []. repeat split; auto. discriminate.
  - exists (split_groups thr (y_center w0) [w0] rest).
    split; [apply split_groups_concat|].
    split.
    { apply split_groups_grouped; [assumption|].
      constructor; [now apply close_refl|constructor]. }
    split; [|now intros ? ? [= <- <-]].
    cbn [cluster_loop]. rewrite close_refl by assumption.
    match goal with
    | |- context [cluster_loop ?t ?ws ?cy ?cl ?ls] =>
        destruct (cluster_loop t ws cy cl ls) as [cl' lines'] eqn:E
    end.
    apply cluster_loop_groups in E as [E Hne]. simpl in E.
    destruct cl' as [|c cl']; [now contradiction Hne|]. exact E.
Qed.

Lemma grouped_nonempty (thr : Q) (gs : list (list word)) :
  grouped thr gs -> Forall (fun g => g <> []) gs.
Proof.
  induction gs as [|g gs IH]; [constructor|].
  cbn [grouped]. destruct g as [|a g']; [intros []|].
  intros (_ & _ & H). constructor; [discriminate|auto].
Qed.

Lemma length_concat_nonempty (A : Type) (gs : list (list A)) :
  Forall (fun g => g <> []) gs -> length gs <= length (concat gs).
Proof.
  induction 1 as [|g gs Hg _ IH]; [apply le_n|].
  cbn [concat length]. rewrite length_app.
  destruct g; [contradiction|]. simpl. lia.
Qed.

Lemma cluster_count (thr : Q) (ws : list word) :
  (0 <= thr)%Q ->
  length (cluster thr ws) <= length ws /\
  (cluster thr ws = [] <-> ws = []).
Proof.
  intros Hthr. destruct (cluster_split thr ws Hthr) as (gs & Hc & Hg & E & _).
  pose proof (sort_perm pair_le fst ws) as Hperm.
  rewrite E, length_map. split.
  - apply Nat.le_trans with (length (concat gs)).
    + apply length_concat_nonempty, (grouped_nonempty thr), Hg.
    + rewrite Hc. apply Nat.eq_le_incl, Permutation_length, Hperm.
  - split.
    + intros H. destruct gs; [|discriminate]. cbn [concat] in Hc.
      rewrite <- Hc in Hperm. now apply Permutation_nil.
    + intros ->. cbn in Hc. apply (grouped_nonempty thr) in Hg.
      destruct gs as [|g gs]; [reflexivity|].
      inversion Hg as [|? ? Hne _]. destruct g; [contradiction|discriminate].
Qed.

Lemma flush_normalized (g : list word) : normspaces (flush g) = flush g.
Proof. apply normspaces_idem. Qed.







End OcrFacts.

(** ** Money matches and their values *)

Section AmountFacts.

Local Open Scope Z_scope.

Ltac by_cases c :=
  destruct c as [[] [] [] [] [] [] [] []]; try discriminate; try reflexivity.

Lemma digit_or_comma (ip : str) :
  Forall (fun x => is_digit x = true \/ x = ","%char) ip ->
  filter (fun x => negb (Ascii.eqb ","%char x)) ip = filter is_digit ip.
Proof.
  induction 1 as [|x ip Hx _ IH]; [reflexivity|]. cbn [filter].
  destruct Hx as [Hx | ->].
  - now rewrite Hx, (digit_not_comma x Hx), IH.
  - exact IH.
Qed.

Lemma money_text_digits (c d1 d2 : ascii) (ip : str) :
  is_digit c = true ->
  Forall (fun x => is_digit x = true \/ x = ","%char) ip ->
  is_digit d1 = true -> is_digit d2 = true ->
  filter is_digit ((c :: ip) ++ "."%char :: [d1; d2]) =
  (c :: filter is_digit ip) ++ [d1; d2].
Proof.
  intros Hc Hip H1 H2. rewrite filter_app. cbn [filter].
  rewrite Hc, H1, H2. reflexivity.
Qed.

(** The value of a money match: the number its digits write. *)
Lemma clean_money_value (w : str) :
  lang MONEY_RX w ->
  clean_money Dec.of_str w = Ok (Dec.digits_val 0 (filter is_digit w)).
Proof.
  intros Hw. apply lang_money_text in Hw as (c & ip & d1 & d2 & -> & Hc & Hip
                                            & Hd1 & Hd2).
  rewrite (money_text_digits c d1 d2 ip Hc Hip Hd1 Hd2).
  rewrite <- (digit_or_comma ip Hip).
  unfold clean_money, lit. simpl list_ascii_of_string.
  rewrite replace_char_filter.
  set (f := fun x => negb (Ascii.eqb ","%char x)).
  assert (Hk : forall x l, f x = true -> filter f (x :: l) = x :: filter f l).
  { intros x l Hx. cbn [filter]. now rewrite Hx. }
  assert (Hdig : forall x, is_digit x = true -> f x = true).
  { intros x Hx. unfold f. now rewrite digit_not_comma. }
  rewrite filter_app, (Hk c), (Hk "."%char), (Hk d1), (Hk d2) by auto.
  change (filter f []) with (@nil ascii).
  set (ip' := filter f ip).
  assert (Hip' : Forall (fun x => is_digit x = true) ip').
  { apply Forall_forall. intros x Hx. apply filter_In in Hx as [Hx Hn].
    rewrite Forall_forall in Hip.
    destruct (Hip x Hx) as [H | ->]; [assumption|].
    discriminate Hn. }
  change (c :: ip' ++ ["."%char; d1; d2])
    with ((c :: ip') ++ ["."%char; d1; d2]).
  replace (strip ((c :: ip') ++ ["."%char; d1; d2]))
    with ((c :: ip') ++ ["."%char; d1; d2]).
  2:{ unfold strip. symmetry.
      replace ((c :: ip') ++ ["."%char; d1; d2])
        with (c :: (ip' ++ ["."%char; d1]) ++ [d2])
        by (simpl; now rewrite <- app_assoc).
      apply strip_by_keep; auto using digit_not_space. }
  now rewrite of_str_fixed_point by assumption.
Qed.

End AmountFacts.

(** ** Matches in their place *)

Section PlaceFacts.

Lemma run_leads (A : Type) (r : regex) :
  forall (st : cursor) (k : cursor -> option A) (x : A),
    run r st k = Some x -> exists st', leads r st st' /\ k st' = Some x.
Proof.
  induction r as [|p|a IHa b IHb|a IHa b IHb|a IHa|p|p| |]; intros st k x H.
  - exists st. now split.
  - simpl in H. destruct st as [bh [|c t]]; simpl in H; [discriminate|].
    destruct (p c) eqn:Hp; [|discriminate].
    exists (Cursor (c :: bh) t). split; [|assumption].
    exists c, t. auto.
  - simpl in H. apply IHa in H as (st1 & H1 & H).
    apply IHb in H as (st2 & H2 & H).
    exists st2. split; [exists st1; auto|assumption].
  - simpl in H. destruct (run a st k) eqn:E.
    + injection H as ->. apply IHa in E as (st' & ? & ?).
      exists st'. simpl; auto.
    + apply IHb in H as (st' & ? & ?). exists st'. simpl; auto.
  - cbn [run] in H. remember (S (length (ahead st))) as n eqn:En. clear En.
    revert st H. induction n as [|n IHn]; intros st H.
    + exists st. split; [now exists []|assumption].
    + cbn [star_loop] in H.
      match type of H with
      | match ?m with _ => _ end = _ => destruct m as [y|] eqn:E
      end.
      * injection H as ->. apply IHa in E as (st1 & H1 & E).
        destruct (length (ahead st1) <? length (ahead st)); [|discriminate].
        apply IHn in E as (st2 & (path & Hp) & E).
        exists st2. split; [|assumption]. exists (st1 :: path).
        now split.
      * exists st. split; [now exists []|assumption].
  - simpl in H. destruct (holds_at p (behind st)) eqn:E; [discriminate|].
    exists st. now repeat split.
  - simpl in H. destruct (holds_at p (ahead st)) eqn:E; [discriminate|].
    exists st. now repeat split.
  - simpl in H. destruct (xorb _ _) eqn:E; [|discriminate].
    exists st. now repeat split.
  - simpl in H. destruct (at_end _) eqn:E; [|discriminate].
    exists st. now repeat split.
Qed.

(** The text an expression reads on its way. *)
Lemma leads_moved (r : regex) :
  forall st st', leads r st st' -> exists w, moved st st' w /\ lang r w.
Proof.
  induction r as [|p|a IHa b IHb|a IHa b IHb|a IHa|p|p| |]; intros st st' H;
    cbn [leads] in H.
  - subst. exists []. split; [apply moved_nil|reflexivity].
  - destruct H as (c & t & Ha & Hp & ->). exists [c].
    split; [split; [exact Ha|reflexivity]|]. exists c. auto.
  - destruct H as (m & H1 & H2).
    apply IHa in H1 as (u & Hu & Lu). apply IHb in H2 as (v & Hv & Lv).
    exists (u ++ v). split; [eapply moved_app; eauto|]. exists u, v. auto.
  - destruct H as [H|H]; [apply IHa in H|apply IHb in H];
      destruct H as (w & ? & ?); exists w; simpl; auto.
  - destruct H as (path & H). revert st H.
    induction path as [|m path IHp]; intros st H; cbn [chain] in H.
    + subst. exists []. split; [apply moved_nil|]. now exists [].
    + destruct H as [H1 H2]. apply IHa in H1 as (u & Hu & Lu).
      apply IHp in H2 as (v & Hv & ws & -> & Hws).
      exists (u ++ concat ws). split; [eapply moved_app; eauto|].
      exists (u :: ws). split; [reflexivity|now constructor].
  - destruct H as [-> _]. exists []. split; [apply moved_nil|reflexivity].
  - destruct H as [-> _]. exists []. split; [apply moved_nil|reflexivity].
  - destruct H as [-> _]. exists []. split; [apply moved_nil|reflexivity].
  - destruct H as [-> _]. exists []. split; [apply moved_nil|reflexivity].
Qed.

Lemma stands_in_moved (s : str) (st st' : cursor) (w : str) :
  stands_in s st -> moved st st' w -> stands_in s st'.
Proof.
  unfold stands_in. intros <- [H1 H2].
  now rewrite H2, H1, rev_app_distr, rev_involutive, <- app_assoc.
Qed.

Lemma search_from_leads (r : regex) (line ah : str) :
  forall (bh : str) (s e : cursor),
    stands_in line (Cursor bh ah) ->
    search_from r bh ah = Some (s, e) ->
    stands_in line s /\ leads r s e /\
    exists g, ah = g ++ ahead s.
Proof.
  induction ah as [|c t IH]; intros bh s e Hin H; cbn [search_from] in H.
  - destruct (match_here r (Cursor bh [])) as [e'|] eqn:E; [|discriminate].
    injection H as <- <-. apply run_leads in E as (st' & Hl & [= ->]).
    split; [assumption|]. split; [assumption|]. now exists [].
  - destruct (match_here r (Cursor bh (c :: t))) as [e'|] eqn:E.
    + injection H as <- <-. apply run_leads in E as (st' & Hl & [= ->]).
      split; [assumption|]. split; [assumption|]. now exists [].
    + apply IH in H as (H1 & H2 & g & Hg).
      * split; [assumption|]. split; [assumption|].
        exists (c :: g). simpl. now f_equal.
      * unfold stands_in in *. cbn [behind ahead rev] in *.
        now rewrite <- app_assoc.
Qed.

Lemma leads_match_in (r : regex) (line : str) (s e : cursor) :
  stands_in line s -> leads r s e ->
  match_in r line (between_cursors s e) /\ stands_in line e.
Proof.
  intros Hin Hl. destruct (leads_moved r s e Hl) as (w & Hm & _).
  split; [|eapply stands_in_moved; eauto].
  destruct Hm as [H1 H2]. rewrite (@between_cursors_app s e w H1).
  exists (rev (behind s)), (ahead e). split.
  - unfold stands_in in Hin. now rewrite <- Hin, H1.
  - rewrite rev_involutive, <- H1, <- H2. now destruct s, e.
Qed.

Lemma search_match_in (r : regex) (s m : str) :
  Re.search r s = Some m -> match_in r s m.
Proof.
  unfold Re.search. destruct (search_from r [] s) as [[b e]|] eqn:E;
    [|discriminate].
  intros [= <-].
  apply (search_from_leads r s) in E as (H1 & H2 & _); [|reflexivity].
  now apply leads_match_in.
Qed.

Lemma pieces_from_match_in (r : regex) (line : str) (fuel : nat) :
  forall (st : cursor) (ps : list (str * str)) (rest : str),
    stands_in line st ->
    pieces_from r fuel st = (ps, rest) ->
    Forall (fun gm => match_in r line (snd gm)) ps.
Proof.
  induction fuel as [|fuel IH]; intros st ps rest Hin H; simpl in H.
  - injection H as <- <-. constructor.
  - destruct (search_from r (behind st) (ahead st)) as [[s e]|] eqn:E.
    2:{ injection H as <- <-. constructor. }
    apply (search_from_leads r line) in E as (H1 & H2 & _);
      [|now destruct st].
    destruct (leads_match_in r line s e H1 H2) as [Hm He].
    destruct (between_cursors s e) as [|c w]; [injection H as <- <-; auto|].
    destruct (pieces_from r fuel e) as [ps' rest'] eqn:E'.
    injection H as <- <-. constructor; [exact Hm|].
    eapply IH; eauto.
Qed.

Lemma findall_match_in (r : regex) (s m : str) :
  In m (findall r s) -> match_in r s m.
Proof.
  unfold findall, pieces. intros Hin.
  destruct (pieces_from r (S (length s)) (Cursor [] s)) as [ps rest] eqn:E.
  apply (pieces_from_match_in r s) in E; [|reflexivity].
  simpl in Hin. apply in_map_iff in Hin as (gm & <- & Hin).
  rewrite Forall_forall in E. now apply E.
Qed.

End PlaceFacts.

(** ** Money matches and dates in their place *)

Section GrammarFacts.

Ltac by_cases c :=
  destruct c as [[] [] [] [] [] [] [] []]; try discriminate; try reflexivity.

Lemma money_delimited (s e : cursor) :
  leads MONEY_RX s e ->
  holds_at is_digit (behind s) = false /\ holds_at is_digit (ahead e) = false.
Proof.
  unfold MONEY_RX. cbn [leads].
  intros (m1 & [-> Hb] & m2 & _ & m3 & _ & m4 & _ & [-> Ha]). auto.
Qed.

Lemma money_match_delimited (line m : str) :
  match_in MONEY_RX line m ->
  exists a b,
    line = a ++ m ++ b /\
    holds_at is_digit (rev a) = false /\ holds_at is_digit b = false.
Proof.
  intros (a & b & E & H). exists a, b. split; [exact E|].
  exact (money_delimited _ _ H).
Qed.

Lemma lang_times_class (p : ascii -> bool) (n : nat) :
  forall w, lang (Times n (Chr p)) w ->
            length w = n /\ Forall (fun c => p c = true) w.
Proof.
  induction n as [|n IH]; intros w H; cbn [Times lang] in H.
  - subst. split; [reflexivity|constructor].
  - destruct H as (u & v & -> & (c & -> & Hc) & Hv).
    destruct (IH v Hv) as [Hl Hf]. split; [simpl; now f_equal|].
    now constructor.
Qed.

Lemma lang_upto_class (p : ascii -> bool) (n : nat) :
  forall w, lang (UpTo n (Chr p)) w ->
            length w <= n /\ Forall (fun c => p c = true) w.
Proof.
  induction n as [|n IH]; intros w H; cbn [UpTo Opt lang] in H.
  - subst. split; [apply le_n|constructor].
  - destruct H as [(u & v & -> & (c & -> & Hc) & Hv) | ->].
    + destruct (IH v Hv) as [Hl Hf]. split; [simpl; lia|].
      now constructor.
    + split; [simpl; lia|constructor].
Qed.

Lemma lang_rep_class (p : ascii -> bool) (lo hi : nat) (w : str) :
  lang (Rep lo hi (Chr p)) w ->
  lo <= length w <= lo + (hi - lo) /\ Forall (fun c => p c = true) w.
Proof.
  unfold Rep. cbn [lang]. intros (u & v & -> & Hu & Hv).
  apply lang_times_class in Hu as [Hu Fu].
  apply lang_upto_class in Hv as [Hv Fv].
  rewrite length_app. split; [lia|]. apply Forall_app. auto.
Qed.

Lemma lang_plus_nonempty (r : regex) (w : str) :
  (forall u, lang r u -> u <> []) -> lang (Plus r) w -> 1 <= length w.
Proof.
  intros Hr. unfold Plus. cbn [lang]. intros (u & v & -> & Hu & _).
  specialize (Hr u Hu). rewrite length_app. destruct u; [contradiction|].
  simpl. lia.
Qed.

Lemma lang_chr_one (p : ascii -> bool) (w : str) :
  lang (Chr p) w -> length w = 1.
Proof. intros (c & -> & _). reflexivity. Qed.

(** A text of digits that is not empty: its first and its last character. *)
Lemma digits_ends (w : str) :
  1 <= length w -> Forall (fun c => is_digit c = true) w ->
  (exists c t, w = c :: t /\ is_digit c = true) /\
  (exists t c, w = t ++ [c] /\ is_digit c = true).
Proof.
  intros Hl Hf. split.
  - destruct w as [|c t]; [simpl in Hl; lia|]. exists c, t.
    inversion Hf. auto.
  - destruct (exists_last (l := w)) as (t & c & ->).
    { intros ->. simpl in Hl. lia. }
    exists t, c. apply Forall_app in Hf as [_ Hf]. inversion Hf. auto.
Qed.

(** The shape the three date grammars share: a day of digits, a middle of
    at least three characters, a year of at least two digits. *)
Lemma date_lang_parts (rx : regex) (d : str) :
  In rx DATE_RXES -> lang rx d ->
  exists day mid year,
    d = day ++ mid ++ year /\
    1 <= length day <= 2 /\ Forall (fun c => is_digit c = true) day /\
    3 <= length mid /\
    2 <= length year <= 4 /\ Forall (fun c => is_digit c = true) year.
Proof.
  intros Hin H. unfold DATE_RXES in Hin.
  destruct Hin as [<-|[<-|[<-|[]]]]; cbn [lang] in H;
    destruct H as (u0 & w0 & -> & -> & day & w1 & -> & Hday
                   & s1 & w2 & -> & Hs1 & mon & w3 & -> & Hmon
                   & s2 & w4 & -> & Hs2 & year & w5 & -> & Hyear & ->);
    apply lang_rep_class in Hday as [Hday Fday];
    apply lang_rep_class in Hyear as [Hyear Fyear];
    exists day, (s1 ++ mon ++ s2), year;
    (split; [simpl; now rewrite app_nil_r, <- !app_assoc|]);
    (split; [simpl in Hday; lia|]); (split; [assumption|]);
    (split; [|split; [simpl in Hyear; lia|assumption]]);
    rewrite !length_app.
  - apply lang_chr_one in Hs1, Hs2. apply lang_rep_class in Hmon as [Hm _].
    lia.
  - apply lang_plus_nonempty in Hs1, Hs2;
      try (intros u (c & -> & _); discriminate).
    apply lang_rep_class in Hmon as [Hm _]. lia.
  - apply lang_chr_one in Hs1, Hs2. apply lang_times_class in Hmon as [Hm _].
    lia.
Qed.

Lemma date_lang_shape (rx : regex) (d : str) :
  In rx DATE_RXES -> lang rx d ->
  6 <= length d /\
  (exists c t, d = c :: t /\ is_digit c = true) /\
  (exists t c, d = t ++ [c] /\ is_digit c = true).
Proof.
  intros Hin H.
  destruct (date_lang_parts rx d Hin H)
    as (day & mid & year & -> & Hd & Fd & Hm & Hy & Fy).
  rewrite !length_app. split; [lia|].
  destruct (digits_ends day) as [(c & t & -> & Hc) _]; [lia|assumption|].
  destruct (digits_ends year) as [_ (t' & c' & -> & Hc')]; [lia|assumption|].
  split.
  - exists c, (t ++ mid ++ t' ++ [c']). auto.
  - exists ((c :: t) ++ mid ++ t'), c'. split; [|assumption].
    now rewrite <- !app_assoc.
Qed.

Lemma date_boundaries (rx : regex) (s e : cursor) :
  In rx DATE_RXES -> leads rx s e ->
  xorb (word_at (behind s)) (word_at (ahead s)) = true /\
  xorb (word_at (behind e)) (word_at (ahead e)) = true.
Proof.
  intros Hin H. unfold DATE_RXES in Hin.
  destruct Hin as [<-|[<-|[<-|[]]]]; cbn [leads] in H;
    destruct H as (m0 & [-> Hb] & m1 & _ & m2 & _ & m3 & _ & m4 & _ & m5 & _
                   & [-> Ha]); auto.
Qed.

Lemma digit_is_word (c : ascii) : is_digit c = true -> is_word c = true.
Proof. by_cases c. Qed.

Lemma date_match_apart (rx : regex) (s d : str) :
  In rx DATE_RXES -> match_in rx s d ->
  exists a b,
    s = a ++ d ++ b /\ word_at (rev a) = false /\ word_at b = false.
Proof.
  intros Hin (a & b & E & H). exists a, b. split; [exact E|].
  destruct (leads_moved _ _ _ H) as (w & [Hw _] & Hl).
  cbn [ahead] in Hw. apply app_inv_tail in Hw. subst w.
  destruct (date_lang_shape rx d Hin Hl)
    as (_ & (c & t & E1 & Hc) & (t' & c' & E2 & Hc')).
  destruct (date_boundaries rx _ _ Hin H) as [H1 H2].
  cbn [ahead behind] in H1, H2. split.
  - rewrite E1 in H1. cbn [app word_at] in H1.
    rewrite (digit_is_word c Hc) in H1. now destruct (word_at (rev a)).
  - rewrite E2, rev_app_distr in H2. cbn [rev app word_at] in H2.
    rewrite (digit_is_word c' Hc') in H2. now destruct (word_at b).
Qed.

Lemma search_lang (r : regex) (s m : str) :
  Re.search r s = Some m -> lang r m /\ occurs m s.
Proof.
  intros H. apply search_match_in in H as (a & b & E & H).
  destruct (leads_moved _ _ _ H) as (w & [Hw _] & Hl).
  cbn [ahead] in Hw. apply app_inv_tail in Hw. subst w.
  split; [assumption|now exists a, b].
Qed.

Lemma find_date_in_cases (rxes : list regex) (s : str) :
  (Forall (fun rx => Re.search rx s = None) rxes /\
   find_date_in rxes s = []) \/
  exists rx, In rx rxes /\ Re.search rx s = Some (find_date_in rxes s).
Proof.
  induction rxes as [|rx rxes IH]; [left; split; [constructor|reflexivity]|].
  cbn [find_date_in]. destruct (Re.search rx s) as [m|] eqn:E.
  - right. exists rx. split; [now left|assumption].
  - destruct IH as [[Hall Hd]|(rx' & Hin & Hs)].
    + left. split; [now constructor|assumption].
    + right. exists rx'. split; [now right|assumption].
Qed.

(** The first grammar has no letter. *)
Lemma numeric_date_no_letter (d : str) :
  lang (hd Eps DATE_RXES) d -> existsb is_alpha d = false.
Proof.
  intros H.
  assert (Hall : Forall (fun c => is_alpha c = false) d).
  { eapply lang_chars_within; [|exact H].
    cbn [hd DATE_RXES chars_within Rep Times UpTo Opt digit date_sep OneOf
         Nat.sub].
    repeat split; try exact I; intros c Hc; revert Hc; by_cases c. }
  clear H. induction Hall as [|c t Hc _ IH]; [reflexivity|].
  cbn [existsb]. rewrite Hc. exact IH.
Qed.

End GrammarFacts.

(** ** Where the money grammar is sure to match *)

Section FoundFacts.

(** Greedy repetition of a class reads on when the rest matches after the
    characters of the class. *)
Lemma star_class_found (A : Type) (p : ascii -> bool)
      (k : cursor -> option A) (ds : str) :
  Forall (fun c => p c = true) ds ->
  forall n bh ah,
    length (ds ++ ah) < n ->
    (exists x, k (Cursor (rev ds ++ bh) ah) = Some x) ->
    exists x, star_loop (run (Chr p)) k n (Cursor bh (ds ++ ah)) = Some x.
Proof.
  induction 1 as [|c ds Hc _ IH]; intros n bh ah Hn Hk.
  - destruct n as [|n]; [lia|]. cbn [star_loop].
    match goal with
    | |- exists x, match ?m with _ => _ end = _ => destruct m as [y|]
    end; [eauto|exact Hk].
  - destruct n as [|n]; [lia|].
    cbn [star_loop run ahead behind app]. rewrite Hc.
    replace (length (ds ++ ah) <? length (c :: ds ++ ah)) with true
      by (symmetry; apply Nat.ltb_lt; simpl; lia).
    destruct (IH n (c :: bh) ah) as (x & E).
    + simpl in Hn. lia.
    + cbn [rev] in Hk. now rewrite <- app_assoc in Hk.
    + cbn [run] in E. rewrite E. eauto.
Qed.

(** Digits, a point and two digits, with no digit before or after: the
    money grammar matches there. *)
Lemma money_here (bh ds : str) (x y : ascii) (tl : str) :
  holds_at is_digit bh = false ->
  ds <> [] -> Forall (fun c => is_digit c = true) ds ->
  is_digit x = true -> is_digit y = true ->
  holds_at is_digit tl = false ->
  exists e,
    match_here MONEY_RX (Cursor bh (ds ++ "."%char :: x :: y :: tl)) = Some e.
Proof.
  intros Hbh Hne Hds Hx Hy Htl. unfold match_here, MONEY_RX.
  cbn [run behind]. rewrite Hbh.
  match goal with
  | |- exists e, match ?m with _ => _ end = _ => destruct m as [e1|]
  end; [eauto|].
  destruct ds as [|c ds]; [contradiction|].
  inversion Hds as [|? ? Hc Hds']; subst.
  unfold Plus, digit. cbn [run ahead behind app]. rewrite Hc.
  apply star_class_found; [assumption|simpl; lia|].
  unfold Is. cbn [run ahead behind Times].
  change (Ascii.eqb "."%char "."%char) with true. cbv iota.
  rewrite Hx, Hy. cbn [ahead]. rewrite Htl. eauto.
Qed.

Lemma search_from_found (r : regex) (g : str) :
  forall bh ah e,
    match_here r (Cursor (rev g ++ bh) ah) = Some e ->
    exists se, search_from r bh (g ++ ah) = Some se.
Proof.
  induction g as [|c g IH]; intros bh ah e H.
  - cbn [rev app] in *. destruct ah; cbn [search_from]; rewrite H; eauto.
  - cbn [app search_from].
    destruct (match_here r (Cursor bh (c :: g ++ ah))); [eauto|].
    apply (IH (c :: bh) ah e). cbn [rev] in H.
    now rewrite <- app_assoc in H.
Qed.

Lemma search_found (r : regex) (g ah : str) (e : cursor) :
  match_here r (Cursor (rev g) ah) = Some e ->
  exists m, Re.search r (g ++ ah) = Some m.
Proof.
  intros H. unfold Re.search.
  destruct (search_from_found r g [] ah e) as ([s e'] & ->);
    [now rewrite app_nil_r|eauto].
Qed.

(** The first match of the scan is the match of the search. *)
Lemma findall_first (r : regex) (s m : str) :
  Re.search r s = Some m -> m <> [] ->
  exists ms, findall r s = m :: ms.
Proof.
  unfold Re.search, findall, pieces. cbn [pieces_from ahead behind].
  destruct (search_from r [] s) as [[b e]|]; [|discriminate].
  intros [= ->] Hm. destruct m as [|c m]; [contradiction|].
  destruct (pieces_from r (length s) e) as [ps rest]. simpl. eauto.
Qed.

Lemma money_found (pre ds : str) (x y : ascii) (post : str) :
  holds_at is_digit (rev pre) = false ->
  ds <> [] -> Forall (fun c => is_digit c = true) ds ->
  is_digit x = true -> is_digit y = true ->
  holds_at is_digit post = false ->
  exists m, Re.search MONEY_RX (pre ++ ds ++ "."%char :: x :: y :: post)
            = Some m.
Proof.
  intros Hpre Hne Hds Hx Hy Hpost.
  destruct (money_here (rev pre) ds x y post) as (e & He); auto.
  exact (search_found MONEY_RX pre _ e He).
Qed.

Lemma date_only_money (ln m : str) :
  Re.search MONEY_RX ln = Some m -> date_only ln = false.
Proof.
  intros H. unfold date_only. rewrite H. now destruct (find_date ln).
Qed.

Lemma step_line_keeps_date (D : str -> result Z) (st st' : assembler)
      (ln : str) :
  date_only ln = false -> step_line D st ln = Ok st' ->
  pending_date st' = pending_date st.
Proof.
  intros Hd H. apply step_line_cases in H. rewrite Hd in H.
  destruct H as [[_ H]|(_ & H & _)]; exact H.
Qed.

End FoundFacts.

(** ** Hints, as [has_any] tests them *)

Section HintFacts2.

Ltac by_cases c :=
  destruct c as [[] [] [] [] [] [] [] []]; try discriminate; try reflexivity.

Lemma contains_upper_fixed (w s : str) :
  contains w (upper s) = true -> upper w = w.
Proof.
  intros H. apply contains_occurs, occurs_upper_inv in H
    as (a & m & b & _ & <-).
  apply upper_idem.
Qed.

Lemma has_any_spec (words : list str) (s : str) :
  has_any s words = true <->
  exists w, In w words /\ upper w = w /\ occurs_nocase w s.
Proof.
  unfold has_any. rewrite existsb_exists. split.
  - intros (w & Hin & Hc). exists w. split; [assumption|].
    pose proof (contains_upper_fixed w s Hc) as Hw. split; [assumption|].
    apply contains_occurs, occurs_upper_inv in Hc as (a & m & b & -> & Hm).
    exists a, m, b. split; [reflexivity|]. now rewrite Hw.
  - intros (w & Hin & Hw & a & m & b & -> & Hm). exists w.
    split; [assumption|]. apply contains_occurs. rewrite <- Hw, <- Hm.
    apply occurs_upper. now exists a, b.
Qed.



(** A hint that contains another hint of the list adds nothing. *)
Lemma contains_trans (w' w s : str) :
  occurs w' w -> contains w s = true -> contains w' s = true.
Proof.
  intros H1 H2. apply contains_occurs. apply contains_occurs in H2.
  eapply occurs_trans; eauto.
Qed.

Lemma has_any_cons (s w : str) (words : list str) :
  has_any s (w :: words) = contains w (upper s) || has_any s words.
Proof. reflexivity. Qed.

Lemma has_any_app (s : str) (l1 l2 : list str) :
  has_any s (l1 ++ l2) = has_any s l1 || has_any s l2.
Proof. unfold has_any. apply existsb_app. Qed.

Lemma has_any_redundant (s w w' : str) (l1 l2 : list str) :
  In w' (l1 ++ l2) -> occurs w' w ->
  has_any s (l1 ++ w :: l2) = has_any s (l1 ++ l2).
Proof.
  intros Hin Hocc. rewrite !has_any_app, has_any_cons.
  destruct (contains w (upper s)) eqn:E; [|reflexivity].
  assert (H : has_any s (l1 ++ l2) = true).
  { unfold has_any. apply existsb_exists. exists w'.
    split; [assumption|]. eapply contains_trans; eauto. }
  rewrite has_any_app in H. rewrite H. now destruct (has_any s l1).
Qed.

End HintFacts2.

(** ** The balance test on exact movements *)

Section DeltaFacts.

Local Open Scope Z_scope.

Lemma direction_by_balance (line m2 : str) (a b prev : Z) :
  has_any line CREDIT_HINTS = false -> has_any line DEBIT_HINTS = false ->
  m2 <> [] ->
  exact_range prev -> exact_range b -> exact_range a ->
  direction line m2 a b (Some prev) =
  Ok (balance_delta_rule 100 prev b a
        (if minus_before line m2 then (a, 0) else (0, a))).
Proof.
  intros Hc Hd Hm Rp Rb Ra. unfold direction. rewrite Hc, Hd. cbv zeta.
  rewrite sign_guess_ok by assumption.
  unfold exact_range in Rp, Rb, Ra.
  change (10 ^ 26) with 100000000000000000000000000 in Rp, Rb, Ra.
  unfold Dec.sub, Dec.add, Dec.abs, tolerance.
  rewrite (@fix_ctx_exact (b - prev)) by lia.
  rewrite (@fix_ctx_exact (b - prev - a)) by lia.
  rewrite (@fix_ctx_exact (b - prev + a)) by lia.
  rewrite !fix_ctx_exact by lia.
  unfold balance_delta_rule.
  destruct (Z.abs (b - prev - a) <=? 100); [reflexivity|].
  destruct (Z.abs (b - prev + a) <=? 100); reflexivity.
Qed.

Lemma delta_exact_credit (prev a : Z) (fb : Z * Z) :
  balance_delta_rule 100 prev (prev + a) a fb = (0, a).
Proof.
  unfold balance_delta_rule. cbv zeta.
  replace (prev + a - prev - a) with 0 by lia. reflexivity.
Qed.

Lemma delta_exact_debit (prev a : Z) (fb : Z * Z) :
  0 <= a ->
  balance_delta_rule 100 prev (prev - a) a fb =
  if a <=? 50 then (0, a) else (a, 0).
Proof.
  intros Ha. unfold balance_delta_rule. cbv zeta.
  replace (prev - a - prev + a) with 0 by lia.
  replace (Z.abs (prev - a - prev - a)) with (2 * a) by lia.
  destruct (a <=? 50) eqn:E.
  - apply Z.leb_le in E. replace (2 * a <=? 100) with true; [reflexivity|].
    symmetry. apply Z.leb_le. lia.
  - apply Z.leb_gt in E. replace (2 * a <=? 100) with false; [reflexivity|].
    symmetry. apply Z.leb_gt. lia.
Qed.

End DeltaFacts.

(** ** The loop of [parse_lines_to_rows], line by line *)

Section LoopFacts.

Variable D : str -> result Z.

Lemma step_noise (st : assembler) (ln : str) :
  noise_line ln = true -> step_line D st ln = Ok st.
Proof.
  unfold noise_line. intros H.
  apply andb_true_iff in H as [H Ha]. apply andb_true_iff in H as [Hd Hm].
  apply negb_true_iff in Hd, Ha. apply Nat.ltb_lt in Hm.
  rewrite (@step_line_other D st ln Hd).
  rewrite (@parse_line_few D ln (prev_balance st) Hm). cbn [bind].
  now rewrite Ha.
Qed.

Lemma step_fragment (st : assembler) (ln : str) :
  fragment_line ln = true ->
  step_line D st ln =
  Ok (mkAsm (rows st) (prev_balance st) (pending_desc st ++ [ln])
        (pending_date st)).
Proof.
  unfold fragment_line. intros H.
  apply andb_true_iff in H as [H Ha]. apply andb_true_iff in H as [Hd Hm].
  apply negb_true_iff in Hd. apply Nat.ltb_lt in Hm.
  rewrite (@step_line_other D st ln Hd).
  rewrite (@parse_line_few D ln (prev_balance st) Hm). cbn [bind].
  now rewrite Ha.
Qed.

Lemma run_lines_app (l1 l2 : list str) :
  forall st,
    run_lines D st (l1 ++ l2) =
    (st1 <- run_lines D st l1 ;; run_lines D st1 l2).
Proof.
  induction l1 as [|ln l1 IH]; intros st; [reflexivity|].
  cbn [app run_lines]. destruct (step_line D st ln) as [st1|]; cbn [bind];
    [apply IH|reflexivity].
Qed.

Lemma run_fragments (fs : list str) :
  Forall (fun l => fragment_line l = true) fs ->
  forall st,
    run_lines D st fs =
    Ok (mkAsm (rows st) (prev_balance st) (pending_desc st ++ fs)
          (pending_date st)).
Proof.
  induction 1 as [|ln fs Hln _ IH]; intros st.
  - cbn [run_lines]. rewrite app_nil_r. now destruct st.
  - cbn [run_lines]. rewrite (step_fragment st ln Hln). cbn [bind].
    rewrite IH. cbn [rows prev_balance pending_desc pending_date].
    now rewrite <- app_assoc.
Qed.

Lemma run_noise (lines : list str) :
  forall st,
    run_lines D st (filter (fun l => negb (noise_line l)) lines) =
    run_lines D st lines.
Proof.
  induction lines as [|ln lines IH]; intros st; [reflexivity|].
  cbn [filter run_lines]. destruct (noise_line ln) eqn:E; cbn [negb].
  - rewrite (step_noise st ln E). cbn [bind]. apply IH.
  - cbn [run_lines]. destruct (step_line D st ln); cbn [bind];
      [apply IH|reflexivity].
Qed.

Lemma particulars_normalized (line m1 m2 p : str) :
  particulars_of line m1 m2 = Ok p -> normspaces p = p.
Proof.
  unfold particulars_of.
  destruct (rsplit1 m1 line) as [parts|]; cbn [bind]; [|discriminate].
  destruct (index parts 0) as [tail|]; cbn [bind]; [|discriminate].
  destruct (rsplit1 m2 tail) as [parts'|]; cbn [bind]; [|discriminate].
  destruct (index parts' 0) as [tail'|]; cbn [bind]; [|discriminate].
  intros [= <-]. apply normspaces_idem.
Qed.

Lemma parse_line_particulars (line : str) (prev : option Z)
      (row : ParsedRow) :
  parse_line D line prev = Ok (Some row) ->
  normspaces (Particulars row) = Particulars row.
Proof.
  unfold parse_line. intros H.
  destruct (_ <? _)%nat; [discriminate|].
  destruct (index_back _ 1) as [m1|]; [|discriminate]. cbn [bind] in H.
  destruct (index_back _ 2) as [m2|]; [|discriminate]. cbn [bind] in H.
  destruct (clean_money D m1) as [b|e1]; cbn [bind] in H;
    [|destruct e1; discriminate].
  destruct (clean_money D m2) as [a|e2]; cbn [bind] in H;
    [|destruct e2; discriminate].
  destruct (direction _ _ _ _ _) as [dc|]; [|discriminate]. cbn [bind] in H.
  destruct (particulars_of _ _ _) as [p|] eqn:Ep; [|discriminate].
  cbn [bind] in H. injection H as <-. cbn [Particulars].
  eapply particulars_normalized; eauto.
Qed.

(** A transaction line: the state it leaves, with the particulars it
    stitches. *)
Lemma step_transaction (st : assembler) (ln : str) (r0 : ParsedRow) :
  date_only ln = false ->
  parse_line D ln (prev_balance st) = Ok (Some r0) ->
  exists r,
    step_line D st ln =
    Ok (mkAsm (rows st ++ [r]) (Some (Balance r)) [] (pending_date st)) /\
    parsed_from D (raw r) (prev_balance st) r /\ raw r = ln /\
    Particulars r =
    match pending_desc st with
    | [] => Particulars r0
    | ds => normspaces (join sp ds ++ sp ++ Particulars r0)
    end.
Proof.
  intros Hd Hp. rewrite (@step_line_other D st ln Hd), Hp. cbn [bind].
  destruct (@parse_line_date_raw D ln _ r0 Hp) as [_ Hraw].
  assert (Hpf : forall r,
             Debit r = Debit r0 -> Credit r = Credit r0 ->
             Balance r = Balance r0 -> raw r = raw r0 ->
             parsed_from D (raw r) (prev_balance st) r).
  { intros r H1 H2 H3 H4. exists r0. rewrite H4, Hraw. auto. }
  destruct (pending_desc st) as [|f fs] eqn:Ef;
    destruct (Date r0) as [|c d] eqn:Ed;
    destruct (pending_date st) as [|c' d'] eqn:Ep;
    cbv zeta; eexists; (split; [reflexivity|]);
    (split; [apply Hpf; reflexivity|]); (split; [exact Hraw|]);
    reflexivity.
Qed.

Lemma step_line_balance (st st' : assembler) (ln : str) :
  step_line D st ln = Ok st' ->
  (rows st' = rows st /\ prev_balance st' = prev_balance st) \/
  (exists r,
     rows st' = rows st ++ [r] /\ prev_balance st' = Some (Balance r) /\
     parsed_from D (raw r) (prev_balance st) r /\
     normspaces (Particulars r) = Particulars r).
Proof.
  intros H. destruct (date_only ln) eqn:Hd.
  - destruct (@step_line_date_only D st ln Hd) as (desc & E).
    rewrite E in H. injection H as <-. left. auto.
  - destruct (parse_line D ln (prev_balance st)) as [[r0|]|e] eqn:Hp.
    + destruct (step_transaction st ln r0 Hd Hp) as (r & E & H1 & _ & H3).
      rewrite E in H. injection H as <-. right. exists r.
      cbn [rows prev_balance]. repeat split; auto.
      rewrite H3. destruct (pending_desc st); [|apply normspaces_idem].
      eapply parse_line_particulars; eauto.
    + rewrite (@step_line_other D st ln Hd), Hp in H. cbn [bind] in H.
      destruct (existsb is_alpha ln); injection H as <-; left; auto.
    + rewrite (@step_line_other D st ln Hd), Hp in H. discriminate.
Qed.

Lemma last_balance_snoc (p : option Z) (rs : list ParsedRow)
      (r : ParsedRow) :
  last_balance p (rs ++ [r]) = Some (Balance r).
Proof. unfold last_balance. now rewrite fold_left_app. Qed.

Lemma chained_snoc (rs : list ParsedRow) :
  forall p r,
    chained D p rs -> parsed_from D (raw r) (last_balance p rs) r ->
    chained D p (rs ++ [r]).
Proof.
  induction rs as [|x rs IH]; intros p r Hc Hr.
  - cbn [app chained]. auto.
  - cbn [app chained] in *. destruct Hc as [Hx Hc]. split; [exact Hx|].
    apply IH; assumption.
Qed.

Lemma run_lines_chained (lines : list str) :
  forall st st' p,
    run_lines D st lines = Ok st' ->
    chained D p (rows st) -> prev_balance st = last_balance p (rows st) ->
    Forall (fun r => normspaces (Particulars r) = Particulars r) (rows st) ->
    chained D p (rows st') /\
    prev_balance st' = last_balance p (rows st') /\
    Forall (fun r => normspaces (Particulars r) = Particulars r) (rows st').
Proof.
  induction lines as [|ln lines IH]; intros st st' p H Hc Hb Hn;
    cbn [run_lines] in H.
  - injection H as <-. auto.
  - destruct (step_line D st ln) as [st1|] eqn:E; [|discriminate].
    cbn [bind] in H. apply (IH st1 st' p H).
    + apply step_line_balance in E
        as [[E1 E2]|(r & E1 & E2 & Hr & _)]; rewrite E1; [assumption|].
      apply chained_snoc; [assumption|]. now rewrite <- Hb.
    + apply step_line_balance in E
        as [[E1 E2]|(r & E1 & E2 & Hr & _)]; rewrite E1, E2;
        [assumption|]. now rewrite last_balance_snoc.
    + apply step_line_balance in E
        as [[E1 E2]|(r & E1 & E2 & _ & Hr)]; rewrite E1; [assumption|].
      apply Forall_app. auto.
Qed.

Lemma assign_dates_chained (rs : list ParsedRow) :
  forall p col,
    length col = length rs -> chained D p rs ->
    chained D p (assign_dates rs col).
Proof.
  induction rs as [|r rs IH]; intros p [|v col] Hl Hc; try discriminate;
    [exact I|].
  cbn [assign_dates chained] in *. destruct Hc as [Hr Hc]. split.
  - destruct Hr as (r0 & ? & ? & ? & ? & ?). exists r0.
    cbn [set_Date raw Debit Credit Balance]. auto.
  - apply IH; [now injection Hl|exact Hc].
Qed.

Lemma assign_dates_fields (rs : list ParsedRow) :
  forall col,
    length col = length rs ->
    map raw (assign_dates rs col) = map raw rs /\
    map Particulars (assign_dates rs col) = map Particulars rs /\
    map Date (assign_dates rs col) = col.
Proof.
  induction rs as [|r rs IH]; intros [|v col] Hl; try discriminate;
    [auto|].
  cbn [assign_dates map]. destruct (IH col) as (H1 & H2 & H3);
    [now injection Hl|].
  rewrite H1, H2, H3. auto.
Qed.

(** The rows of the output are the rows of the loop, dated. *)
Lemma output_of_loop (lines : list str) (out : list ParsedRow) :
  parse_lines_to_rows D lines = Ok out ->
  exists st,
    run_lines D start lines = Ok st /\
    out = assign_dates (rows st) (fill_dates (map Date (rows st))).
Proof.
  unfold parse_lines_to_rows. intros H.
  destruct (run_lines D start lines) as [st|]; [|discriminate].
  cbn [bind] in H. exists st. split; [reflexivity|].
  destruct (rows st); now injection H as <-.
Qed.

End LoopFacts.

(** ** Which lines give rows, and what the rows keep *)

Section RowFacts.






(** ** The fill pass, once more *)

Lemma fill_from_idem (col : list str) :
  forall last last' : option str,
    match last' with Some v => v | None => [] end =
    match last with Some v => v | None => [] end ->
    fillna [] (ffill_from last'
      (replace_empty_na
         (fillna [] (ffill_from last (replace_empty_na col))))) =
    fillna [] (ffill_from last (replace_empty_na col)).
Proof.
  induction col as [|c col IH]; intros last last' Hv; [reflexivity|].
  destruct c as [|x c].
  - cbn [replace_empty_na map ffill_from fillna].
    destruct last as [[|y v]|]; cbn [replace_empty_na map ffill_from fillna].
    + destruct last' as [v'|]; cbn [fillna map] in *; subst;
        f_equal; apply IH; reflexivity.
    + f_equal. apply IH. reflexivity.
    + destruct last' as [v'|]; cbn [fillna map] in *; subst;
        f_equal; apply IH; reflexivity.
  - cbn [replace_empty_na map ffill_from fillna]. f_equal.
    apply IH. reflexivity.
Qed.

Lemma fill_dates_idem (col : list str) :
  fill_dates (fill_dates col) = fill_dates col.
Proof. unfold fill_dates, ffill. now apply fill_from_idem. Qed.

Lemma nearest_date_stays (col : list str) (i j : nat) :
  i <= j -> nearest_date col i <> [] -> nearest_date col j <> [].
Proof.
  induction 1 as [|j Hij IH]; [auto|]. intros H. specialize (IH H).
  cbn [nearest_date]. destruct (nth (S j) col []); [exact IH|discriminate].
Qed.

Lemma fill_dates_stays (col : list str) (i j : nat) :
  i <= j -> j < length col ->
  nth i (fill_dates col) [] <> [] -> nth j (fill_dates col) [] <> [].
Proof.
  intros Hij Hj. rewrite !fill_dates_nth by lia.
  now apply nearest_date_stays.
Qed.

(** ** The words of a stitched description *)

Lemma words_app_blank (a r : str) (b : ascii) :
  is_space b = true -> words (a ++ b :: r) = words a ++ words r.
Proof.
  intros Hb. induction a as [|c t IH].
  - cbn [app]. now rewrite words_eq, Hb.
  - cbn [app]. rewrite (words_eq c (t ++ b :: r)), (words_eq c t).
    destruct (is_space c) eqn:Hc; [exact IH|].
    destruct t as [|d t'].
    + cbn [app]. rewrite Hb. now rewrite (words_eq b r), Hb.
    + cbn [app] in *. destruct (is_space d) eqn:Hd.
      * now rewrite IH.
      * rewrite IH.
        destruct (@words_cons_solid c d t' Hc Hd) as (w & ws & E & _).
        now rewrite E.
Qed.

Lemma words_join_any (ds : list str) :
  words (join sp ds) = concat (map words ds).
Proof.
  induction ds as [|d [|d2 ds'] IH]; [reflexivity| |].
  - cbn [join map concat]. now rewrite app_nil_r.
  - change (join sp (d :: d2 :: ds'))
      with (d ++ " "%char :: join sp (d2 :: ds')).
    rewrite words_app_blank by reflexivity. now rewrite IH.
Qed.

Lemma stitched_words (ds : list str) (p : str) :
  normspaces p = p ->
  match ds with
  | [] => p
  | _ => normspaces (join sp ds ++ sp ++ p)
  end = join sp (concat (map words ds) ++ words p).
Proof.
  intros Hp. destruct ds as [|d ds'].
  - cbn [map concat app]. now rewrite <- normspaces_words.
  - rewrite normspaces_words. f_equal.
    change (join sp (d :: ds') ++ sp ++ p)
      with (join sp (d :: ds') ++ " "%char :: p).
    rewrite words_app_blank by reflexivity. now rewrite words_join_any.
Qed.

End RowFacts.

(** ** The particulars, a prefix of the line *)

Section PrefixFacts.

Ltac by_cases c :=
  destruct c as [[] [] [] [] [] [] [] []]; try discriminate; try reflexivity.

Lemma solid_prefix (w x y : str) :
  solid w -> w = x ++ y -> x = [] \/ solid x.
Proof.
  intros [_ Hw] ->. destruct x as [|c x]; [now left|]. right.
  split; [discriminate|]. now apply Forall_app in Hw as [Hx _].
Qed.

Lemma join_prefix (ws : list str) :
  Forall solid ws ->
  forall x y, join sp ws = x ++ y -> exists r, x = join sp (words x) ++ r.
Proof.
  induction 1 as [|w ws Hw Hws IH]; intros x y E.
  - cbn [join] in E. symmetry in E. apply app_eq_nil in E as [-> _].
    now exists [].
  - assert (Hshort : forall l, w = x ++ l -> exists r,
                                 x = join sp (words x) ++ r).
    { intros l El. destruct (solid_prefix w x l Hw El) as [->|Hx].
      - now exists [].
      - exists []. rewrite (words_one Hx). cbn [join].
        now rewrite app_nil_r. }
    destruct ws as [|w2 ws'].
    + cbn [join] in E. now apply (Hshort y).
    + change (join sp (w :: w2 :: ws'))
        with (w ++ " "%char :: join sp (w2 :: ws')) in E.
      apply app_eq_app in E as (l & [[E1 E2]|[E1 E2]]).
      * now apply (Hshort l).
      * destruct l as [|b x'].
        { rewrite app_nil_r in E1. subst x. now apply (Hshort []),
            eq_sym, app_nil_r. }
        cbn [app] in E2. injection E2 as <- E2.
        destruct (IH x' y E2) as (r & Er). subst x.
        rewrite (@words_word_then_blank w x' " "%char Hw eq_refl).
        destruct (words x') as [|v vs] eqn:Ev.
        -- exists (" "%char :: x'). reflexivity.
        -- exists r. rewrite Er at 1.
           change (join sp (w :: v :: vs))
             with (w ++ " "%char :: join sp (v :: vs)).
           now rewrite <- app_assoc.
Qed.

(** A prefix of a normalized text, normalized, is a prefix of it. *)
Lemma normalized_prefix (s x y : str) :
  normspaces s = s -> s = x ++ y -> exists r, x = normspaces x ++ r.
Proof.
  intros Hs E. rewrite normspaces_words in Hs. rewrite <- Hs in E.
  rewrite (normspaces_words x).
  exact (join_prefix (words s) (words_solid s) x y E).
Qed.

Lemma tag_not_at_end (bh : str) : match_here TAG_RX (Cursor bh []) = None.
Proof. reflexivity. Qed.

Lemma tag_ends_text (line : str) (s e : cursor) :
  one_line line -> stands_in line e -> leads TAG_RX s e -> ahead e = [].
Proof.
  intros Hline Hin H. unfold TAG_RX in H. cbn [leads] in H.
  destruct H as (m1 & _ & m2 & _ & [-> Hend]).
  destruct (ahead m2) as [|c [|d t]] eqn:E; [reflexivity| |discriminate].
  exfalso. unfold stands_in in Hin. rewrite E in Hin.
  unfold one_line in Hline. rewrite <- Hin in Hline.
  apply Forall_app in Hline as [_ Hc]. inversion Hc as [|? ? Hc' _]; subst.
  cbn [at_end] in Hend. apply N.eqb_eq in Hend.
  unfold Pdf.is_linebreak, between in Hc'. rewrite Hend in Hc'.
  discriminate.
Qed.

Lemma sub_tag_prefix (s : str) :
  one_line s -> exists rest, s = Re.sub TAG_RX [] s ++ rest.
Proof.
  intros Hs. unfold Re.sub, pieces. cbn [pieces_from ahead behind].
  destruct (search_from TAG_RX [] s) as [[b e]|] eqn:E.
  2:{ exists []. simpl. now rewrite app_nil_r. }
  destruct (search_from_leads TAG_RX s s [] b e eq_refl E)
    as (Hb & Hl & g & Hg).
  destruct (leads_match_in TAG_RX s b e Hb Hl) as [_ He].
  pose proof (tag_ends_text s b e Hs He Hl) as Hend.
  destruct (between_cursors b e) as [|c m].
  { exists []. simpl. now rewrite app_nil_r. }
  assert (Hp : pieces_from TAG_RX (length s) e = ([], [])).
  { destruct e as [bh ah]. cbn [ahead] in Hend. subst ah.
    destruct (length s); [reflexivity|]. cbn [pieces_from ahead behind].
    cbn [search_from]. now rewrite tag_not_at_end. }
  rewrite Hp. exists (ahead b). cbn [map concat fst app].
  rewrite !app_nil_r. unfold gap.
  rewrite (@between_cursors_app (Cursor [] s) b g Hg). exact Hg.
Qed.

Lemma rsplit1_prefix (sep s : str) (parts : list str) (p0 : str) :
  rsplit1 sep s = Ok parts -> index parts 0 = Ok p0 ->
  exists rest, s = p0 ++ rest.
Proof.
  unfold rsplit1. destruct sep as [|c sep]; [discriminate|].
  destruct (cut_last (c :: sep) s) as [[a b]|] eqn:E; intros [= <-];
    cbn [index nth_error]; intros [= <-].
  - apply cut_last_sound in E. eauto.
  - exists []. now rewrite app_nil_r.
Qed.

Lemma one_line_prefix (x y : str) : one_line (x ++ y) -> one_line x.
Proof. unfold one_line. intros H. now apply Forall_app in H. Qed.

Lemma particulars_prefix (line m1 m2 p : str) :
  normspaces line = line ->
  particulars_of line m1 m2 = Ok p -> exists rest, line = p ++ rest.
Proof.
  intros Hn. unfold particulars_of.
  destruct (rsplit1 m1 line) as [parts|] eqn:E1; cbn [bind]; [|discriminate].
  destruct (index parts 0) as [t1|] eqn:I1; cbn [bind]; [|discriminate].
  destruct (rsplit1 m2 t1) as [parts'|] eqn:E2; cbn [bind]; [|discriminate].
  destruct (index parts' 0) as [t2|] eqn:I2; cbn [bind]; [|discriminate].
  intros [= <-].
  destruct (rsplit1_prefix m1 line parts t1 E1 I1) as (r1 & H1).
  destruct (rsplit1_prefix m2 t1 parts' t2 E2 I2) as (r2 & H2).
  assert (Hone : one_line t2).
  { pose proof (normspaces_one_line line) as H. rewrite Hn, H1, H2 in H.
    now apply one_line_prefix, one_line_prefix in H. }
  destruct (sub_tag_prefix t2 Hone) as (r3 & H3).
  set (t3 := Re.sub TAG_RX [] t2) in *.
  assert (E : line = t3 ++ (r3 ++ r2 ++ r1)).
  { rewrite H1, H2, H3 at 1. now rewrite <- !app_assoc. }
  destruct (normalized_prefix line t3 _ Hn E) as (r & Hr).
  exists (r ++ r3 ++ r2 ++ r1). rewrite E at 1. rewrite Hr at 1.
  now rewrite <- app_assoc.
Qed.

Lemma parse_line_prefix (D : str -> result Z) (line : str)
      (prev : option Z) (row : ParsedRow) :
  parse_line D line prev = Ok (Some row) ->
  exists rest, normspaces line = Particulars row ++ rest.
Proof.
  unfold parse_line. intros H.
  destruct (_ <? _)%nat; [discriminate|].
  destruct (index_back _ 1) as [m1|]; [|discriminate]. cbn [bind] in H.
  destruct (index_back _ 2) as [m2|]; [|discriminate]. cbn [bind] in H.
  destruct (clean_money D m1) as [b|e1]; cbn [bind] in H;
    [|destruct e1; discriminate].
  destruct (clean_money D m2) as [a|e2]; cbn [bind] in H;
    [|destruct e2; discriminate].
  destruct (direction _ _ _ _ _) as [dc|]; [|discriminate]. cbn [bind] in H.
  destruct (particulars_of _ _ _) as [p|] eqn:Ep; [|discriminate].
  cbn [bind] in H. injection H as <-. cbn [Particulars].
  eapply particulars_prefix; [apply normspaces_idem|exact Ep].
Qed.

End PrefixFacts.

(** ** The lines do not depend on the order of the words *)

Section OrderFacts.

Import Ocr.

Lemma pair_le_cases (p q : Q * Q) :
  pair_le p q = true <->
  (fst p < fst q)%Q \/ ((fst p == fst q)%Q /\ (snd p <= snd q)%Q).
Proof.
  unfold pair_le. destruct (Qeq_bool (fst p) (fst q)) eqn:E.
  - apply Qeq_bool_iff in E. rewrite Qle_bool_iff. split.
    + intros H. right. auto.
    + intros [H|[_ H]]; [|exact H]. rewrite E in H.
      now apply Qlt_irrefl in H.
  - apply Qeq_bool_neq in E. rewrite Qle_bool_iff. split.
    + intros H. left. apply Qle_lteq in H as [H|H]; [exact H|].
      now contradiction E.
    + intros [H|[H _]]; [now apply Qlt_le_weak|now contradiction E].
Qed.

Lemma pair_le_trans (p q r : Q * Q) :
  pair_le p q = true -> pair_le q r = true -> pair_le p r = true.
Proof.
  rewrite !pair_le_cases. intros [H1|[H1 H1']] [H2|[H2 H2']].
  - left. lra.
  - left. lra.
  - left. lra.
  - right. split; lra.
Qed.

Lemma pair_le_antisym (p q : Q * Q) :
  pair_le p q = true -> pair_le q p = true ->
  (fst p == fst q)%Q /\ (snd p == snd q)%Q.
Proof.
  rewrite !pair_le_cases. intros [H1|[H1 H1']] [H2|[H2 H2']]; split; lra.
Qed.

Lemma sorted_unique (A : Type) (R : A -> A -> Prop) (l : list A) :
  forall l',
    (forall a b, In a l -> In b l -> R a b -> R b a -> a = b) ->
    StronglySorted R l -> StronglySorted R l' -> Permutation l l' ->
    l = l'.
Proof.
  induction l as [|a t IH]; intros l' Hanti Hs Hs' Hp.
  - apply Permutation_nil in Hp. now subst.
  - destruct l' as [|a' t'].
    { apply Permutation_sym, Permutation_nil in Hp. discriminate. }
    apply StronglySorted_inv in Hs as [Hs Ha].
    apply StronglySorted_inv in Hs' as [Hs' Ha'].
    rewrite Forall_forall in Ha, Ha'.
    assert (E : a = a').
    { assert (H1 : In a (a' :: t'))
        by (eapply Permutation_in; [exact Hp|now left]).
      assert (H2 : In a' (a :: t))
        by (eapply Permutation_in;
            [apply Permutation_sym; exact Hp|now left]).
      destruct H1 as [H1|H1]; [now symmetry|].
      destruct H2 as [H2|H2]; [assumption|].
      apply Hanti; [now left|now right|apply Ha, H2|apply Ha', H1]. }
    subst a'. f_equal. apply IH; auto.
    + intros x y Hx Hy. apply Hanti; now right.
    + now apply Permutation_cons_inv in Hp.
Qed.

Lemma sort_unique (ws ws' : list word) :
  (forall a b,
     In a ws -> In b ws ->
     (y_center a == y_center b)%Q -> (x_left a == x_left b)%Q -> a = b) ->
  Permutation ws ws' ->
  sort pair_le fst ws = sort pair_le fst ws'.
Proof.
  intros Hd Hp.
  assert (Htr : Relations_1.Transitive (key_le pair_le (@fst (Q * Q) str))).
  { intros a b c. unfold key_le. apply pair_le_trans. }
  apply sorted_unique with (R := key_le pair_le (@fst (Q * Q) str)).
  - intros a b Ha Hb H1 H2.
    destruct (pair_le_antisym _ _ H1 H2) as [Hy Hx].
    apply Hd; auto; eapply Permutation_in; try eassumption;
      apply sort_perm.
  - apply Sorted_StronglySorted; [exact Htr|].
    apply sort_sorted, pair_le_total.
  - apply Sorted_StronglySorted; [exact Htr|].
    apply sort_sorted, pair_le_total.
  - rewrite sort_perm, Hp. symmetry. apply sort_perm.
Qed.

Lemma cluster_of_sorted (thr : Q) (ws ws' : list word) :
  sort pair_le fst ws = sort pair_le fst ws' ->
  cluster thr ws = cluster thr ws'.
Proof. unfold cluster. now intros ->. Qed.

End OrderFacts.

(** ** Date-only lines, and the box of a word *)

Section DateLineFacts.

Lemma lstrip_by_head (p : ascii -> bool) (s : str) :
  holds_at p (lstrip_by p s) = false.
Proof.
  induction s as [|c t IH]; [reflexivity|]. cbn [lstrip_by].
  destruct (p c) eqn:E; [exact IH|]. cbn [holds_at]. exact E.
Qed.

Lemma lstrip_by_suffix (p : ascii -> bool) (s : str) :
  exists a, s = a ++ lstrip_by p s.
Proof.
  induction s as [|c t (a & IH)]; [now exists []|]. cbn [lstrip_by].
  destruct (p c); [|now exists []]. exists (c :: a). cbn [app].
  now f_equal.
Qed.

(** What [strip] leaves begins and ends outside the class. *)
Lemma strip_by_ends (p : ascii -> bool) (s : str) :
  holds_at p (strip_by p s) = false /\
  holds_at p (rev (strip_by p s)) = false.
Proof.
  unfold strip_by, rstrip_by. rewrite rev_involutive.
  split; [|apply lstrip_by_head].
  set (u := lstrip_by p s).
  assert (Hu : holds_at p u = false) by apply lstrip_by_head.
  destruct (lstrip_by_suffix p (rev u)) as (a & Ha).
  assert (E : u = rev (lstrip_by p (rev u)) ++ rev a).
  { rewrite <- rev_app_distr, <- Ha. now rewrite rev_involutive. }
  destruct (rev (lstrip_by p (rev u))) as [|c t] eqn:Er; [reflexivity|].
  rewrite E in Hu. exact Hu.
Qed.

Lemma starts_with_refl (w : str) : starts_with w w = true.
Proof.
  induction w as [|c w IH]; [reflexivity|]. cbn [starts_with].
  now rewrite Ascii.eqb_refl.
Qed.

Lemma replace_skip_all (old new s : str) :
  forall k, length s <= k -> replace_from old new s k = [].
Proof.
  induction s as [|c t IH]; intros k Hk; [reflexivity|].
  destruct k as [|k]; [simpl in Hk; lia|]. cbn [replace_from].
  apply IH. simpl in Hk. lia.
Qed.

Lemma replace_self (w : str) : w <> [] -> replace w [] w = [].
Proof.
  intros Hw. unfold replace. destruct w as [|c t]; [contradiction|].
  cbn [replace_from]. rewrite starts_with_refl. cbn [app].
  apply replace_skip_all. simpl. lia.
Qed.

Lemma normspaces_nil : normspaces [] = [].
Proof. reflexivity. Qed.

Lemma step_date_only (D : str -> result Z) (st : assembler) (ln : str) :
  date_only ln = true ->
  find_date ln <> [] /\
  step_line D st ln =
  Ok (mkAsm (rows st) (prev_balance st)
        (let tail := strip_by is_dash_or_blank
                       (normspaces (replace (find_date ln) [] ln)) in
         match tail with
         | [] => pending_desc st
         | _ => pending_desc st ++ [tail]
         end)
        (find_date ln)).
Proof.
  unfold date_only, step_line.
  destruct (find_date ln) as [|c d]; [discriminate|].
  destruct (Re.search MONEY_RX ln); [discriminate|].
  intros _. split; [discriminate|reflexivity].
Qed.

End DateLineFacts.

Section BoxFacts.

Import Ocr.

Local Open Scope Q_scope.

Lemma Qmin4_le (a b c e : Q) :
  Qmin4 a b c e <= a /\ Qmin4 a b c e <= b /\
  Qmin4 a b c e <= c /\ Qmin4 a b c e <= e.
Proof.
  unfold Qmin4. repeat split.
  - apply Qle_trans with (Qmin a b); apply Q.le_min_l.
  - apply Qle_trans with (Qmin a b); [apply Q.le_min_l|apply Q.le_min_r].
  - apply Qle_trans with (Qmin c e); [apply Q.le_min_r|apply Q.le_min_l].
  - apply Qle_trans with (Qmin c e); apply Q.le_min_r.
Qed.

Lemma Qmin4_is (a b c e : Q) :
  Qmin4 a b c e == a \/ Qmin4 a b c e == b \/
  Qmin4 a b c e == c \/ Qmin4 a b c e == e.
Proof.
  unfold Qmin4.
  destruct (Q.min_spec (Qmin a b) (Qmin c e)) as [[_ ->]|[_ ->]].
  - destruct (Q.min_spec a b) as [[_ ->]|[_ ->]]; auto using Qeq_refl.
  - destruct (Q.min_spec c e) as [[_ ->]|[_ ->]];
      auto 6 using Qeq_refl.
Qed.

Lemma mean4_between (lo hi a b c e : Q) :
  lo <= a <= hi -> lo <= b <= hi -> lo <= c <= hi -> lo <= e <= hi ->
  lo <= (a + b + c + e) / 4 <= hi.
Proof.
  intros Ha Hb Hc He.
  assert (E : (a + b + c + e) / 4 == (a + b + c + e) * (1 # 4)) by field.
  rewrite E. split; lra.
Qed.

End BoxFacts.

(* ================================================================= *)
(** * Further properties of the program *)

Section Further.

Local Open Scope Z_scope.

(** X1.  [normspaces(s)] is the words of [s] joined by single spaces, as
    [" ".join(s.split())]: the words are the runs of characters that are not
    blanks, in order and with nothing lost. *)
Theorem X1_normspaces_joins_words (s : str) :
  normspaces s = join sp (words s) /\
  Forall solid (words s) /\
  concat (words s) = filter (fun c => negb (is_space c)) s.
Proof.
  split; [apply normspaces_words|].
  split; [apply words_solid|apply words_concat].
Qed.

(** X2.  Normalizing a normalized line changes nothing; a line normalizes
    to the empty text when it holds nothing but blanks, and only then; and
    a text is normalized when it is words joined by single spaces. *)
Theorem X2_normspaces_idempotent (s : str) :
  normspaces (normspaces s) = normspaces s /\
  (normspaces s = [] <-> forallb is_space s = true) /\
  (forall ws, Forall solid ws -> normspaces (join sp ws) = join sp ws).
Proof.
  split; [apply normspaces_idem|]. split.
  - rewrite normspaces_words, <- words_nil. split; [|now intros ->].
    intros H. pose proof (words_solid s) as Hs.
    destruct (words s) as [|[|c w] ws]; [reflexivity| |].
    + inversion Hs as [|? ? [Hn _] _]. now contradiction Hn.
    + rewrite join_cons_char in H. discriminate.
  - intros ws Hws. now rewrite normspaces_words, words_join.
Qed.

(** X3.  [parse_line] reads a line through its words alone: two lines with
    the same words, whatever blanks stand between and around them, give the
    same date, particulars, debit, credit and balance, or both no row, or
    both the same exception; only [raw] keeps the line as it came. *)
Theorem X3_parse_line_reads_words (D : str -> result Z) (l1 l2 : str)
        (prev : option Z) :
  words l1 = words l2 ->
  fields_of (parse_line D l1 prev) = fields_of (parse_line D l2 prev).
Proof.
  intros H. apply parse_line_norm. rewrite !normspaces_words. now f_equal.
Qed.

Lemma X3_parse_line_reads_words_witness :
  let l1 := lit "  UPI  shop 1.00   2.00" in
  let l2 := lit "UPI shop  1.00 2.00 " in
  words l1 = words l2 /\
  fields_of (parse_line Dec.of_str l1 None) =
  fields_of (parse_line Dec.of_str l2 None).
Proof.
  split; [vm_compute; reflexivity|].
  apply (X3_parse_line_reads_words Dec.of_str
           (lit "  UPI  shop 1.00   2.00") (lit "UPI shop  1.00 2.00 ")
           None).
  vm_compute. reflexivity.
Defined.

(** X4.  Text mode: every line that [extract_text_lines_from_pdf] returns
    is not empty, is normalized, holds no line break, and is the
    normalization of a piece of one page that holds no line break; and the
    lines together hold the characters of the pages that are not blanks, in
    order, no more and no fewer. *)
Theorem X4_text_lines_are_normalized (pages : list str) :
  Forall (fun ln =>
            ln <> [] /\ normspaces ln = ln /\ one_line ln /\
            exists page piece,
              In page pages /\ occurs piece page /\ one_line piece /\
              ln = normspaces piece)
         (Pdf.extract_text_lines_from_pdf pages) /\
  filter (fun c => negb (is_space c))
         (concat (Pdf.extract_text_lines_from_pdf pages)) =
  filter (fun c => negb (is_space c)) (concat pages).
Proof.
  split; [|apply extract_content].
  apply Forall_forall. intros ln Hin.
  destruct (extract_lines pages ln Hin)
    as (Hne & page & piece & Hp & Ho & H1 & ->).
  split; [exact Hne|]. split; [apply normspaces_idem|].
  split; [apply normspaces_one_line|]. exists page, piece. auto.
Qed.

(** X5.  OCR mode: [easyocr_lines] returns no more lines than the engine
    detected words, no line exactly when it detected none, and every line
    is normalized. *)
Theorem X5_ocr_lines_count (results : list Ocr.detection) :
  (length (Ocr.easyocr_lines results) <= length results)%nat /\
  (Ocr.easyocr_lines results = [] <-> results = []) /\
  Forall (fun ln => normspaces ln = ln) (Ocr.easyocr_lines results).
Proof.
  assert (Hthr : (0 <= 10)%Q) by (vm_compute; discriminate).
  unfold Ocr.easyocr_lines.
  destruct (cluster_count 10 (map Ocr.word_of results) Hthr) as [Hl Hn].
  rewrite length_map in Hl. split; [exact Hl|]. split.
  - rewrite Hn. split; [apply map_eq_nil|now intros ->].
  - destruct (cluster_split 10 (map Ocr.word_of results) Hthr)
      as (gs & _ & _ & -> & _).
    apply Forall_forall. intros ln Hin.
    apply in_map_iff in Hin as (g & <- & _). apply flush_normalized.
Qed.

(** X6.  Every money match of a line is digits and commas that begin with
    a digit, a point and two digits; no digit stands right before it or
    right after it in the line; and [clean_money] gives it the value its
    digits write, the commas counting for nothing, without an exception. *)
Theorem X6_money_matches (line : str) :
  Forall (fun m =>
            money_text m /\
            (exists a b,
               line = a ++ m ++ b /\
               holds_at is_digit (rev a) = false /\
               holds_at is_digit b = false) /\
            clean_money Dec.of_str m =
            Ok (Dec.digits_val 0 (filter is_digit m)))
         (monies_of line).
Proof.
  apply Forall_forall. intros m Hin. unfold monies_of in Hin.
  destruct (@findall_sound MONEY_RX line m Hin) as (Hl & _ & _).
  split; [now apply lang_money_text|].
  split; [|now apply clean_money_value].
  apply money_match_delimited, findall_match_in, Hin.
Qed.

(** X7.  [find_date] returns the empty text exactly when none of the three
    grammars matches.  A date it returns stands in the text with no letter,
    digit or underscore right before it or right after it, has at least
    six characters, and begins and ends with a digit.  The numeric grammar
    goes first: a date with a letter is returned only when the numeric
    grammar matches nowhere in the text. *)
Theorem X7_find_date (s : str) :
  (find_date s = [] <-> Forall (fun rx => Re.search rx s = None) DATE_RXES) /\
  (find_date s = [] \/
   (exists a b,
      s = a ++ find_date s ++ b /\
      word_at (rev a) = false /\ word_at b = false) /\
   (6 <= length (find_date s))%nat /\
   holds_at is_digit (find_date s) = true /\
   holds_at is_digit (rev (find_date s)) = true) /\
  (existsb is_alpha (find_date s) = true ->
   Re.search (hd Eps DATE_RXES) s = None).
Proof.
  unfold find_date.
  assert (Hfound : forall rx,
             In rx DATE_RXES ->
             Re.search rx s = Some (find_date_in DATE_RXES s) ->
             (exists a b,
                s = a ++ find_date_in DATE_RXES s ++ b /\
                word_at (rev a) = false /\ word_at b = false) /\
             (6 <= length (find_date_in DATE_RXES s))%nat /\
             holds_at is_digit (find_date_in DATE_RXES s) = true /\
             holds_at is_digit (rev (find_date_in DATE_RXES s)) = true).
  { intros rx Hin Hs. split.
    - apply (date_match_apart rx); [exact Hin|].
      now apply search_match_in.
    - destruct (search_lang rx s _ Hs) as [Hl _].
      destruct (date_lang_shape rx _ Hin Hl)
        as (Hlen & (c & t & E1 & Hc) & (t' & c' & E2 & Hc')).
      split; [exact Hlen|]. split.
      + rewrite E1. exact Hc.
      + rewrite E2, rev_app_distr. exact Hc'. }
  destruct (find_date_in_cases DATE_RXES s) as [[Hall Hd]|(rx & Hin & Hs)].
  - rewrite Hd. split; [tauto|]. split; [now left|]. discriminate.
  - destruct (Hfound rx Hin Hs) as (Hab & Hlen & H1 & H2).
    split; [|split].
    + split.
      * intros E. rewrite E in Hlen. simpl in Hlen. lia.
      * intros Hall. rewrite Forall_forall in Hall.
        rewrite (Hall rx Hin) in Hs. discriminate.
    + right. auto.
    + intros Ha.
      destruct (Re.search (hd Eps DATE_RXES) s) as [m|] eqn:E;
        [|reflexivity].
      assert (Em : find_date_in DATE_RXES s = m).
      { unfold DATE_RXES in *. cbn [hd] in E. cbn [find_date_in].
        now rewrite E. }
      apply search_lang in E as [E _]. rewrite <- Em in E.
      apply numeric_date_no_letter in E. congruence.
Qed.

(** X8.  Digits, a point and two digits, with no digit before or after
    them, are a money match wherever they stand: so a line that shows a
    day and a two-digit month with a point between them, as the date
    01.06.2023 does, is never a date-only line, and leaves the pending
    date as it was. *)
Theorem X8_point_date_line (pre day post : str) (m1 m2 : ascii) :
  day <> [] -> Forall (fun c => is_digit c = true) day ->
  holds_at is_digit (rev pre) = false ->
  is_digit m1 = true -> is_digit m2 = true ->
  holds_at is_digit post = false ->
  let ln := pre ++ day ++ "."%char :: m1 :: m2 :: post in
  (exists m ms, Re.search MONEY_RX ln = Some m /\ monies_of ln = m :: ms) /\
  date_only ln = false /\
  (forall D st st',
     step_line D st ln = Ok st' -> pending_date st' = pending_date st).
Proof.
  intros Hne Hday Hpre H1 H2 Hpost ln.
  destruct (money_found pre day m1 m2 post Hpre Hne Hday H1 H2 Hpost)
    as (m & Hm).
  fold ln in Hm. split; [|split].
  - assert (Hn : m <> []).
    { destruct (search_lang MONEY_RX ln m Hm) as [Hl _].
      apply lang_money_text in Hl as (c & ip & d1 & d2 & -> & _).
      discriminate. }
    destruct (findall_first MONEY_RX ln m Hm Hn) as (ms & E). eauto.
  - exact (date_only_money ln m Hm).
  - intros D st st'. apply step_line_keeps_date.
    exact (date_only_money ln m Hm).
Qed.

Lemma X8_point_date_line_witness :
  let ln := lit "01.06.2023" in
  find_date ln = ln /\
  (exists m ms, Re.search MONEY_RX ln = Some m /\ monies_of ln = m :: ms) /\
  date_only ln = false /\
  (forall D st st',
     step_line D st ln = Ok st' -> pending_date st' = pending_date st).
Proof.
  split; [reflexivity|].
  apply (X8_point_date_line [] (lit "01") (lit ".2023") "0"%char "6"%char).
  - discriminate.
  - repeat constructor.
  - reflexivity.
  - reflexivity.
  - reflexivity.
  - reflexivity.
Defined.


(** X10.  Two credit hints and one debit hint decide nothing of their own:
    CREDIT and UPI/CR hold CR, WITHDRAWAL holds DR.  And DEPOSIT holds
    POS: every text with that credit hint has a debit hint as well. *)
Theorem X10_redundant_hints (s : str) :
  has_any s CREDIT_HINTS =
  has_any s (map lit ["CR"; "DEPOSIT"; "REFUND"; "REVERSAL"]%string) /\
  has_any s DEBIT_HINTS =
  has_any s (map lit ["DR"; "DEBIT"; "W/D"; "ATM"; "POS"; "IRCTC";
                      "CHARGES"]%string) /\
  (has_any s [lit "DEPOSIT"] = true -> has_any s DEBIT_HINTS = true).
Proof.
  split; [|split].
  - change CREDIT_HINTS
      with ([lit "CR"] ++ lit "CREDIT" ::
            map lit ["DEPOSIT"; "UPI/CR"; "REFUND"; "REVERSAL"]%string).
    rewrite (has_any_redundant s _ (lit "CR"));
      [|now left|now exists [], (lit "EDIT")].
    change ([lit "CR"] ++
            map lit ["DEPOSIT"; "UPI/CR"; "REFUND"; "REVERSAL"]%string)
      with (map lit ["CR"; "DEPOSIT"]%string ++ lit "UPI/CR" ::
            map lit ["REFUND"; "REVERSAL"]%string).
    rewrite (has_any_redundant s _ (lit "CR"));
      [reflexivity|now left|now exists (lit "UPI/"), []].
  - change DEBIT_HINTS
      with (map lit ["DR"; "DEBIT"]%string ++ lit "WITHDRAWAL" ::
            map lit ["W/D"; "ATM"; "POS"; "IRCTC"; "CHARGES"]%string).
    rewrite (has_any_redundant s _ (lit "DR"));
      [reflexivity|now left|now exists (lit "WITH"), (lit "AWAL")].
  - intros H. rewrite has_any_cons, orb_false_r in H.
    apply has_any_spec. exists (lit "POS").
    split; [simpl; tauto|]. split; [reflexivity|].
    apply contains_occurs in H.
    assert (Hp : occurs (lit "POS") (upper s)).
    { eapply occurs_trans; [|exact H]. now exists (lit "DE"), (lit "IT"). }
    apply occurs_upper_inv in Hp as (a & m & b & -> & Hm).
    now exists a, m, b.
Qed.

(** X11.  The balance test on exact movements, without a hint and for
    amounts the decimal context holds exactly.  When the balance is the
    previous balance plus the amount, the row is a credit.  When it is the
    previous balance minus the amount, the row is a debit only if the
    amount is above 0.50: the credit test comes first and its tolerance of
    1.00 takes a debit of up to 0.50 for a credit. *)
Theorem X11_exact_movements (line : str) (prev : Z) (pre : list str)
        (m2 m1 : str) (balance amount : Z) :
  monies_of (normspaces line) = pre ++ [m2; m1] ->
  clean_money Dec.of_str m1 = Ok balance ->
  clean_money Dec.of_str m2 = Ok amount ->
  ~ hinted CREDIT_HINTS line ->
  ~ hinted DEBIT_HINTS line ->
  exact_range prev -> exact_range balance -> exact_range amount ->
  exists row,
    parse_line Dec.of_str line (Some prev) = Ok (Some row) /\
    (balance = prev + amount -> movement row = (0, amount)) /\
    (balance = prev - amount ->
     movement row = if amount <=? 50 then (0, amount) else (amount, 0)).
Proof.
  intros Hmon Hb Ha Hc Hd Rp Rb Ra.
  destruct (@parse_line_row Dec.of_str line (Some prev) _ _ _ _ _ Hmon Hb Ha)
    as (dc & p & Hdir & _ & Hp).
  eexists. split; [exact Hp|].
  rewrite <- (hinted_normspaces line CREDIT_HINTS_solid) in Hc.
  rewrite <- (hinted_normspaces line DEBIT_HINTS_solid) in Hd.
  apply (not_hinted _ CREDIT_HINTS_upper) in Hc.
  apply (not_hinted _ DEBIT_HINTS_upper) in Hd.
  destruct (monies_sound _ _ _ _ Hmon) as [_ [Hn2 _]].
  rewrite (direction_by_balance _ _ _ _ _ Hc Hd Hn2 Rp Rb Ra) in Hdir.
  injection Hdir as <-. unfold movement. cbn [Debit Credit].
  assert (Hpos : 0 <= amount).
  { assert (Hl : lang MONEY_RX m2).
    { refine (proj1 (@findall_sound MONEY_RX (normspaces line) m2 _)).
      fold (monies_of (normspaces line)). rewrite Hmon.
      apply in_or_app. right. now left. }
    destruct (@clean_money_match m2 Hl) as (v & Hv & Hv0). congruence. }
  split; intros ->.
  - rewrite delta_exact_credit. reflexivity.
  - rewrite (delta_exact_debit prev amount _ Hpos).
    now destruct (amount <=? 50).
Qed.

Lemma X11_exact_movements_witness :
  let line := lit "fee 0.40 99.60" in
  exists row,
    parse_line Dec.of_str line (Some 10000) = Ok (Some row) /\
    (9960 = 10000 + 40 -> movement row = (0, 40)) /\
    (9960 = 10000 - 40 ->
     movement row = if 40 <=? 50 then (0, 40) else (40, 0)).
Proof.
  refine (@X11_exact_movements (lit "fee 0.40 99.60") 10000 []
            (lit "0.40") (lit "99.60") 9960 40
            eq_refl eq_refl eq_refl _ _ _ _ _).
  - now apply (not_hinted _ CREDIT_HINTS_upper).
  - now apply (not_hinted _ DEBIT_HINTS_upper).
  - unfold exact_range. vm_compute. reflexivity.
  - unfold exact_range. vm_compute. reflexivity.
  - unfold exact_range. vm_compute. reflexivity.
Defined.


(** X13.  In the output every row carries the amounts of [parse_line] on
    its own line, read against the balance of the row before it, and
    against no balance for the first row: lines that give no row do not
    touch the running balance.  The particulars of every row are
    normalized. *)
Theorem X13_rows_chain (D : str -> result Z) (lines : list str)
        (out : list ParsedRow) :
  parse_lines_to_rows D lines = Ok out ->
  chained D None out /\
  Forall (fun r => normspaces (Particulars r) = Particulars r) out.
Proof.
  intros H. apply output_of_loop in H as (st & Hrun & ->).
  destruct (run_lines_chained D lines start st None Hrun I eq_refl
              (Forall_nil _)) as (Hc & _ & Hn).
  assert (Hl : length (fill_dates (map Date (rows st))) = length (rows st))
    by (now rewrite fill_dates_length, length_map).
  split; [now apply assign_dates_chained|].
  destruct (assign_dates_fields (rows st) _ Hl) as (_ & Hp & _).
  apply Forall_forall. intros r Hin.
  apply (in_map Particulars) in Hin. rewrite Hp in Hin.
  apply in_map_iff in Hin as (r' & <- & Hin').
  rewrite Forall_forall in Hn. now apply Hn.
Qed.

Lemma X13_rows_chain_witness :
  let lines := map lit ["A 1.00 2.00"; "note"; "B 1.00 3.00"]%string in
  exists out,
    parse_lines_to_rows Dec.of_str lines = Ok out /\
    chained Dec.of_str None out /\
    Forall (fun r => normspaces (Particulars r) = Particulars r) out.
Proof.
  eexists. split; [vm_compute; reflexivity|].
  apply (X13_rows_chain Dec.of_str
           (map lit ["A 1.00 2.00"; "note"; "B 1.00 3.00"]%string)).
  vm_compute. reflexivity.
Defined.

(** X14.  Lines without a letter that are neither date-only lines nor
    transaction lines count for nothing: with them or without them
    [parse_lines_to_rows] gives the same answer. *)
Theorem X14_noise_lines (D : str -> result Z) (lines : list str) :
  parse_lines_to_rows D (filter (fun l => negb (noise_line l)) lines) =
  parse_lines_to_rows D lines.
Proof. unfold parse_lines_to_rows. now rewrite run_noise. Qed.

(** X15.  Fragments before a transaction line: the row of the line takes
    for its particulars the words of the pending descriptions, of the
    fragments and of its own particulars, in that order, joined by single
    spaces; its amounts are those of the line, and the buffer of
    descriptions is empty afterwards. *)
Theorem X15_stitched_description (D : str -> result Z) (st : assembler)
        (fs : list str) (t : str) (r0 : ParsedRow) :
  Forall (fun l => fragment_line l = true) fs ->
  date_only t = false ->
  parse_line D t (prev_balance st) = Ok (Some r0) ->
  exists r,
    run_lines D st (fs ++ [t]) =
    Ok (mkAsm (rows st ++ [r]) (Some (Balance r0)) [] (pending_date st)) /\
    Particulars r =
    join sp (concat (map words (pending_desc st ++ fs)) ++
             words (Particulars r0)) /\
    movement r = movement r0 /\ Balance r = Balance r0.
Proof.
  intros Hfs Hd Hp. rewrite run_lines_app, (run_fragments D fs Hfs).
  cbn [bind run_lines].
  set (st1 := mkAsm (rows st) (prev_balance st) (pending_desc st ++ fs)
                (pending_date st)).
  destruct (step_transaction D st1 t r0 Hd Hp)
    as (r & E & (r0' & Hp' & H1 & H2 & H3 & _) & Hraw & Hpart).
  rewrite Hraw in Hp'. cbn [st1 prev_balance] in Hp'.
  rewrite Hp in Hp'. injection Hp' as <-.
  exists r. rewrite E. cbn [bind st1 rows pending_date].
  split; [now rewrite H3|]. split.
  - rewrite Hpart. cbn [st1 pending_desc].
    assert (Hn : normspaces (Particulars r0) = Particulars r0)
      by (eapply parse_line_particulars; eauto).
    destruct (pending_desc st ++ fs) as [|d ds].
    + exact (stitched_words [] _ Hn).
    + exact (stitched_words (d :: ds) _ Hn).
  - unfold movement. now rewrite H1, H2, H3.
Qed.

Lemma X15_stitched_description_witness :
  let t := lit "to shop 1.00 2.00" in
  let r0 := mkRow [] (lit "to shop") 0 100 200 t in
  exists r,
    run_lines Dec.of_str start ([lit "UPI  payment"] ++ [t]) =
    Ok (mkAsm (rows start ++ [r]) (Some (Balance r0)) []
          (pending_date start)) /\
    Particulars r =
    join sp (concat (map words (pending_desc start ++ [lit "UPI  payment"]))
             ++ words (Particulars r0)) /\
    movement r = movement r0 /\ Balance r = Balance r0.
Proof.
  apply (X15_stitched_description Dec.of_str start [lit "UPI  payment"]
           (lit "to shop 1.00 2.00")).
  - repeat constructor.
  - reflexivity.
  - vm_compute. reflexivity.
Defined.

(** X16.  The dates of the output are filled: a second fill pass would
    change nothing, and once a row has a date every row after it has one,
    so the rows without a date are the first ones. *)
Theorem X16_dates_after_fill (D : str -> result Z) (lines : list str)
        (out : list ParsedRow) :
  parse_lines_to_rows D lines = Ok out ->
  fill_dates (map Date out) = map Date out /\
  (forall i j,
     (i <= j)%nat -> (j < length out)%nat ->
     nth i (map Date out) [] <> [] -> nth j (map Date out) [] <> []).
Proof.
  intros H. apply output_of_loop in H as (st & _ & ->).
  assert (Hl : length (fill_dates (map Date (rows st))) = length (rows st))
    by (now rewrite fill_dates_length, length_map).
  destruct (assign_dates_fields (rows st) _ Hl) as (_ & _ & Hd).
  rewrite Hd. split; [apply fill_dates_idem|].
  intros i j Hij Hj. apply fill_dates_stays; [exact Hij|].
  rewrite assign_dates_length in Hj by exact Hl. now rewrite length_map.
Qed.

Lemma X16_dates_after_fill_witness :
  let lines := map lit ["A 1.00 2.00"; "02-01-23 B 1.00 3.00";
                        "C 1.00 4.00"]%string in
  exists out,
    parse_lines_to_rows Dec.of_str lines = Ok out /\
    fill_dates (map Date out) = map Date out /\
    (forall i j,
       (i <= j)%nat -> (j < length out)%nat ->
       nth i (map Date out) [] <> [] -> nth j (map Date out) [] <> []).
Proof.
  eexists. split; [vm_compute; reflexivity|].
  apply (X16_dates_after_fill Dec.of_str
           (map lit ["A 1.00 2.00"; "02-01-23 B 1.00 3.00";
                     "C 1.00 4.00"]%string)).
  vm_compute. reflexivity.
Defined.

(** X17.  The particulars of a row of [parse_line] are a prefix of the
    normalized line, and normalized themselves: the text before the two
    amounts, nothing put in and nothing moved.  The row keeps the line as
    it came in [raw] and has the date that [find_date] finds in the
    normalized line. *)
Theorem X17_particulars_are_a_prefix (D : str -> result Z) (line : str)
        (prev : option Z) (row : ParsedRow) :
  parse_line D line prev = Ok (Some row) ->
  (exists rest, normspaces line = Particulars row ++ rest) /\
  normspaces (Particulars row) = Particulars row /\
  raw row = line /\
  Date row = find_date (normspaces line).
Proof.
  intros H. split; [eapply parse_line_prefix; eauto|].
  split; [eapply parse_line_particulars; eauto|].
  destruct (@parse_line_date_raw D line prev row H). auto.
Qed.

Lemma X17_particulars_are_a_prefix_witness :
  let line := lit " 12-01-24  POS STORE 45.10 1,954.90 Dr" in
  let row := mkRow (lit "12-01-24") (lit "12-01-24 POS STORE") 4510 0 195490
                   line in
  parse_line Dec.of_str line None = Ok (Some row) /\
  (exists rest, normspaces line = Particulars row ++ rest) /\
  normspaces (Particulars row) = Particulars row /\
  raw row = line /\
  Date row = find_date (normspaces line).
Proof.
  assert (H : parse_line Dec.of_str
                (lit " 12-01-24  POS STORE 45.10 1,954.90 Dr") None =
              Ok (Some (mkRow (lit "12-01-24") (lit "12-01-24 POS STORE")
                          4510 0 195490
                          (lit " 12-01-24  POS STORE 45.10 1,954.90 Dr"))))
    by (vm_compute; reflexivity).
  split; [exact H|].
  exact (X17_particulars_are_a_prefix Dec.of_str _ None _ H).
Defined.


(** X19.  The lines do not depend on the order in which the engine reports
    the words, as long as no two different words have the same height and
    the same left edge. *)
Theorem X19_order_of_words (results results' : list Ocr.detection) :
  Permutation results results' ->
  (forall a b,
     In a (map Ocr.word_of results) -> In b (map Ocr.word_of results) ->
     (Ocr.y_center a == Ocr.y_center b)%Q ->
     (Ocr.x_left a == Ocr.x_left b)%Q -> a = b) ->
  Ocr.easyocr_lines results = Ocr.easyocr_lines results'.
Proof.
  intros Hp Hd. unfold Ocr.easyocr_lines. apply cluster_of_sorted.
  apply sort_unique; [exact Hd|]. now apply Permutation_map.
Qed.

Lemma X19_order_of_words_witness :
  let d1 := Ocr.mkDet ((0, 100), (9, 100), (9, 110), (0, 110))%Q
                      (lit "paid") in
  let d2 := Ocr.mkDet ((20, 101), (29, 101), (29, 111), (20, 111))%Q
                      (lit "9.00") in
  Ocr.easyocr_lines [d1; d2] = Ocr.easyocr_lines [d2; d1].
Proof.
  apply (X19_order_of_words
           [Ocr.mkDet ((0, 100), (9, 100), (9, 110), (0, 110))%Q
                      (lit "paid");
            Ocr.mkDet ((20, 101), (29, 101), (29, 111), (20, 111))%Q
                      (lit "9.00")]).
  - apply perm_swap.
  - intros a b [<-|[<-|[]]] [<-|[<-|[]]] Hy Hx; try reflexivity;
      vm_compute in Hy; discriminate.
Defined.


(** X21.  A date-only line gives no row and leaves the running balance: it
    sets the pending date to the date it shows, and puts into the buffer
    of descriptions what is left of the line without the date, if
    something is left, with no blank and no dash at either end.  A line
    that is nothing but its date leaves the buffer as it was. *)
Theorem X21_date_only_line (D : str -> result Z) (st : assembler)
        (ln : str) :
  date_only ln = true ->
  exists st',
    step_line D st ln = Ok st' /\
    rows st' = rows st /\ prev_balance st' = prev_balance st /\
    pending_date st' = find_date ln /\ pending_date st' <> [] /\
    (pending_desc st' = pending_desc st \/
     exists tail,
       pending_desc st' = pending_desc st ++ [tail] /\ tail <> [] /\
       holds_at is_dash_or_blank tail = false /\
       holds_at is_dash_or_blank (rev tail) = false) /\
    (find_date ln = ln -> pending_desc st' = pending_desc st).
Proof.
  intros Hd. destruct (step_date_only D st ln Hd) as [Hne E].
  eexists. split; [exact E|].
  cbn [rows prev_balance pending_date pending_desc].
  repeat split; auto.
  - cbv zeta.
    destruct (strip_by_ends is_dash_or_blank
                (normspaces (replace (find_date ln) [] ln))) as [H1 H2].
    destruct (strip_by is_dash_or_blank _) as [|c t] eqn:Et; [now left|].
    right. exists (c :: t). repeat split; auto. discriminate.
  - intros Eln. rewrite Eln, replace_self by (now rewrite <- Eln).
    reflexivity.
Qed.

Lemma X21_date_only_line_witness :
  let ln := lit "05/01/24 - Opening -" in
  date_only ln = true /\
  exists st',
    step_line Dec.of_str start ln = Ok st' /\
    rows st' = rows start /\ prev_balance st' = prev_balance start /\
    pending_date st' = find_date ln /\ pending_date st' <> [] /\
    (pending_desc st' = pending_desc start \/
     exists tail,
       pending_desc st' = pending_desc start ++ [tail] /\ tail <> [] /\
       holds_at is_dash_or_blank tail = false /\
       holds_at is_dash_or_blank (rev tail) = false) /\
    (find_date ln = ln -> pending_desc st' = pending_desc start).
Proof.
  assert (H : date_only (lit "05/01/24 - Opening -") = true)
    by (vm_compute; reflexivity).
  split; [exact H|].
  exact (X21_date_only_line Dec.of_str start _ H).
Defined.

(** X22.  The word of a detection: its left edge is the least of the four
    x of the box, its height lies between the least and the greatest of
    the four y, and its text is the text detected. *)
Theorem X22_word_of_box (p1 p2 p3 p4 : Ocr.point) (t : str) :
  let w := Ocr.word_of (Ocr.mkDet (p1, p2, p3, p4) t) in
  ((Ocr.x_left w <= fst p1)%Q /\ (Ocr.x_left w <= fst p2)%Q /\
   (Ocr.x_left w <= fst p3)%Q /\ (Ocr.x_left w <= fst p4)%Q) /\
  ((Ocr.x_left w == fst p1)%Q \/ (Ocr.x_left w == fst p2)%Q \/
   (Ocr.x_left w == fst p3)%Q \/ (Ocr.x_left w == fst p4)%Q) /\
  (forall lo hi,
     Forall (fun p => (lo <= snd p <= hi)%Q) [p1; p2; p3; p4] ->
     (lo <= Ocr.y_center w <= hi)%Q) /\
  Ocr.text w = t.
Proof.
  cbv zeta. unfold Ocr.word_of, Ocr.x_left, Ocr.y_center, Ocr.text.
  cbn [Ocr.box Ocr.det_text fst snd].
  split; [apply Qmin4_le|]. split; [apply Qmin4_is|].
  split; [|reflexivity].
  intros lo hi H. rewrite Forall_forall in H.
  apply mean4_between; apply H; simpl; auto.
Qed.

End Further.
